(** * nodepp: request parsing, response serialization, routing and the worker pool

    A shallow embedding of the C++ sources (ReqRes.cpp, ReqRes.h, App.cpp,
    ThreadPool.h, flog.h, ff.h and the sample application) together with the
    properties the specification states about them and further properties
    of the code.

    Conventions
    - [std::string] is [string]; [size_t] is [Z] with the wrap-around modulo
      2^64 written out ([szadd], [szsub]); [std::string::npos] is [npos].
    - [int] is [Z]; [std::stoi] checks the [int] range itself.
    - [std::unordered_map<std::string, T>] is [gmap string T].
    - A C++ exception is the [Throw] branch of [result].
    - A [std::string] is never longer than [npos] characters; statements
      about an arbitrary [string] carry that bound as [size s ≤ npos]. *)

From Stdlib Require Import ZArith Lia Ascii String.
From stdpp Require Import gmap strings list fin_maps pretty.

Local Open Scope Z_scope.

(** ** Exceptions *)

Inductive exn : Type :=
  | invalid_argument (what : string)
  | out_of_range (what : string)
  | runtime_error (what : string).

Inductive result (A : Type) : Type :=
  | Ok (a : A)
  | Throw (e : exn).
Arguments Ok {A} a.
Arguments Throw {A} e.

Definition rbind {A B : Type} (f : A → result B) (m : result A) : result B :=
  match m with
  | Ok a => f a
  | Throw e => Throw e
  end.

#[global] Instance result_ret : MRet result := λ A a, Ok a.
#[global] Instance result_bind : MBind result := λ A B f m, rbind f m.

(** A loop [for (x : l) this = body(this, x)] whose body may throw. *)
Fixpoint for_each {A S : Type} (body : S → A → result S) (l : list A) (st : S)
  : result S :=
  match l with
  | [] => Ok st
  | x :: l' => st' ← body st x; for_each body l' st'
  end.

(** ** The parts of the C++ standard library the sources call *)

Module Std.

Definition npos : Z := 2 ^ 64 - 1.
Definition INT_MAX : Z := 2 ^ 31 - 1.
Definition INT_MIN : Z := - 2 ^ 31.

(** [size_t] arithmetic. *)
Definition szadd (a b : Z) : Z := (a + b) mod 2 ^ 64.
Definition szsub (a b : Z) : Z := (a - b) mod 2 ^ 64.

Definition size (s : string) : Z := Z.of_nat (String.length s).
Definition empty (s : string) : bool := bool_decide (s = "").

Fixpoint str_take (n : nat) (s : string) : string :=
  match n, s with
  | S n', String a s' => String a (str_take n' s')
  | _, _ => ""
  end.

Fixpoint str_drop (n : nat) (s : string) : string :=
  match n, s with
  | S n', String _ s' => str_drop n' s'
  | _, _ => s
  end.

(** Index of the first, respectively last, character satisfying [P]. *)
Fixpoint find_if (P : ascii → bool) (s : string) : option nat :=
  match s with
  | "" => None
  | String a s' => if P a then Some 0%nat else S <$> find_if P s'
  end.

Fixpoint rfind_if (P : ascii → bool) (s : string) : option nat :=
  match s with
  | "" => None
  | String a s' =>
      match rfind_if P s' with
      | Some i => Some (S i)
      | None => if P a then Some 0%nat else None
      end
  end.

Definition is_char (c : ascii) (a : ascii) : bool := bool_decide (a = c).
Definition not_char (c : ascii) (a : ascii) : bool := negb (is_char c a).

(** [s.find(c, pos)] *)
Definition find (s : string) (c : ascii) (pos : Z) : Z :=
  if size s <=? pos then npos
  else match find_if (is_char c) (str_drop (Z.to_nat pos) s) with
       | Some i => pos + Z.of_nat i
       | None => npos
       end.

(** [s.find(pat)], searching from position 0. *)
Fixpoint find_str_from (pat s : string) : option nat :=
  if String.prefix pat s then Some 0%nat
  else match s with
       | "" => None
       | String _ s' => S <$> find_str_from pat s'
       end.

Definition find_str (s pat : string) : Z :=
  match find_str_from pat s with
  | Some i => Z.of_nat i
  | None => npos
  end.

(** [s.find_first_not_of(c)] and [s.find_last_not_of(c)] *)
Definition find_first_not_of (s : string) (c : ascii) : Z :=
  match find_if (not_char c) s with
  | Some i => Z.of_nat i
  | None => npos
  end.

Definition find_last_not_of (s : string) (c : ascii) : Z :=
  match rfind_if (not_char c) s with
  | Some i => Z.of_nat i
  | None => npos
  end.

(** [s.substr(pos, count)]: throws when [pos > size()], clips [count]. *)
Definition substr (s : string) (pos count : Z) : result string :=
  if size s <? pos then Throw (out_of_range "basic_string::substr")
  else Ok (str_take (Z.to_nat (Z.min count (size s - pos)))
                    (str_drop (Z.to_nat pos) s)).

(** [s.pop_back()] on a non-empty string. *)
Fixpoint pop_back (s : string) : string :=
  match s with
  | "" => ""
  | String a "" => ""
  | String a s' => String a (pop_back s')
  end.

(** [std::getline(stream, line, delim)] on a string stream whose unread
    part is [s]: fails at end of input, otherwise yields the characters up
    to the delimiter (which is consumed) or to the end. *)
Fixpoint until_delim (d : ascii) (s : string) : string * string :=
  match s with
  | "" => ("", "")
  | String a s' =>
      if bool_decide (a = d) then ("", s')
      else let '(l, r) := until_delim d s' in (String a l, r)
  end.

Definition getline (d : ascii) (s : string) : option (string * string) :=
  match s with
  | "" => None
  | _ => Some (until_delim d s)
  end.

(** All the lines that successive [getline] calls yield until one fails. *)
Fixpoint getlines (d : ascii) (s : string) : list string :=
  match s with
  | "" => []
  | String a s' =>
      if bool_decide (a = d) then "" :: getlines d s'
      else match getlines d s' with
           | [] => [String a ""]
           | l :: ls => String a l :: ls
           end
  end.

(** [isspace] in the "C" locale. *)
Definition isspace (a : ascii) : bool := Ascii.is_space a.

Fixpoint skipws (s : string) : string :=
  match s with
  | String a s' => if isspace a then skipws s' else s
  | "" => ""
  end.

Fixpoint until_space (s : string) : string * string :=
  match s with
  | "" => ("", "")
  | String a s' =>
      if isspace a then ("", s)
      else let '(w, r) := until_space s' in (String a w, r)
  end.

(** [stream >> word]: skips leading white space, then reads up to the next
    white space; fails (leaving the target untouched) when nothing is left. *)
Definition read_word (s : string) : option (string * string) :=
  match skipws s with
  | "" => None
  | s' => Some (until_space s')
  end.

(** [std::stoi(s)] in base 10: leading white space, an optional sign, then
    the longest run of digits; [invalid_argument] when there is no digit,
    [out_of_range] when the value does not fit an [int]. *)
Definition digit (a : ascii) : option Z := Z.of_nat <$> Ascii.is_nat a.

Fixpoint digits_go (s : string) (acc : Z) (seen : bool) : option Z :=
  match s with
  | "" => if seen then Some acc else None
  | String a s' =>
      match digit a with
      | Some d => digits_go s' (10 * acc + d) true
      | None => if seen then Some acc else None
      end
  end.

Definition stoi (s : string) : result Z :=
  let s1 := skipws s in
  let '(neg, s2) :=
    match s1 with
    | String "-" t => (true, t)
    | String "+" t => (false, t)
    | _ => (false, s1)
    end in
  match digits_go s2 0 false with
  | None => Throw (invalid_argument "stoi")
  | Some v =>
      let v' := if neg then - v else v in
      if (v' <? INT_MIN) || (INT_MAX <? v') then Throw (out_of_range "stoi")
      else Ok v'
  end.

(** [std::to_string(n)] for a [size_t] and [os << n] for an [int]. *)
Definition to_string (n : Z) : string := pretty n.

(** The C string held in a character buffer: the bytes before the first
    NUL. *)
Fixpoint c_str (buf : string) : string :=
  match buf with
  | "" => ""
  | String a s' => if bool_decide (a = "000"%char) then "" else String a (c_str s')
  end.

End Std.

(** ** ReqRes.h / ReqRes.cpp: Request *)

Module Request.
Import Std.

Record t : Type := mk {
  method : string;
  url : string;
  protocol : string;
  host : string;
  port : Z;
  path : string;
  body : string;
  headers : gmap string string;
  query : gmap string string
}.

(** The members as the constructor finds them: strings and maps are
    default-constructed; [port] has no initialiser, every path through
    [extractUrlComponents] assigns it before it can be read. *)
Definition fresh (port0 : Z) : t :=
  mk "" "" "" "" port0 "" "" ∅ ∅.

Definition set_method (v : string) (r : t) : t :=
  mk v (url r) (protocol r) (host r) (port r) (path r) (body r) (headers r) (query r).
Definition set_url (v : string) (r : t) : t :=
  mk (method r) v (protocol r) (host r) (port r) (path r) (body r) (headers r) (query r).
Definition set_protocol (v : string) (r : t) : t :=
  mk (method r) (url r) v (host r) (port r) (path r) (body r) (headers r) (query r).
Definition set_host (v : string) (r : t) : t :=
  mk (method r) (url r) (protocol r) v (port r) (path r) (body r) (headers r) (query r).
Definition set_port (v : Z) (r : t) : t :=
  mk (method r) (url r) (protocol r) (host r) v (path r) (body r) (headers r) (query r).
Definition set_path (v : string) (r : t) : t :=
  mk (method r) (url r) (protocol r) (host r) (port r) v (body r) (headers r) (query r).
Definition set_body (v : string) (r : t) : t :=
  mk (method r) (url r) (protocol r) (host r) (port r) (path r) v (headers r) (query r).
Definition set_headers (v : gmap string string) (r : t) : t :=
  mk (method r) (url r) (protocol r) (host r) (port r) (path r) (body r) v (query r).
Definition set_query (v : gmap string string) (r : t) : t :=
  mk (method r) (url r) (protocol r) (host r) (port r) (path r) (body r) (headers r) v.

(** [Request::getHeader] and [Request::queryParam] (both [const]). *)
Definition getHeader (this : t) (key : string) : string :=
  match headers this !! key with
  | Some v => v
  | None => ""
  end.

Definition queryParam (this : t) (key : string) : string :=
  match query this !! key with
  | Some v => v
  | None => ""
  end.

(** [Request::trim] *)
Definition trim (str : string) : result string :=
  let first := find_first_not_of str " " in
  let last := find_last_not_of str " " in
  if bool_decide (first = npos) then Ok ""
  else substr str first (szadd (szsub last first) 1).

(** [Request::parseQueryParams]: one turn of the loop, then the loop. *)
Definition parseQueryPair (this : t) (pair : string) : result t :=
  let separator := find pair "=" 0 in
  if bool_decide (separator ≠ npos) then
    key ← substr pair 0 separator ≫= trim;
    value ← substr pair (szadd separator 1) npos ≫= trim;
    Ok (set_query (<[key := value]> (query this)) this)
  else Ok this.

Definition parseQueryParams (queryString : string) (this : t) : result t :=
  for_each parseQueryPair (getlines "&" queryString) this.

(** [Request::extractUrlComponents] *)
Definition extractUrlComponents (url : string) (this : t) : result t :=
  let this :=
    if bool_decide (find_str url "https://" = 0)
    then set_port 443 (set_protocol "HTTPS" this)
    else set_port 80 (set_protocol "HTTP" this) in
  let protocolEnd := find_str url "://" in
  let hostStart := if bool_decide (protocolEnd ≠ npos) then szadd protocolEnd 3 else 0 in
  let portStart := find url ":" hostStart in
  let pathStart := find url "/" hostStart in
  if bool_decide (portStart ≠ npos)
     && (bool_decide (pathStart = npos) || bool_decide (portStart < pathStart))
  then
    h ← substr url hostStart (szsub portStart hostStart);
    let this := set_host h this in
    digits ← substr url (szadd portStart 1) (szsub (szsub pathStart portStart) 1);
    p ← stoi digits;
    Ok (set_port p this)
  else if bool_decide (pathStart ≠ npos) then
    h ← substr url hostStart (szsub pathStart hostStart);
    Ok (set_host h this)
  else
    h ← substr url hostStart npos;
    Ok (set_host h this).

(** The request line: [requestLineStream >> method >> url]. A failed
    extraction leaves its target and every later one untouched. *)
Definition readRequestLine (requestLine : string) (this : t) : t :=
  match read_word requestLine with
  | None => this
  | Some (m, rest) =>
      let this := set_method m this in
      match read_word rest with
      | None => this
      | Some (u, _) => set_url u this
      end
  end.

(** Lines 100-110 of ReqRes.cpp: path and query string. *)
Definition splitPathQuery (this : t) : result t :=
  let queryPos := find (url this) "?" 0 in
  if bool_decide (queryPos ≠ npos) then
    p ← substr (url this) 0 queryPos;
    let this := set_path p this in
    queryString ← substr (url this) (szadd queryPos 1) npos;
    parseQueryParams queryString this
  else Ok (set_path (url this) this).

(** The header loop: it runs while a line can be read and is not empty,
    and returns the lines it has not consumed. *)
Definition parseHeaderLine (this : t) (headerLine : string) : result t :=
  let separator := find headerLine ":" 0 in
  if bool_decide (separator ≠ npos) then
    key ← substr headerLine 0 separator ≫= trim;
    value ← substr headerLine (szadd separator 1) npos ≫= trim;
    Ok (set_headers (<[key := value]> (headers this)) this)
  else Ok this.

Fixpoint headerLoop (lines : list string) (this : t) : result (t * list string) :=
  match lines with
  | [] => Ok (this, [])
  | headerLine :: rest =>
      if empty headerLine then Ok (this, rest)
      else this' ← parseHeaderLine this headerLine; headerLoop rest this'
  end.

(** The body loop, [body += remaining + "\n"], and the final [pop_back]. *)
Definition bodyLoop (lines : list string) (this : t) : t :=
  foldl (λ this remaining,
           set_body (body this +:+ remaining +:+ String "010" "") this)
        this lines.

Definition stripBody (this : t) : t :=
  if negb (empty (body this)) then set_body (pop_back (body this)) this
  else this.

(** [Request::parseRequest] *)
Definition parseRequest (httpRequest : string) (this : t) : result t :=
  let lines := getlines "010" httpRequest in
  let requestLine := hd "" lines in
  let this := readRequestLine requestLine this in
  this ← extractUrlComponents (url this) this;
  this ← splitPathQuery this;
  '(this, rest) ← headerLoop (tl lines) this;
  Ok (stripBody (bodyLoop rest this)).

(** [Request::Request(const std::string&)] *)
Definition new (httpRequest : string) : result t :=
  parseRequest httpRequest (fresh 0).

End Request.

(** ** ReqRes.h / ReqRes.cpp: Response *)

Module Response.
Import Std.

Record t : Type := mk {
  statusCode : Z;
  body : string;
  headers : gmap string string
}.

(** [Response::Response()] *)
Definition new : t := mk 200 "" ∅.

Definition status (code : Z) (this : t) : t :=
  mk code (body this) (headers this).

Definition setHeader (key value : string) (this : t) : t :=
  mk (statusCode this) (body this) (<[key := value]> (headers this)).

Definition set_body (b : string) (this : t) : t :=
  mk (statusCode this) b (headers this).

Definition send (responseBody : string) (this : t) : t :=
  let this := set_body responseBody this in
  let this := setHeader "Content-Length" (to_string (size (body this))) this in
  setHeader "Content-Type" "text/plain" this.

Definition json (jsonBody : string) (this : t) : t :=
  let this := set_body jsonBody this in
  let this := setHeader "Content-Length" (to_string (size (body this))) this in
  setHeader "Content-Type" "application/json" this.

(** The file system as [readFile] sees it: [fs p = None] when the file at
    [p] cannot be opened, otherwise its whole content. *)
Definition filesystem : Type := string → option string.

Definition readFile (fs : filesystem) (filePath : string) : string :=
  match fs filePath with
  | None => "File not found"
  | Some content => content
  end.

Definition sendFile (fs : filesystem) (filePath : string) (this : t) : t :=
  let this := set_body (readFile fs filePath) this in
  let this := setHeader "Content-Type" "text/html" this in
  setHeader "Content-Length" (to_string (size (body this))) this.

Definition getStatusMessage (this : t) : string :=
  match statusCode this with
  | 200 => "OK"
  | 400 => "Bad Request"
  | 404 => "Not Found"
  | 500 => "Internal Server Error"
  | _ => "Unknown Status"
  end.

Definition CRLF : string := String "013" (String "010" "").

Definition headerLine (header : string * string) : string :=
  header.1 +:+ ": " +:+ header.2 +:+ CRLF.

(** The order in which an [unordered_map] is traversed is unspecified;
    [map_to_list] stands for it, and no property below depends on which
    order it is. *)
Definition toHttpResponse (this : t) : string :=
  let response := "HTTP/1.1 " +:+ to_string (statusCode this) +:+ " "
                  +:+ getStatusMessage this +:+ CRLF in
  let response :=
    foldl (λ response header, response +:+ headerLine header)
          response (map_to_list (headers this)) in
  response +:+ CRLF +:+ body this.

End Response.

(** ** ThreadPool.h: the pool the server submits connections to *)

Module ThreadPool.

Section Pool.
Context {Task : Type}.

(** [tasks] is the FIFO queue, [stop] the stop flag, [notified] counts
    the [condition.notify_one()] calls made so far. *)
Record t : Type := mk {
  tasks : list Task;
  stop : bool;
  notified : nat
}.

(** [ThreadPool::enqueue]: under the lock, [tasks.emplace(f)]; then
    [condition.notify_one()]. The stop flag is not consulted. *)
Definition enqueue (f : Task) (this : t) : result t :=
  let this := mk (tasks this ++ [f]) (stop this) (notified this) in
  Ok (mk (tasks this) (stop this) (S (notified this))).
End Pool.
Arguments t Task : clear implicits.

End ThreadPool.

(** ** flog.h: the thread pool of the bundled logger *)

Module Flog.

Section Pool.
Context {Task : Type}.

Record t : Type := mk {
  tasks : list Task;
  stop : bool;
  notified : nat
}.

(** [flog::ThreadPool::enqueue]: under the lock it throws when [stop] is
    set, otherwise queues the task; then it notifies one worker. *)
Definition enqueue (f : Task) (this : t) : result t :=
  if stop this then Throw (runtime_error "ThreadPool is stopped.")
  else
    let this := mk (tasks this ++ [f]) (stop this) (notified this) in
    Ok (mk (tasks this) (stop this) (S (notified this))).
End Pool.
Arguments t Task : clear implicits.

End Flog.

(** ** App.h / App.cpp: the route table and the dispatcher *)

Module App.
Import Std.

(** [std::function<void(const Request&, Response&)>]: the handler reads
    the request and updates the response it is handed. *)
Abbreviation RouteHandler := (Request.t → Response.t → Response.t).

Record t : Type := mk {
  routes : gmap string RouteHandler
}.

Definition new : t := mk ∅.

(** [App::get] and [App::post]: [routes[path] = handler]. *)
Definition get (path : string) (handler : RouteHandler) (this : t) : t :=
  mk (<[path := handler]> (routes this)).


Definition BUFFER_SIZE : nat := 1024.

(** What a call of [handleRequest] ends in. *)
Inductive outcome : Type :=
  | ReadFailed
  | Uncaught (e : exn)
  | Sent (wire : string).

(** Lines 88-103 of App.cpp: the response for a parsed request. *)
Definition respond (this : t) (req : Request.t) : Response.t :=
  let res := Response.new in
  let res := Response.mk 404 (Response.body res) (Response.headers res) in
  let res :=
    match routes this !! Request.path req with
    | Some handler => handler req res
    | None => res
    end in
  if empty (Response.body res)
  then Response.send "Not Found" (Response.status 404 res)
  else res.

(** [App::handleRequest]. [received] is what [read] delivered: [None] for
    a negative return value, otherwise the bytes, of which the buffer keeps
    at most [BUFFER_SIZE]; the request text is the C string in the
    buffer. *)
Definition handleRequest (this : t) (received : option string) : outcome :=
  match received with
  | None => ReadFailed
  | Some bytes =>
      let buffer := str_take BUFFER_SIZE bytes in
      let requestStr := c_str buffer in
      match Request.new requestStr with
      | Throw e => Uncaught e
      | Ok req => Sent (Response.toHttpResponse (respond this req))
      end
  end.




End App.

(** ** The specification's vocabulary

    Definitions that follow the wording of the specification; the theorems
    below compare them with the code above. *)

Module Spec.

(** "splits on the first [c]": the text before and the text after the
    first occurrence of [c], if there is one. *)
Fixpoint split_first (c : ascii) (s : string) : option (string * string) :=
  match s with
  | "" => None
  | String a s' =>
      if bool_decide (a = c) then Some ("", s')
      else match split_first c s' with
           | Some (b, r) => Some (String a b, r)
           | None => None
           end
  end.

(** "splits on [d]": the fields between the delimiters; [n] delimiters
    make [n + 1] fields. *)
Fixpoint fields (d : ascii) (s : string) : list string :=
  match s with
  | "" => [""]
  | String a s' =>
      if bool_decide (a = d) then "" :: fields d s'
      else match fields d s' with
           | [] => [String a ""]
           | l :: ls => String a l :: ls
           end
  end.

(** "trimmed of surrounding spaces" *)
Fixpoint lstrip (s : string) : string :=
  match s with
  | String a s' => if bool_decide (a = " "%char) then lstrip s' else s
  | "" => ""
  end.

Fixpoint rstrip (s : string) : string :=
  match s with
  | "" => ""
  | String a s' =>
      match rstrip s' with
      | "" => if bool_decide (a = " "%char) then "" else String a ""
      | t => String a t
      end
  end.

Definition strip (s : string) : string := rstrip (lstrip s).

(** An item [key c value], both sides trimmed; [None] without a [c]. *)
Definition key_value (c : ascii) (item : string) : option (string * string) :=
  match split_first c item with
  | Some (k, v) => Some (strip k, strip v)
  | None => None
  end.

Definition insert_item (c : ascii) (m : gmap string string) (item : string)
  : gmap string string :=
  match key_value c item with
  | Some (k, v) => <[k := v]> m
  | None => m
  end.

(** Inserting the items in order: a later item overwrites an earlier one
    with the same key. *)
Definition collect (c : ascii) (m : gmap string string) (items : list string)
  : gmap string string :=
  foldl (insert_item c) m items.

(** "URL splits on the first [?] into path and a query string; absent
    [?], the query is empty and the path is the whole URL." *)
Definition path_query (url : string) : string * gmap string string :=
  match split_first "?" url with
  | Some (p, qs) => (p, collect "=" ∅ (fields "&" qs))
  | None => (url, ∅)
  end.

(** The lines of a text: the text cut at each newline; what follows the
    last newline is a line only when it is not empty. *)
Definition without_empty_end (fs : list string) : list string :=
  match last fs with
  | Some "" => removelast fs
  | _ => fs
  end.

Definition lines (s : string) : list string :=
  without_empty_end (fields "010" s).

(** The lines before the first blank line, and the lines after it. *)
Fixpoint upto_blank (ls : list string) : list string :=
  match ls with
  | [] => []
  | l :: ls' => if bool_decide (l = "") then [] else l :: upto_blank ls'
  end.

Fixpoint after_blank (ls : list string) : list string :=
  match ls with
  | [] => []
  | l :: ls' => if bool_decide (l = "") then ls' else after_blank ls'
  end.

(** Lines after the request line up to the first blank line, and the lines
    after that blank line. *)
Definition header_lines (ls : list string) : list string :=
  upto_blank (tail ls).

Definition body_lines (ls : list string) : list string :=
  after_blank (tail ls).

(** "joined with newlines" *)
Fixpoint join (sep : string) (ls : list string) : string :=
  match ls with
  | [] => ""
  | [l] => l
  | l :: ls' => l +:+ sep +:+ join sep ls'
  end.

(** Every line followed by a newline, and the removal of one trailing
    newline. *)
Fixpoint terminated (ls : list string) : string :=
  match ls with
  | [] => ""
  | l :: ls' => l +:+ String "010" (terminated ls')
  end.


(** The URL after its scheme separator ["://"], or the whole URL. *)
Definition after_scheme (url : string) : string :=
  match Std.find_str_from "://" url with
  | Some i => Std.str_drop (i + 3) url
  | None => url
  end.

Definition host_char (a : ascii) : bool :=
  negb (bool_decide (a = ":"%char)) && negb (bool_decide (a = "/"%char)).

Fixpoint take_chars (P : ascii → bool) (s : string) : string :=
  match s with
  | String a s' => if P a then String a (take_chars P s') else ""
  | "" => ""
  end.

Fixpoint drop_chars (P : ascii → bool) (s : string) : string :=
  match s with
  | String a s' => if P a then drop_chars P s' else s
  | "" => ""
  end.

(** The host: from the scheme separator (or position 0) up to whichever of
    [':'] and ['/'] comes first, or to the end. *)
Definition host (url : string) : string :=
  take_chars host_char (after_scheme url).

(** The text between a colon that comes before the first slash and that
    slash (or the end); [None] when no colon comes before the first slash. *)
Definition port_text (url : string) : option string :=
  match drop_chars host_char (after_scheme url) with
  | String ":" rest => Some (take_chars (Std.not_char "/") rest)
  | _ => None
  end.

Definition https (url : string) : bool := String.prefix "https://" url.
Definition default_protocol (url : string) : string :=
  if https url then "HTTPS" else "HTTP".
Definition default_port (url : string) : Z :=
  if https url then 443 else 80.

(** "the digits after it": the leading run of decimal digits of a text,
    and the number a string of decimal digits denotes. *)
Definition isdigit (a : ascii) : bool := bool_decide (is_Some (Std.digit a)).

Definition leading_digits (s : string) : string := take_chars isdigit s.

Fixpoint decimal (s : string) : Z :=
  match s with
  | "" => 0
  | String a s' =>
      default 0 (Std.digit a) * 10 ^ Z.of_nat (String.length s') + decimal s'
  end.


(** The reason phrase of a status code. *)
Definition reason (code : Z) : string :=
  if decide (code = 200) then "OK"
  else if decide (code = 400) then "Bad Request"
  else if decide (code = 404) then "Not Found"
  else if decide (code = 500) then "Internal Server Error"
  else "Unknown Status".

(** "each header as [Key: Value] terminated by CRLF" *)
Fixpoint header_block (hs : list (string * string)) : string :=
  match hs with
  | [] => ""
  | h :: hs' => (h.1 +:+ ": " +:+ h.2 +:+ Response.CRLF) +:+ header_block hs'
  end.

(** Status line, headers, blank line, body. *)
Definition serialize (code : Z) (hs : list (string * string)) (body : string)
  : string :=
  ("HTTP/1.1 " +:+ Std.to_string code +:+ " " +:+ reason code +:+ Response.CRLF)
  +:+ header_block hs +:+ Response.CRLF +:+ body.

(** "contains": [sub] occurs in [s]. *)
Definition contains (s sub : string) : Prop :=
  ∃ before after : string, s = before +:+ sub +:+ after.

End Spec.

(** ** Sample inputs *)

(** A request whose URL has a colon followed by text that is not a number. *)
Definition bad_port_request : string :=
  "GET localhost:abc/ HTTP/1.1" +:+ Response.CRLF +:+ "Host: localhost"
  +:+ Response.CRLF +:+ Response.CRLF.


(** A request with a repeated header, a line without a colon and a body. *)
Definition sample_request : string :=
  "POST /submit HTTP/1.1" +:+ String "010" "Host: a" +:+ String "010" "no colon here"
  +:+ String "010" "Host:  b " +:+ String "010" "" +:+ String "010" "line one"
  +:+ String "010" "line two" +:+ String "010" "".

(** Two handlers. *)
Definition hello_handler : App.RouteHandler := λ _ res, Response.send "Hello" res.

(** ** tester/main.cpp: the sample application *)

Module Tester.

(** The handlers of [main]: each one only fills the response (the log calls
    of the [/hello] handler do not touch it). *)
Definition index_handler (fs : Response.filesystem) : App.RouteHandler :=
  λ _ res, Response.sendFile fs "index.html" res.

Definition hello_handler : App.RouteHandler :=
  λ _ res, Response.send "Hello, World!" res.

Definition goodbye_handler : App.RouteHandler :=
  λ _ res, Response.send "Goodbye, World!" res.

(** The application [main] has built when it calls [listen]. *)
Definition app (fs : Response.filesystem) : App.t :=
  App.get "/goodbye" goodbye_handler
    (App.get "/hello" hello_handler
       (App.get "/" (index_handler fs) App.new)).

End Tester.

(** ** Vocabulary of the further properties *)

Module Props.

(** The [Content-Length] header states the length of the body. *)
Definition content_length_ok (r : Response.t) : Prop :=
  Response.headers r !! "Content-Length"
  = Some (Std.to_string (Std.size (Response.body r))).

(** [n] spaces. *)
Fixpoint spaces (n : nat) : string :=
  match n with
  | O => ""
  | S n' => String " " (spaces n')
  end.

Definition first_char (s : string) : option ascii :=
  match s with
  | "" => None
  | String a _ => Some a
  end.

Fixpoint last_char (s : string) : option ascii :=
  match s with
  | "" => None
  | String a "" => Some a
  | String _ s' => last_char s'
  end.

(** No character of [s] satisfies [P]. *)
Definition free_of (P : ascii → bool) (s : string) : Prop :=
  Std.find_if P s = None.

(** Neither the first nor the last character is a space. *)
Definition trimmed (s : string) : Prop :=
  first_char s ≠ Some " "%char ∧ last_char s ≠ Some " "%char.

End Props.

(** ** Writing a request down *)

Module Wire.

(** A header as the line [key: value]. *)
Definition header_line (h : string * string) : string :=
  h.1 +:+ ": " +:+ h.2.

(** The text of a request with newline line ends: the request line, one
    line per header, an empty line, the body. *)
Definition request (method url : string) (hs : list (string * string))
    (body : string) : string :=
  (method +:+ " " +:+ url +:+ " HTTP/1.1") +:+ String "010"
    (Spec.terminated (header_line <$> hs) +:+ String "010" body).

(** A header that survives parsing unchanged: no [':'] in the key, no
    newline in key or value, no space at either end of key or value. *)
Definition clean_header (h : string * string) : Prop :=
  Props.free_of (Std.is_char ":") h.1
  ∧ Props.free_of (Std.is_char "010") h.1
  ∧ Props.free_of (Std.is_char "010") h.2
  ∧ Props.trimmed h.1 ∧ Props.trimmed h.2.

(** A word: not empty and without white space. *)
Definition word (w : string) : Prop :=
  w ≠ "" ∧ Props.free_of Std.isspace w.

End Wire.

(** ** flog.h: the worker loop and the destructor of the logger's pool *)

Module FlogPool.

Section Pool.
Context {Task : Type}.

(** [ThreadPool(threadCount)]: nothing queued, [stop] false. *)
Definition new : Flog.t Task := Flog.mk [] false 0.

(** One turn of a worker's loop, inside the critical section: the worker
    waits while [stop || !tasks.empty()] is false; when it wakes it returns
    if the pool is stopped and the queue empty, otherwise it takes the task at
    the front (and runs it after it has released the lock). *)
Inductive turn : Type :=
  | Waits
  | Exits
  | Takes (task : Task) (pool : Flog.t Task).

Definition worker_turn (this : Flog.t Task) : turn :=
  if Flog.stop this || negb (bool_decide (Flog.tasks this = [])) then
    if Flog.stop this && bool_decide (Flog.tasks this = []) then Exits
    else match Flog.tasks this with
         | task :: rest => Takes task (Flog.mk rest (Flog.stop this) (Flog.notified this))
         | [] => Waits
         end
  else Waits.

(** [~ThreadPool()], up to the joins: [stop = true] under the lock. *)
Definition shutdown (this : Flog.t Task) : Flog.t Task :=
  Flog.mk (Flog.tasks this) true (Flog.notified this).

(** What threads do to the pool, one critical section at a time. *)
Inductive op : Type :=
  | Enqueue (f : Task)
  | Turn
  | Shutdown.

(** The pool together with a record of the run: the tasks [enqueue] has
    accepted and the tasks workers have taken, both in order. *)
Record run : Type := mkRun {
  pool : Flog.t Task;
  accepted : list Task;
  taken : list Task
}.

Definition start : run := mkRun new [] [].

Definition step (st : run) (o : op) : run :=
  match o with
  | Enqueue f =>
      match Flog.enqueue f (pool st) with
      | Ok pool' => mkRun pool' (accepted st ++ [f]) (taken st)
      | Throw _ => st
      end
  | Turn =>
      match worker_turn (pool st) with
      | Takes task pool' => mkRun pool' (accepted st) (taken st ++ [task])
      | Waits | Exits => st
      end
  | Shutdown => mkRun (shutdown (pool st)) (accepted st) (taken st)
  end.

Definition exec (ops : list op) (st : run) : run := foldl step st ops.

(** The tasks submitted before the first [Shutdown] of a run. *)
Fixpoint submitted_before_shutdown (ops : list op) : list Task :=
  match ops with
  | [] => []
  | Enqueue f :: ops' => f :: submitted_before_shutdown ops'
  | Turn :: ops' => submitted_before_shutdown ops'
  | Shutdown :: _ => []
  end.

End Pool.
Arguments turn Task : clear implicits.
Arguments op Task : clear implicits.
Arguments run Task : clear implicits.

End FlogPool.

(** ** App.cpp: sockets *)

Module Net.

(** What the server does to the outside, in order. *)
Inductive event : Type :=
  | EvSocket
  | EvSetsockopt (fd : Z)
  | EvBind (fd : Z) (port : Z)
  | EvListen (fd : Z) (backlog : Z)
  | EvAccept (fd : Z)
  | EvRead (fd : Z)
  | EvSend (fd : Z) (bytes : string)
  | EvClose (fd : Z)
  | EvStderr (msg : string)
  | EvOnStart.

#[global] Instance event_eq_dec : EqDecision event.
Proof. solve_decision. Defined.

(** A message and its newline. *)
Definition line (msg : string) : string := msg +:+ String "010" "".

(** The return values of the system calls of the set-up. *)
Record os : Type := mkOs {
  socket_ret : Z;
  setsockopt_ret : Z;
  bind_ret : Z;
  listen_ret : Z
}.

(** [htons] takes a [uint16_t]. *)
Definition htons_arg (port : Z) : Z := port mod 2 ^ 16.

(** [App::createServerSocket]: the descriptor it stored and what it did. *)
Definition createServerSocket (o : os) : bool * Z * list event :=
  let serverSocket := socket_ret o in
  if serverSocket <? 0
  then (false, serverSocket, [EvSocket; EvStderr (line "Could not create socket")])
  else (true, serverSocket, [EvSocket]).

(** [App::configureServerSocket] *)
Definition configureServerSocket (o : os) (serverSocket : Z) : bool * list event :=
  if setsockopt_ret o <? 0
  then (false, [EvSetsockopt serverSocket; EvStderr (line "Could not set socket options");
                EvClose serverSocket])
  else (true, [EvSetsockopt serverSocket]).

(** [App::bindServerSocket] *)
Definition bindServerSocket (o : os) (serverSocket port : Z) : bool * list event :=
  if bind_ret o <? 0
  then (false, [EvBind serverSocket (htons_arg port); EvStderr (line "Bind failed");
                EvClose serverSocket])
  else (true, [EvBind serverSocket (htons_arg port)]).

(** [App::listen] up to the accept loop: whether the loop is entered, the
    server socket, and what was done. [onStart] tells whether a callback was
    given. The three set-up calls are joined by [||], so a later one runs
    only when the earlier ones succeeded. *)
Definition listen_setup (o : os) (port : Z) (onStart : bool)
  : bool * Z * list event :=
  let '(created, serverSocket, t1) := createServerSocket o in
  let failed := [EvStderr (line "Failed to initialize server socket")] in
  if negb created then (false, serverSocket, t1 ++ failed) else
  let '(configured, t2) := configureServerSocket o serverSocket in
  if negb configured then (false, serverSocket, t1 ++ t2 ++ failed) else
  let '(bound, t3) := bindServerSocket o serverSocket port in
  if negb bound then (false, serverSocket, t1 ++ t2 ++ t3 ++ failed) else
  if listen_ret o <? 0
  then (false, serverSocket,
        t1 ++ t2 ++ t3 ++ [EvListen serverSocket 5; EvStderr (line "Listen failed");
                           EvClose serverSocket])
  else (true, serverSocket,
        t1 ++ t2 ++ t3 ++ [EvListen serverSocket 5]
        ++ (if onStart then [EvOnStart] else [])).

(** The first iterations of the accept loop, one per return value of
    [accept]: a connection is handed to the pool as the task that will call
    [handleRequest] on it, a failed [accept] is passed over. The loop has no
    exit. *)
Definition accept_turn (serverSocket : Z)
    (st : ThreadPool.t Z * list event) (clientSocket : Z)
  : result (ThreadPool.t Z * list event) :=
  let '(pool, trace) := st in
  let trace := trace ++ [EvAccept serverSocket] in
  if 0 <=? clientSocket
  then pool' ← ThreadPool.enqueue clientSocket pool; Ok (pool', trace)
  else Ok (pool, trace).

Definition accept_loop (serverSocket : Z) (accepts : list Z) (pool : ThreadPool.t Z)
  : result (ThreadPool.t Z * list event) :=
  for_each (accept_turn serverSocket) accepts (pool, []).

(** How often [fd] is closed in a trace. *)
Definition closes (fd : Z) (trace : list event) : nat :=
  length (filter (λ e, e = EvClose fd) trace).

(** [App::handleRequest] with what it does to the client socket. When the
    constructor of [Request] throws, the exception leaves the function. *)
Definition handleRequest (this : App.t) (clientSocket : Z) (received : option string)
  : list event * option exn :=
  match received with
  | None => ([EvRead clientSocket; EvStderr (line "Read failed"); EvClose clientSocket], None)
  | Some bytes =>
      let buffer := Std.str_take App.BUFFER_SIZE bytes in
      let requestStr := Std.c_str buffer in
      match Request.new requestStr with
      | Throw e => ([EvRead clientSocket], Some e)
      | Ok req =>
          let res := App.respond this req in
          ([EvRead clientSocket;
            EvSend clientSocket (Response.toHttpResponse res);
            EvClose clientSocket], None)
      end
  end.

End Net.

(** ** ff.h: the formatter behind the logger, for arguments of an integral
    type of [bits] bits *)

Module Ff.

(** [std::bitset<n>(value).to_string()]: the [n] low bits of [value], the
    most significant first. *)
Fixpoint bitset_to_string (n : nat) (value : Z) : string :=
  match n with
  | O => ""
  | S n' => String (if Z.testbit value (Z.of_nat n') then "1" else "0")%char
                   (bitset_to_string n' value)
  end.

Definition format_binary (bits : nat) (value : Z) : result string :=
  let binary_str := bitset_to_string bits value in
  let first_one_pos := Std.find binary_str "1" 0 in
  if bool_decide (first_one_pos = Std.npos) then Ok "0"
  else Std.substr binary_str first_one_pos Std.npos.

Inductive IntegerFormatSpec : Type :=
  | Decimal
  | HexadecimalLower
  | HexadecimalUpper
  | Octal
  | Binary.

Definition parse_integer_format_spec (format_spec : string) : IntegerFormatSpec :=
  if bool_decide (format_spec = "x") then HexadecimalLower
  else if bool_decide (format_spec = "X") then HexadecimalUpper
  else if bool_decide (format_spec = "o") then Octal
  else if bool_decide (format_spec = "b") then Binary
  else Decimal.

(** [formatStr[i]] *)
Definition at_index (s : string) (i : Z) : option ascii :=
  String.get (Z.to_nat i) s.

(** The loop of [count_placeholders]; [None] is the failed assertion.  The
    index grows in every iteration, so [size formatStr] iterations are
    enough. *)
Fixpoint count_loop (fuel : nat) (formatStr : string) (i count : Z) : option Z :=
  match fuel with
  | O => Some count
  | S fuel' =>
      if bool_decide (i < Std.size formatStr) then
        if bool_decide (at_index formatStr i = Some "{"%char) then
          let close_pos := Std.find formatStr "}" i in
          if bool_decide (close_pos = Std.npos) then None
          else count_loop fuel' formatStr (Std.szadd close_pos 1) (Std.szadd count 1)
        else count_loop fuel' formatStr (Std.szadd i 1) count
      else Some count
  end.

Definition count_placeholders (formatStr : string) : option Z :=
  count_loop (String.length formatStr) formatStr 0 0.

(** [os << std::hex << value] and [os << std::oct << value]: the digits of
    the value read as an unsigned number of [bits] bits. *)
Definition digit_char (upper : bool) (d : Z) : ascii :=
  ascii_of_nat (Z.to_nat (if d <? 10 then 48 + d
                          else (if upper then 55 else 87) + d)).

Fixpoint put_digits (fuel : nat) (base : Z) (upper : bool) (n : Z) (acc : string)
  : string :=
  match fuel with
  | O => acc
  | S fuel' =>
      let acc' := String (digit_char upper (n mod base)) acc in
      if n / base =? 0 then acc' else put_digits fuel' base upper (n / base) acc'
  end.

Definition put_unsigned (bits : nat) (base : Z) (upper : bool) (value : Z) : string :=
  put_digits (S bits) base upper (value mod 2 ^ Z.of_nat bits) "".

Definition format_integer (bits : nat) (value : Z) (format_spec : IntegerFormatSpec)
  : result string :=
  match format_spec with
  | HexadecimalLower => Ok ("0x" +:+ put_unsigned bits 16 false value)
  | HexadecimalUpper => Ok ("0x" +:+ put_unsigned bits 16 true value)
  | Octal => Ok ("0o" +:+ put_unsigned bits 8 false value)
  | Binary => b ← format_binary bits value; Ok ("0b" +:+ b)
  | Decimal => Ok (Std.to_string value)
  end.

Definition apply_format (bits : nat) (value : Z) (format_spec : string)
  : result string :=
  format_integer bits value (parse_integer_format_spec format_spec).

(** [get_arg_by_index(index, first, rest...)]: the recursion over the
    parameter pack ends at its last argument, whatever the index. *)
Fixpoint get_arg_by_index (index : Z) (first : Z) (rest : list Z) : Z :=
  match rest with
  | [] => first
  | second :: rest' =>
      if bool_decide (index = 0) then first
      else get_arg_by_index (Std.szsub index 1) second rest'
  end.

Definition isdigit (a : ascii) : bool :=
  match Ascii.is_nat a with
  | Some _ => true
  | None => false
  end.

Fixpoint all_of (P : ascii → bool) (s : string) : bool :=
  match s with
  | "" => true
  | String a s' => P a && all_of P s'
  end.

(** The local variables of [format] that live across iterations. *)
Record vars : Type := mkVars {
  oss : string;
  last_pos : Z;
  placeholder_index : Z;
}.

(** What one placeholder writes: the part of the loop body after
    [format_spec] has been cut out of the format string. *)
Definition placeholder (bits : nat) (format_spec : string) (placeholder_index : Z)
    (first : Z) (rest : list Z) : result string :=
  let index := placeholder_index in
  let colon_pos := Std.find format_spec ":" 0 in
  if bool_decide (colon_pos ≠ Std.npos) then
    argument ← Std.substr format_spec 0 colon_pos;
    specifier ← Std.substr format_spec (Std.szadd colon_pos 1) Std.npos;
    index ← (if negb (Std.empty argument) && all_of isdigit argument
             then Std.stoi argument else Ok index);
    apply_format bits (get_arg_by_index index first rest) specifier
  else
    index ← (if negb (Std.empty format_spec) && all_of isdigit format_spec
             then Std.stoi format_spec else Ok index);
    apply_format bits (get_arg_by_index index first rest) format_spec.

(** One iteration of the loop of [format]; [None] is [break]. *)
Definition format_step (bits : nat) (formatStr : string) (first : Z) (rest : list Z)
    (v : vars) : result (option vars) :=
  let pos := Std.find formatStr "{" (last_pos v) in
  if bool_decide (pos = Std.npos) then Ok None
  else
    text ← Std.substr formatStr (last_pos v) (Std.szsub pos (last_pos v));
    let close_pos := Std.find formatStr "}" pos in
    format_spec ← Std.substr formatStr (Std.szadd pos 1)
                    (Std.szsub (Std.szsub close_pos pos) 1);
    written ← placeholder bits format_spec (placeholder_index v) first rest;
    Ok (Some {| oss := oss v +:+ text +:+ written;
                last_pos := Std.szadd close_pos 1;
                placeholder_index := Std.szadd (placeholder_index v) 1 |}).

Fixpoint format_loop (n : nat) (bits : nat) (formatStr : string) (first : Z)
    (rest : list Z) (v : vars) : result vars :=
  match n with
  | O => Ok v
  | S n' =>
      r ← format_step bits formatStr first rest v;
      match r with
      | None => Ok v
      | Some v' => format_loop n' bits formatStr first rest v'
      end
  end.

(** [ff::format(formatStr, first, rest...)]; [None] is the failed assertion
    of [count_placeholders]. *)
Definition format (bits : nat) (formatStr : string) (first : Z) (rest : list Z)
  : option (result string) :=
  match count_placeholders formatStr with
  | None => None
  | Some num_placeholders =>
      Some (v ← format_loop (Z.to_nat num_placeholders) bits formatStr first rest
                   {| oss := ""; last_pos := 0; placeholder_index := 0 |};
            tail ← Std.substr formatStr (last_pos v) Std.npos;
            Ok (oss v +:+ tail))
  end.

End Ff.

(** ** What the formatter is expected to do *)

Module FfSpec.

(** The number that a string of binary digits denotes. *)
Fixpoint binary_value (s : string) : Z :=
  match s with
  | "" => 0
  | String a s' =>
      (if bool_decide (a = "1"%char) then 2 ^ Z.of_nat (String.length s') else 0)
      + binary_value s'
  end.

Definition not_bit (a : ascii) : bool :=
  negb (bool_decide (a = "0"%char) || bool_decide (a = "1"%char)).

(** Some ['{'] of [s] has no ['}'] after it. *)
Fixpoint unmatched (s : string) : bool :=
  match s with
  | "" => false
  | String a s' =>
      (Std.is_char "{" a && bool_decide (Std.find_if (Std.is_char "}") s' = None))
      || unmatched s'
  end.

(** The number of placeholders of a format string: a placeholder runs from
    a ['{'] to the next ['}']. *)
Fixpoint placeholders (inside : bool) (s : string) : Z :=
  match s with
  | "" => 0
  | String a s' =>
      if inside then placeholders (negb (Std.is_char "}" a)) s'
      else if Std.is_char "{" a then 1 + placeholders true s'
      else placeholders false s'
  end.







End FfSpec.

(** ** flog.h: the logger

    The streams are seen through the calls made on them ([io]); the clock
    readings ([stamp], the text [std::put_time] yields, and [now], the
    [time_t] value) and the answer of [is_open()] are inputs.  [ff::format]
    is compiled with its assertion on (the build does not define
    [NDEBUG]). *)

Module Logger.

Inductive Level : Type := TRACE | DEBUG | INFO | WARN | ERROR | CRITICAL.

Inductive Color : Type :=
  | RESET | BLACK | RED | GREEN | YELLOW | BLUE | MAGENTA | CYAN | WHITE.

Definition color_value (color : Color) : Z :=
  match color with
  | RESET => 0
  | BLACK => 30
  | RED => 31
  | GREEN => 32
  | YELLOW => 33
  | BLUE => 34
  | MAGENTA => 35
  | CYAN => 36
  | WHITE => 37
  end.

Definition levelToString (level : Level) : string :=
  match level with
  | TRACE => "TRACE"
  | DEBUG => "DEBUG"
  | INFO => "INFO"
  | WARN => "WARN"
  | ERROR => "ERROR"
  | CRITICAL => "CRITICAL"
  end.

(** ["\033[" + std::to_string(n) + "m"] *)
Definition escape (n : Z) : string :=
  String "027" "[" +:+ Std.to_string n +:+ "m".

Definition getColorCode (level : Level) : string :=
  match level with
  | TRACE => escape (color_value CYAN)
  | DEBUG => escape (color_value BLUE)
  | INFO => escape (color_value GREEN)
  | WARN => escape (color_value YELLOW)
  | ERROR => escape (color_value RED)
  | CRITICAL => escape (color_value MAGENTA)
  end.

(** The overload [getColorCode(Color)]. *)
Definition getColorCode_of (color : Color) : string := escape (color_value color).

(** The closures the logger hands to its pool. *)
Inductive job : Type :=
  | LogJob (level : Level) (formattedMessage : string)
  | FlushJob
  | PeriodicJob.

Inductive stream : Type := OutStream | LogFile | Cerr.

Definition same_stream (a b : stream) : bool :=
  match a, b with
  | OutStream, OutStream | LogFile, LogFile | Cerr, Cerr => true
  | _, _ => false
  end.

Inductive io : Type :=
  | Put (to : stream) (text : string)
  | Flush (to : stream)
  | Open (filename : string)
  | Close.

(** [to << std::endl] *)
Definition endl (to : stream) : list io := [Put to (String "010" ""); Flush to].

(** The fields of a [Logger]; [threadPool] tells whether the pointer is
    set. *)
Record t : Type := mk {
  name : string;
  isAsync : bool;
  threadPool : bool;
  backtraceThreshold : Z;
  messageCount : Z;
  isFileLogging : bool;
  currentFileSize : Z;
  fileFlushThreshold : Z;
  periodicFlushInterval : Z
}.

(** A logger, the pool its pointer refers to, and the stream calls made so
    far. *)
Record world : Type := mkWorld {
  this : t;
  pool : Flog.t job;
  trace : list io
}.

(** [Logger(name, outStream)] *)
Definition new (name : string) : t :=
  mk name false false 32 0 false 0 (1024 * 1024) 5.

Definition set_async (isAsync threadPool : bool) (l : t) : t :=
  mk (name l) isAsync threadPool (backtraceThreshold l) (messageCount l)
     (isFileLogging l) (currentFileSize l) (fileFlushThreshold l)
     (periodicFlushInterval l).

Definition set_backtraceThreshold (threshold : Z) (l : t) : t :=
  mk (name l) (isAsync l) (threadPool l) threshold (messageCount l)
     (isFileLogging l) (currentFileSize l) (fileFlushThreshold l)
     (periodicFlushInterval l).

Definition set_messageCount (n : Z) (l : t) : t :=
  mk (name l) (isAsync l) (threadPool l) (backtraceThreshold l) n
     (isFileLogging l) (currentFileSize l) (fileFlushThreshold l)
     (periodicFlushInterval l).

Definition set_isFileLogging (b : bool) (l : t) : t :=
  mk (name l) (isAsync l) (threadPool l) (backtraceThreshold l) (messageCount l)
     b (currentFileSize l) (fileFlushThreshold l) (periodicFlushInterval l).

Definition set_currentFileSize (n : Z) (l : t) : t :=
  mk (name l) (isAsync l) (threadPool l) (backtraceThreshold l) (messageCount l)
     (isFileLogging l) n (fileFlushThreshold l) (periodicFlushInterval l).

Definition set_fileFlushThreshold (n : Z) (l : t) : t :=
  mk (name l) (isAsync l) (threadPool l) (backtraceThreshold l) (messageCount l)
     (isFileLogging l) (currentFileSize l) n (periodicFlushInterval l).

Definition set_periodicFlushInterval (n : Z) (l : t) : t :=
  mk (name l) (isAsync l) (threadPool l) (backtraceThreshold l) (messageCount l)
     (isFileLogging l) (currentFileSize l) (fileFlushThreshold l) n.

Definition update (f : t → t) (w : world) : world :=
  mkWorld (f (this w)) (pool w) (trace w).

Definition calls (evs : list io) (w : world) : world :=
  mkWorld (this w) (pool w) (trace w ++ evs).

(** [threadPool->enqueue(task)]: the second component is the exception
    that leaves the call, if any. *)
Definition submit (task : job) (w : world) : world * option exn :=
  match Flog.enqueue task (pool w) with
  | Ok pool' => (mkWorld (this w) pool' (trace w), None)
  | Throw e => (w, Some e)
  end.

Definition enableAsync (w : world) : world := update (set_async true true) w.

Definition enableFileLogging (filename : string) (rotationSize : Z) (is_open : bool)
    (w : world) : world :=
  let w := update (set_isFileLogging true) w in
  let w := calls [Open filename] w in
  let w :=
    if negb is_open then
      let w := calls ([Put Cerr "Failed to open log file: "; Put Cerr filename]
                      ++ endl Cerr) w in
      update (set_isFileLogging false) w
    else w in
  update (set_fileFlushThreshold rotationSize) w.

Definition setFileRotationSize (size : Z) (w : world) : world :=
  update (set_fileFlushThreshold size) w.

Definition setBacktraceThreshold (threshold : Z) (w : world) : world :=
  update (set_backtraceThreshold threshold) w.

Definition flush (w : world) : world * option exn :=
  if isAsync (this w) && threadPool (this w) then submit FlushJob w
  else (calls [Flush LogFile; Flush OutStream] w, None).

Definition startPeriodicFlush (w : world) : world * option exn :=
  if isAsync (this w) && threadPool (this w) then submit PeriodicJob w
  else (w, None).

Definition setPeriodicFlush (interval : Z) (w : world) : world * option exn :=
  startPeriodicFlush (update (set_periodicFlushInterval interval) w).

Definition rotateLogFile (now : Z) (w : world) : world :=
  let w := calls [Close] w in
  let w := calls [Open ("log_" +:+ Std.to_string now +:+ ".txt")] w in
  update (set_currentFileSize 0) w.

Definition formatMessage (stamp : string) (level : Level) (message : string) : string :=
  "[" +:+ stamp +:+ "]" +:+ "[" +:+ levelToString level +:+ "] " +:+ message.

(** [stream << getColorCode(level) << formattedMessage
           << getColorCode(Color::RESET) << std::endl] *)
Definition put_line (to : stream) (level : Level) (formattedMessage : string) : list io :=
  [Put to (getColorCode level); Put to formattedMessage;
   Put to (getColorCode_of RESET)] ++ endl to.

Definition logToStream (now : Z) (level : Level) (formattedMessage : string)
    (w : world) : world * option exn :=
  let w :=
    if isFileLogging (this w) then
      let w :=
        if bool_decide (fileFlushThreshold (this w) ≤ currentFileSize (this w))
        then rotateLogFile now w else w in
      let w := calls (put_line LogFile level formattedMessage) w in
      update (set_currentFileSize
                (Std.szadd (currentFileSize (this w)) (Std.size formattedMessage))) w
    else w in
  let w := calls (put_line OutStream level formattedMessage) w in
  let w := update (set_messageCount (Std.szadd (messageCount (this w)) 1)) w in
  if bool_decide (backtraceThreshold (this w) ≤ messageCount (this w)) then
    match flush w with
    | (w, None) => (update (set_messageCount 0) w, None)
    | (w, Some e) => (w, Some e)
    end
  else (w, None).

(** [log(level, message, args...)] with arguments of an integral type of
    [bits] bits; [None] is the failed assertion of [ff::format]. *)
Definition log (bits : nat) (stamp : string) (now : Z) (level : Level)
    (message : string) (args : list Z) (w : world) : option (world * option exn) :=
  let formattedMessage := formatMessage stamp level message in
  let formatted :=
    match args with
    | [] => Some (Ok formattedMessage)
    | first :: rest => Ff.format bits (Std.c_str formattedMessage) first rest
    end in
  match formatted with
  | None => None
  | Some (Throw e) => Some (w, Some e)
  | Some (Ok formattedMessage) =>
      Some (if isAsync (this w) && threadPool (this w)
            then submit (LogJob level formattedMessage) w
            else logToStream now level formattedMessage w)
  end.

(** What a worker does with a task of the logger; one round of the loop
    of the periodic task is [flush]. *)
Definition run_job (now : Z) (task : job) (w : world) : world * option exn :=
  match task with
  | LogJob level formattedMessage => logToStream now level formattedMessage w
  | FlushJob => (calls [Flush LogFile; Flush OutStream] w, None)
  | PeriodicJob => flush w
  end.

End Logger.

(** ** What the logger is observed to do *)

Module LoggerSpec.

(** One call of [log]. *)
Record call : Type := mkCall {
  stamp : string;
  now : Z;
  level : Logger.Level;
  message : string;
  args : list Z
}.

(** The calls made one after the other by one caller, which stops at the
    first call that does not return. *)
Fixpoint run (bits : nat) (cs : list call) (w : Logger.world)
  : option (Logger.world * option exn) :=
  match cs with
  | [] => Some (w, None)
  | c :: cs' =>
      match Logger.log bits (stamp c) (now c) (level c) (message c) (args c) w with
      | Some (w', None) => run bits cs' w'
      | stopped => stopped
      end
  end.

(** The characters written to a stream, and the number of times it was
    flushed. *)
Fixpoint text_of (to : Logger.stream) (evs : list Logger.io) : string :=
  match evs with
  | [] => ""
  | Logger.Put to' text :: evs' =>
      if Logger.same_stream to to' then text +:+ text_of to evs'
      else text_of to evs'
  | _ :: evs' => text_of to evs'
  end.

Fixpoint flushes_of (to : Logger.stream) (evs : list Logger.io) : Z :=
  match evs with
  | [] => 0
  | Logger.Flush to' :: evs' =>
      if Logger.same_stream to to' then 1 + flushes_of to evs'
      else flushes_of to evs'
  | _ :: evs' => flushes_of to evs'
  end.

(** The line a message makes on a stream. *)
Definition line (c : call) : string :=
  Logger.getColorCode (level c)
  +:+ Logger.formatMessage (stamp c) (level c) (message c)
  +:+ Logger.getColorCode_of Logger.RESET +:+ String "010" "".

Fixpoint lines (cs : list call) : string :=
  match cs with
  | [] => ""
  | c :: cs' => line c +:+ lines cs'
  end.

(** A pool with one worker thread, and threads that log: each step is a
    [log] call (whose exception, if any, is left to the caller) or a turn of
    the worker, which takes the task at the front of the queue, if there is
    one, and runs it; what a task throws stays in its future.  [None]: the
    process was aborted. *)
Inductive op : Type :=
  | Log (c : call)
  | Turn (now : Z).

Definition worker (now : Z) (w : Logger.world) : Logger.world :=
  match FlogPool.worker_turn (Logger.pool w) with
  | FlogPool.Takes task pool' =>
      (Logger.run_job now task
         (Logger.mkWorld (Logger.this w) pool' (Logger.trace w))).1
  | FlogPool.Waits | FlogPool.Exits => w
  end.

Fixpoint exec (bits : nat) (ops : list op) (w : Logger.world) : option Logger.world :=
  match ops with
  | [] => Some w
  | Log c :: ops' =>
      match Logger.log bits (stamp c) (now c) (level c) (message c) (args c) w with
      | Some (w', _) => exec bits ops' w'
      | None => None
      end
  | Turn now :: ops' => exec bits ops' (worker now w)
  end.

Fixpoint calls_of (ops : list op) : list call :=
  match ops with
  | [] => []
  | Log c :: ops' => c :: calls_of ops'
  | Turn _ :: ops' => calls_of ops'
  end.

(** The lines that the queued tasks will write, and the numbers of queued
    log tasks and queued flush tasks. *)
Fixpoint queued_text (q : list Logger.job) : string :=
  match q with
  | [] => ""
  | Logger.LogJob level formattedMessage :: q' =>
      Logger.getColorCode level +:+ formattedMessage
      +:+ Logger.getColorCode_of Logger.RESET +:+ String "010" ""
      +:+ queued_text q'
  | _ :: q' => queued_text q'
  end.

Fixpoint queued_logs (q : list Logger.job) : Z :=
  match q with
  | [] => 0
  | Logger.LogJob _ _ :: q' => 1 + queued_logs q'
  | _ :: q' => queued_logs q'
  end.

Fixpoint queued_flushes (q : list Logger.job) : Z :=
  match q with
  | [] => 0
  | Logger.FlushJob :: q' => 1 + queued_flushes q'
  | _ :: q' => queued_flushes q'
  end.

Definition not_periodic (task : Logger.job) : Prop := task ≠ Logger.PeriodicJob.

End LoggerSpec.

(** ** Facts about the string operations *)

Import Std.

Ltac rstep := cbn [mbind result_bind rbind mret result_ret].

Lemma str_app_nil_l (s : string) : "" +:+ s = s.
Proof. reflexivity. Qed.

Lemma str_app_String (a : ascii) (s t : string) : String a s +:+ t = String a (s +:+ t).
Proof. reflexivity. Qed.

Lemma str_app_nil_r (s : string) : s +:+ "" = s.
Proof. induction s as [|a s IH]; [done|]. by rewrite str_app_String, IH. Qed.

Lemma str_app_assoc (s t u : string) : (s +:+ t) +:+ u = s +:+ t +:+ u.
Proof. induction s as [|a s IH]; [done|]. by rewrite !str_app_String, IH. Qed.

Lemma str_length_app (s t : string) :
  String.length (s +:+ t) = (String.length s + String.length t)%nat.
Proof. induction s as [|a s IH]; [done|]. rewrite str_app_String. simpl. by rewrite IH. Qed.

Lemma size_nonneg (s : string) : 0 ≤ size s.
Proof. unfold size. lia. Qed.

Lemma size_String (a : ascii) (s : string) : size (String a s) = 1 + size s.
Proof. unfold size. simpl. lia. Qed.

Lemma str_take_app (s t : string) : str_take (String.length s) (s +:+ t) = s.
Proof. induction s as [|a s IH]; [by destruct t|]. rewrite str_app_String. simpl. by rewrite IH. Qed.

Lemma str_take_all (n : nat) (s : string) :
  (String.length s ≤ n)%nat → str_take n s = s.
Proof.
  revert n. induction s as [|a s IH]; intros [|n] Hn; simpl in *; try done; try lia.
  f_equal. apply IH. lia.
Qed.

Lemma str_drop_0 (s : string) : str_drop 0 s = s.
Proof. by destruct s. Qed.

Lemma length_str_drop (n : nat) (s : string) :
  String.length (str_drop n s) = (String.length s - n)%nat.
Proof. revert s. induction n as [|n IH]; intros [|a s]; simpl; try done. Qed.

(** *** [find_if], [rfind_if] *)

Lemma find_if_lt (P : ascii → bool) (s : string) (i : nat) :
  find_if P s = Some i → (i < String.length s)%nat.
Proof.
  revert i. induction s as [|a s IH]; intros i; simpl; [done|].
  destruct (P a); [intros [= <-]; lia|].
  destruct (find_if P s) as [j|]; [|done]. intros [= <-].
  specialize (IH j eq_refl). lia.
Qed.

Lemma rfind_if_lt (P : ascii → bool) (s : string) (i : nat) :
  rfind_if P s = Some i → (i < String.length s)%nat.
Proof.
  revert i. induction s as [|a s IH]; intros i; simpl; [done|].
  destruct (rfind_if P s) as [j|].
  - intros [= <-]. specialize (IH j eq_refl). lia.
  - destruct (P a); [intros [= <-]; lia|done].
Qed.

Lemma rfind_if_drop (P : ascii → bool) (s : string) (i : nat) :
  find_if P s = Some i →
  ∃ j, rfind_if P s = Some j ∧ (i ≤ j)%nat
       ∧ rfind_if P (str_drop i s) = Some (j - i)%nat.
Proof.
  revert i. induction s as [|a s IH]; intros i; simpl; [done|].
  destruct (P a) eqn:HP.
  - intros [= <-]. simpl. rewrite HP.
    destruct (rfind_if P s) as [j|]; eexists; (split; [done|]); split; try lia; f_equal; lia.
  - destruct (find_if P s) as [k|] eqn:Hk; [|done]. intros [= <-].
    destruct (IH k eq_refl) as (j & -> & Hle & Hd).
    exists (S j). split; [done|]. split; [lia|]. simpl. by rewrite Hd.
Qed.

(** *** [split_first] against [find] and [substr] *)

Lemma split_first_None (c : ascii) (s : string) :
  Spec.split_first c s = None → find_if (is_char c) s = None.
Proof.
  induction s as [|a s IH]; simpl; [done|]. unfold is_char at 1.
  destruct (bool_decide (a = c)); [done|].
  destruct (Spec.split_first c s) as [[b r]|]; [done|].
  intros _. by rewrite IH.
Qed.

Lemma split_first_Some (c : ascii) (s b r : string) :
  Spec.split_first c s = Some (b, r) →
  find_if (is_char c) s = Some (String.length b) ∧ s = b +:+ String c r.
Proof.
  revert b. induction s as [|a s IH]; intros b; simpl; [done|]. unfold is_char at 1.
  destruct (bool_decide (a = c)) eqn:Hac.
  - intros [= <- <-]. apply bool_decide_eq_true in Hac as ->. done.
  - destruct (Spec.split_first c s) as [[b' r']|]; [|done].
    intros [= <- <-]. destruct (IH b' eq_refl) as [-> ->]. done.
Qed.

(** *** [find] and [substr] *)

Lemma npos_eq : npos = 18446744073709551615.
Proof. reflexivity. Qed.

Lemma find_from_0 (c : ascii) (s : string) :
  size s ≤ npos →
  find s c 0 = match find_if (is_char c) s with
               | Some i => Z.of_nat i
               | None => npos
               end.
Proof.
  intros _. unfold find. destruct (size s <=? 0) eqn:Hs.
  - apply Z.leb_le in Hs. unfold size in Hs. destruct s; simpl in *; [done|lia].
  - change (Z.to_nat 0) with 0%nat. rewrite str_drop_0.
    by destruct (find_if (is_char c) s).
Qed.

Lemma substr_prefix (s : string) (n : nat) :
  (n ≤ String.length s)%nat →
  substr s 0 (Z.of_nat n) = Ok (str_take n s).
Proof.
  intros Hn. unfold substr, size.
  destruct (Z.of_nat (String.length s) <? 0) eqn:H0; [apply Z.ltb_lt in H0; lia|].
  change (Z.to_nat 0) with 0%nat. rewrite str_drop_0. do 2 f_equal. lia.
Qed.

Lemma substr_suffix (s : string) (n : nat) :
  size s ≤ npos → (n ≤ String.length s)%nat →
  substr s (Z.of_nat n) npos = Ok (str_drop n s).
Proof.
  intros Hs Hn. unfold substr, size in *.
  destruct (Z.of_nat (String.length s) <? Z.of_nat n) eqn:H0; [apply Z.ltb_lt in H0; lia|].
  rewrite Nat2Z.id. f_equal. apply str_take_all. rewrite length_str_drop. lia.
Qed.

Lemma substr_mid (s : string) (i n : nat) :
  (i ≤ String.length s)%nat → (i + n ≤ String.length s)%nat →
  substr s (Z.of_nat i) (Z.of_nat n) = Ok (str_take n (str_drop i s)).
Proof.
  intros Hi Hn. unfold substr, size.
  destruct (Z.of_nat (String.length s) <? Z.of_nat i) eqn:H0; [apply Z.ltb_lt in H0; lia|].
  rewrite Nat2Z.id. do 2 f_equal. lia.
Qed.

Lemma szadd_small (a b : Z) : 0 ≤ a + b ≤ npos → szadd a b = a + b.
Proof. intros H. unfold szadd. apply Z.mod_small. rewrite npos_eq in H. lia. Qed.

Lemma szsub_small (a b : Z) : 0 ≤ a - b ≤ npos → szsub a b = a - b.
Proof. intros H. unfold szsub. apply Z.mod_small. rewrite npos_eq in H. lia. Qed.

Lemma str_drop_S_app (b : string) (c : ascii) (r : string) :
  str_drop (S (String.length b)) (b +:+ String c r) = r.
Proof. induction b as [|a b IH]; [done|]. rewrite str_app_String. simpl. apply IH. Qed.

(** What the code computes around a separator [c], in the specification's
    terms. *)
Lemma cut_None (c : ascii) (s : string) :
  size s ≤ npos → Spec.split_first c s = None → find s c 0 = npos.
Proof.
  intros Hs H. rewrite find_from_0 by done. by rewrite (split_first_None _ _ H).
Qed.

Lemma cut_Some (c : ascii) (s b r : string) :
  size s ≤ npos → Spec.split_first c s = Some (b, r) →
  find s c 0 = size b ∧ size b ≠ npos
  ∧ substr s 0 (size b) = Ok b
  ∧ substr s (szadd (size b) 1) npos = Ok r.
Proof.
  intros Hs H. destruct (split_first_Some _ _ _ _ H) as [Hf ->].
  assert (Hlen : size b + 1 + size r = size (b +:+ String c r)).
  { unfold size. rewrite str_length_app. simpl. lia. }
  pose proof (size_nonneg b). pose proof (size_nonneg r).
  rewrite find_from_0, Hf by done. split; [done|]. split; [lia|]. split.
  - unfold size at 1. rewrite substr_prefix by (rewrite str_length_app; lia).
    by rewrite str_take_app.
  - rewrite szadd_small by lia. unfold size at 1.
    replace (Z.of_nat (String.length b) + 1) with (Z.of_nat (S (String.length b))) by lia.
    rewrite substr_suffix; [|done|rewrite str_length_app; simpl; lia].
    by rewrite str_drop_S_app.
Qed.

(** *** [trim] removes the surrounding spaces *)

Lemma lstrip_None (s : string) :
  find_if (not_char " ") s = None → Spec.lstrip s = "".
Proof.
  induction s as [|a s IH]; simpl; [done|].
  unfold not_char at 1, is_char. destruct (bool_decide (a = " "%char)); simpl; [|done].
  destruct (find_if (not_char " ") s); [done|]. auto.
Qed.

Lemma lstrip_Some (s : string) (i : nat) :
  find_if (not_char " ") s = Some i → Spec.lstrip s = str_drop i s.
Proof.
  revert i. induction s as [|a s IH]; intros i; simpl; [done|].
  unfold not_char at 1, is_char. destruct (bool_decide (a = " "%char)); simpl.
  - destruct (find_if (not_char " ") s) as [j|]; [|done]. intros [= <-]. by apply IH.
  - by intros [= <-].
Qed.

Lemma rstrip_None (s : string) :
  rfind_if (not_char " ") s = None → Spec.rstrip s = "".
Proof.
  induction s as [|a s IH]; simpl; [done|].
  destruct (rfind_if (not_char " ") s); [done|]. rewrite IH by done.
  unfold not_char, is_char. by destruct (bool_decide (a = " "%char)).
Qed.

Lemma rstrip_Some (s : string) (j : nat) :
  rfind_if (not_char " ") s = Some j → Spec.rstrip s = str_take (S j) s.
Proof.
  revert j. induction s as [|a s IH]; intros j; [done|].
  cbn [rfind_if Spec.rstrip].
  destruct (rfind_if (not_char " ") s) as [k|] eqn:Hk.
  - intros [= <-]. rewrite (IH k eq_refl).
    change (str_take (S (S k)) (String a s)) with (String a (str_take (S k) s)).
    apply rfind_if_lt in Hk. destruct s; [simpl in Hk; lia|done].
  - rewrite rstrip_None by done.
    unfold not_char, is_char. destruct (bool_decide (a = " "%char)); simpl; [done|].
    intros [= <-]. by destruct s.
Qed.

Lemma trim_strip (s : string) :
  size s ≤ npos → Request.trim s = Ok (Spec.strip s).
Proof.
  intros Hs. unfold Request.trim, find_first_not_of, find_last_not_of, Spec.strip.
  destruct (find_if (not_char " ") s) as [i|] eqn:Hi.
  - destruct (rfind_if_drop _ _ _ Hi) as (j & Hj & Hij & Hd). rewrite Hj.
    pose proof (find_if_lt _ _ _ Hi). pose proof (rfind_if_lt _ _ _ Hj).
    unfold size in Hs.
    rewrite bool_decide_eq_false_2 by lia.
    rewrite szsub_small, szadd_small by lia.
    replace (Z.of_nat j - Z.of_nat i + 1) with (Z.of_nat (S (j - i))) by lia.
    rewrite substr_mid by lia.
    by rewrite (lstrip_Some _ _ Hi), (rstrip_Some _ _ Hd).
  - rewrite bool_decide_eq_true_2 by done. by rewrite lstrip_None.
Qed.

(** *** One [key c value] item *)

Lemma split_first_size (c : ascii) (s b r : string) :
  Spec.split_first c s = Some (b, r) → size b ≤ size s ∧ size r ≤ size s.
Proof.
  intros H. destruct (split_first_Some _ _ _ _ H) as [_ ->].
  unfold size. rewrite str_length_app. simpl. lia.
Qed.

Lemma parseQueryPair_spec (this : Request.t) (pair : string) :
  size pair ≤ npos →
  Request.parseQueryPair this pair
  = Ok (Request.set_query (Spec.insert_item "=" (Request.query this) pair) this).
Proof.
  intros Hs. unfold Request.parseQueryPair, Spec.insert_item, Spec.key_value.
  destruct (Spec.split_first "=" pair) as [[k v]|] eqn:Hsplit.
  - destruct (cut_Some _ _ _ _ Hs Hsplit) as (-> & Hne & -> & ->).
    destruct (split_first_size _ _ _ _ Hsplit).
    rewrite bool_decide_eq_true_2 by done. cbn.
    rewrite !trim_strip by lia. done.
  - rewrite (cut_None _ _ Hs Hsplit). rewrite bool_decide_eq_false_2 by auto.
    by destruct this.
Qed.

Lemma parseHeaderLine_spec (this : Request.t) (headerLine : string) :
  size headerLine ≤ npos →
  Request.parseHeaderLine this headerLine
  = Ok (Request.set_headers (Spec.insert_item ":" (Request.headers this) headerLine) this).
Proof.
  intros Hs. unfold Request.parseHeaderLine, Spec.insert_item, Spec.key_value.
  destruct (Spec.split_first ":" headerLine) as [[k v]|] eqn:Hsplit.
  - destruct (cut_Some _ _ _ _ Hs Hsplit) as (-> & Hne & -> & ->).
    destruct (split_first_size _ _ _ _ Hsplit).
    rewrite bool_decide_eq_true_2 by done. cbn.
    rewrite !trim_strip by lia. done.
  - rewrite (cut_None _ _ Hs Hsplit). rewrite bool_decide_eq_false_2 by auto.
    by destruct this.
Qed.

(** *** Loops over lines and pairs *)

Lemma for_each_total {A S : Type} (body : S → A → result S) (f : S → A → S)
    (P : A → Prop) (l : list A) (st : S) :
  (∀ st x, P x → body st x = Ok (f st x)) →
  Forall P l →
  for_each body l st = Ok (foldl f st l).
Proof.
  intros Hbody Hl. revert st. induction Hl as [|x l Hx _ IH]; intros st; [done|].
  simpl. rewrite Hbody by done. apply IH.
Qed.

Lemma getlines_size (d : ascii) (s : string) :
  Forall (λ l, size l ≤ size s) (getlines d s).
Proof.
  induction s as [|a s IH]; cbn [getlines]; [constructor|].
  assert (Hmono : Forall (λ l, size l ≤ size (String a s)) (getlines d s)).
  { eapply Forall_impl; [exact IH|]. intros l Hl. cbv beta in *.
    rewrite size_String. lia. }
  destruct (bool_decide (a = d)).
  - constructor; [|done]. rewrite size_String. pose proof (size_nonneg s).
    change (size "") with 0. lia.
  - destruct (getlines d s) as [|l ls].
    + constructor; [|done]. rewrite !size_String. pose proof (size_nonneg s).
      change (size "") with 0. lia.
    + inversion IH as [|?? Hl Hls]; subst. inversion Hmono; subst.
      constructor; [|done]. rewrite !size_String. lia.
Qed.

Lemma getlines_bounded (d : ascii) (s : string) :
  size s ≤ npos → Forall (λ l, size l ≤ npos) (getlines d s).
Proof.
  intros Hs. eapply Forall_impl; [apply getlines_size|].
  intros l Hl. cbv beta in *. lia.
Qed.

(** [getlines] is what calling [getline] until it fails yields. *)
Lemma getlines_step (d : ascii) (s : string) :
  getlines d s = match getline d s with
                 | None => []
                 | Some (l, rest) => l :: getlines d rest
                 end.
Proof.
  induction s as [|a s IH]; [done|].
  cbn [getlines getline until_delim].
  destruct (bool_decide (a = d)); [done|].
  rewrite IH. destruct s as [|b s]; [done|].
  cbn [getline]. by destruct (until_delim d (String b s)).
Qed.

Lemma set_query_fold (f : gmap string string → string → gmap string string)
    (l : list string) (this : Request.t) :
  foldl (λ this x, Request.set_query (f (Request.query this) x) this) this l
  = Request.set_query (foldl f (Request.query this) l) this.
Proof.
  revert this. induction l as [|x l IH]; intros this; simpl; [by destruct this|].
  by rewrite IH.
Qed.

Lemma fields_getlines (d : ascii) (s : string) :
  Spec.fields d s = getlines d s ∨ Spec.fields d s = getlines d s ++ [""].
Proof.
  induction s as [|a s IH]; simpl; [by right|].
  destruct (bool_decide (a = d)).
  - destruct IH as [-> | ->]; [by left|by right].
  - destruct IH as [-> | ->].
    + by left.
    + destruct (getlines d s); simpl; [by left|by right].
Qed.

Lemma fields_nonempty (d : ascii) (s : string) : Spec.fields d s ≠ [].
Proof.
  destruct s as [|a s]; [done|]. cbn [Spec.fields].
  destruct (bool_decide (a = d)); [done|]. by destruct (Spec.fields d s).
Qed.

Lemma without_empty_end_cons (x : string) (l : list string) :
  l ≠ [] →
  Spec.without_empty_end (x :: l) = x :: Spec.without_empty_end l.
Proof.
  intros Hl. destruct l as [|y l]; [done|]. unfold Spec.without_empty_end.
  change (last (x :: y :: l)) with (last (y :: l)).
  change (removelast (x :: y :: l)) with (x :: removelast (y :: l)).
  by destruct (last (y :: l)) as [[|??]|].
Qed.

Lemma lines_getlines (s : string) : Spec.lines s = getlines "010" s.
Proof.
  unfold Spec.lines. induction s as [|a s IH]; [done|].
  cbn [Spec.fields getlines]. pose proof (fields_nonempty "010" s) as Hne.
  destruct (bool_decide (a = "010"%char)).
  - by rewrite without_empty_end_cons, IH.
  - rewrite <- IH. destruct (Spec.fields "010" s) as [|f fs]; [done|].
    destruct fs as [|f' fs].
    + by destruct f.
    + by rewrite (without_empty_end_cons (String a f)),
                 (without_empty_end_cons f) by done.
Qed.

Lemma collect_fields (c d : ascii) (m : gmap string string) (s : string) :
  Spec.collect c m (Spec.fields d s) = Spec.collect c m (getlines d s).
Proof.
  unfold Spec.collect. destruct (fields_getlines d s) as [-> | ->]; [done|].
  by rewrite foldl_app.
Qed.

Lemma parseQueryParams_spec (queryString : string) (this : Request.t) :
  size queryString ≤ npos →
  Request.parseQueryParams queryString this
  = Ok (Request.set_query
          (Spec.collect "=" (Request.query this) (Spec.fields "&" queryString)) this).
Proof.
  intros Hs. unfold Request.parseQueryParams.
  rewrite (for_each_total _
             (λ this x, Request.set_query (Spec.insert_item "=" (Request.query this) x) this)
             (λ l, size l ≤ npos)).
  - by rewrite set_query_fold, collect_fields.
  - intros st x Hx. by apply parseQueryPair_spec.
  - by apply getlines_bounded.
Qed.

Lemma headerLoop_spec (lines : list string) (this : Request.t) :
  Forall (λ l, size l ≤ npos) lines →
  Request.headerLoop lines this
  = Ok (Request.set_headers
          (Spec.collect ":" (Request.headers this) (Spec.upto_blank lines)) this,
        Spec.after_blank lines).
Proof.
  intros Hl. revert this. induction Hl as [|l lines Hsz _ IH]; intros this.
  - by destruct this.
  - cbn [Request.headerLoop Spec.upto_blank Spec.after_blank]. unfold empty.
    destruct (bool_decide (l = "")); [by destruct this|].
    rewrite parseHeaderLine_spec by done. cbn. rewrite IH. by destruct this.
Qed.

(** *** The body *)

Lemma bodyLoop_body (lines : list string) (this : Request.t) :
  Request.bodyLoop lines this
  = Request.set_body (Request.body this +:+ Spec.terminated lines) this.
Proof.
  unfold Request.bodyLoop. revert this.
  induction lines as [|l lines IH]; intros this; simpl.
  - rewrite str_app_nil_r. by destruct this.
  - rewrite IH. destruct this. unfold Request.set_body. cbn [Request.body Request.method Request.url Request.protocol Request.host Request.port Request.path Request.headers Request.query].
    f_equal. rewrite str_app_assoc. f_equal. by rewrite str_app_assoc.
Qed.

Lemma pop_back_terminated (lines : list string) :
  pop_back (Spec.terminated lines) = Spec.join (String "010" "") lines.
Proof.
  induction lines as [|l lines IH]; [done|]. cbn [Spec.terminated Spec.join].
  assert (Hpop : ∀ s t, t ≠ "" → pop_back (s +:+ t) = s +:+ pop_back t).
  { intros s t Ht. induction s as [|a s IHs]; [done|]. rewrite !str_app_String.
    cbn [pop_back]. rewrite IHs.
    destruct (s +:+ t) eqn:Hst; [|done]. destruct s; [done|discriminate]. }
  rewrite Hpop by done. destruct lines as [|l' lines].
  - simpl. by rewrite str_app_nil_r.
  - cbn [pop_back]. rewrite IH.
    destruct (Spec.terminated (l' :: lines)) eqn:Ht.
    + simpl in Ht. by destruct l'.
    + done.
Qed.


(** *** [stoi] on a text that starts with digits *)

Lemma decimal_nonneg (s : string) : 0 ≤ Spec.decimal s.
Proof.
  induction s as [|a s IH]; simpl; [done|].
  assert (0 ≤ default 0 (digit a)).
  { unfold digit. destruct (Ascii.is_nat a); simpl; lia. }
  assert (0 ≤ 10 ^ Z.of_nat (String.length s)) by (apply Z.pow_nonneg; lia).
  nia.
Qed.

Lemma digits_go_spec (s : string) (acc : Z) (seen : bool) :
  digits_go s acc seen
  = let ds := Spec.leading_digits s in
    if seen || negb (empty ds)
    then Some (acc * 10 ^ Z.of_nat (String.length ds) + Spec.decimal ds)
    else None.
Proof.
  unfold Spec.leading_digits. cbn zeta.
  revert acc seen. induction s as [|a s IH]; intros acc seen.
  - cbn. destruct seen; cbn; [f_equal; lia|done].
  - cbn [digits_go Spec.take_chars].
    destruct (digit a) as [d|] eqn:Hd.
    + assert (Spec.isdigit a = true) as ->.
      { unfold Spec.isdigit. rewrite Hd. apply bool_decide_eq_true_2. eauto. }
      rewrite IH. unfold empty at 2.
      rewrite (bool_decide_eq_false_2 (String a _ = "")) by done.
      cbn [orb negb Spec.decimal String.length]. rewrite Hd, orb_true_r.
      cbn [default]. f_equal.
      rewrite Nat2Z.inj_succ, Z.pow_succ_r by lia. unfold id. ring.
    + assert (Spec.isdigit a = false) as ->.
      { unfold Spec.isdigit. rewrite Hd. apply bool_decide_eq_false_2. by intros [? ?]. }
      cbn. destruct seen; cbn; [f_equal; lia|done].
Qed.

Lemma stoi_leading_digits (txt : string) :
  Spec.leading_digits txt ≠ "" →
  Spec.decimal (Spec.leading_digits txt) ≤ INT_MAX →
  stoi txt = Ok (Spec.decimal (Spec.leading_digits txt)).
Proof.
  intros Hne Hmax. unfold stoi.
  assert (Hhead : skipws txt = txt
                  ∧ (let '(neg, s2) :=
                       match txt with
                       | String "-" t => (true, t)
                       | String "+" t => (false, t)
                       | _ => (false, txt)
                       end in neg = false ∧ s2 = txt)).
  { destruct txt as [|a t]; [done|].
    unfold Spec.leading_digits in Hne. cbn [Spec.take_chars] in Hne.
    unfold Spec.isdigit at 1, digit in Hne.
    destruct a as [[] [] [] [] [] [] [] []]; cbn in Hne; try done. }
  destruct Hhead as [-> Hsign].
  destruct (match txt with
            | String "-" t => (true, t)
            | String "+" t => (false, t)
            | _ => (false, txt)
            end) as [neg s2].
  destruct Hsign as [-> ->].
  rewrite digits_go_spec. cbn zeta.
  unfold empty. rewrite bool_decide_eq_false_2 by done. cbn [orb negb].
  pose proof (decimal_nonneg (Spec.leading_digits txt)).
  rewrite Z.mul_0_l, Z.add_0_l.
  destruct (Z.ltb_spec (Spec.decimal (Spec.leading_digits txt)) INT_MIN) as [Hlt|_].
  { unfold INT_MIN in Hlt. lia. }
  destruct (Z.ltb_spec INT_MAX (Spec.decimal (Spec.leading_digits txt))); [lia|done].
Qed.

(** *** The URL: scheme, host and port *)

Lemma prefix_length (p s : string) :
  String.prefix p s = true → (String.length p ≤ String.length s)%nat.
Proof.
  revert s. induction p as [|a p IH]; intros [|b s]; simpl; try done; try lia.
  destruct (ascii_dec a b); [|done]. intros H. apply IH in H. lia.
Qed.

Lemma find_str_from_bound (pat s : string) (i : nat) :
  find_str_from pat s = Some i →
  (i + String.length pat ≤ String.length s)%nat.
Proof.
  revert i. induction s as [|a s IH]; intros i; cbn [find_str_from].
  - destruct (String.prefix pat "") eqn:Hp; [|done].
    intros [= <-]. by apply prefix_length in Hp.
  - destruct (String.prefix pat (String a s)) eqn:Hp.
    + intros [= <-]. by apply prefix_length in Hp.
    + destruct (find_str_from pat s) as [j|]; [|done]. intros [= <-].
      specialize (IH j eq_refl). simpl. lia.
Qed.

Lemma find_str_at_0 (s pat : string) :
  bool_decide (find_str s pat = 0) = String.prefix pat s.
Proof.
  unfold find_str.
  destruct s as [|a s]; cbn [find_str_from];
    destruct (String.prefix pat _); try done.
  destruct (find_str_from pat s); cbn; apply bool_decide_eq_false_2; [lia|done].
Qed.

Lemma str_drop_drop (n m : nat) (s : string) :
  str_drop n (str_drop m s) = str_drop (m + n) s.
Proof.
  revert s. induction m as [|m IH]; intros s; [by rewrite str_drop_0|].
  destruct s as [|a s]; [by destruct n|]. simpl. apply IH.
Qed.

Lemma find_from (s : string) (c : ascii) (h : nat) :
  (h ≤ String.length s)%nat →
  find s c (Z.of_nat h)
  = match find_if (is_char c) (str_drop h s) with
    | Some k => Z.of_nat (h + k)
    | None => npos
    end.
Proof.
  intros Hh. unfold find, size. rewrite Nat2Z.id.
  destruct (Z.leb_spec (Z.of_nat (String.length s)) (Z.of_nat h)) as [Hle|Hlt].
  - destruct (find_if (is_char c) (str_drop h s)) as [k|] eqn:Hk; [|done].
    apply find_if_lt in Hk. rewrite length_str_drop in Hk. lia.
  - destruct (find_if (is_char c) (str_drop h s)); [f_equal; lia|done].
Qed.

Lemma find_if_drop (P : ascii → bool) (s : string) (n : nat) :
  match find_if P s with
  | Some j => (n ≤ j)%nat → find_if P (str_drop n s) = Some (j - n)%nat
  | None => find_if P (str_drop n s) = None
  end.
Proof.
  revert n. induction s as [|a s IH]; intros n; [by destruct n|].
  cbn [find_if]. destruct (P a) eqn:HP.
  - intros Hn. assert (n = 0%nat) as -> by lia. simpl. by rewrite HP.
  - specialize (IH (pred n)). destruct (find_if P s) as [j|] eqn:Hj; cbn.
    + intros Hn. destruct n as [|n]; simpl.
      * by rewrite HP, Hj.
      * apply IH. simpl. lia.
    + destruct n as [|n]; simpl; [by rewrite HP, Hj|done].
Qed.

Lemma take_chars_not_char (c : ascii) (s : string) :
  Spec.take_chars (not_char c) s
  = match find_if (is_char c) s with
    | Some j => str_take j s
    | None => s
    end.
Proof.
  induction s as [|a s IH]; [done|]. cbn [Spec.take_chars find_if].
  unfold not_char at 1. destruct (is_char c a); [done|]. cbn [negb].
  rewrite IH. by destruct (find_if (is_char c) s).
Qed.

(** Where the host ends, in terms of the positions of the first [':'] and
    the first ['/']. *)
Lemma host_scan (s : string) :
  let take := Spec.take_chars Spec.host_char s in
  let drop := Spec.drop_chars Spec.host_char s in
  match find_if (is_char ":") s, find_if (is_char "/") s with
  | Some kc, Some ks =>
      if decide (kc < ks)%nat
      then take = str_take kc s ∧ drop = String ":" (str_drop (S kc) s)
      else take = str_take ks s ∧ drop = String "/" (str_drop (S ks) s)
  | Some kc, None => take = str_take kc s ∧ drop = String ":" (str_drop (S kc) s)
  | None, Some ks => take = str_take ks s ∧ drop = String "/" (str_drop (S ks) s)
  | None, None => take = s ∧ drop = ""
  end.
Proof.
  cbn zeta. induction s as [|a s IH]; [done|].
  cbn [find_if Spec.take_chars Spec.drop_chars].
  assert (Hh : Spec.host_char a = negb (is_char ":" a) && negb (is_char "/" a)) by done.
  rewrite Hh. clear Hh.
  destruct (is_char ":" a) eqn:Hc; cbn [negb andb].
  { apply bool_decide_eq_true in Hc as ->.
    change (is_char "/" ":"%char) with false.
    destruct (find_if (is_char "/") s) as [ks|]; cbn; [|done].
    by rewrite decide_True by lia. }
  destruct (is_char "/" a) eqn:Hs; cbn [negb andb].
  { apply bool_decide_eq_true in Hs as ->.
    destruct (find_if (is_char ":") s) as [kc|]; cbn; [|done].
    by rewrite decide_False by lia. }
  destruct (find_if (is_char ":") s) as [kc|], (find_if (is_char "/") s) as [ks|]; cbn.
  - destruct (decide (kc < ks)%nat), (decide (S kc < S ks)%nat); try lia;
      destruct IH as [-> ->]; done.
  - by destruct IH as [-> ->].
  - by destruct IH as [-> ->].
  - by destruct IH as [-> ->].
Qed.

Lemma hostStart_spec (url : string) :
  size url ≤ npos →
  ∃ h : nat,
    (h ≤ String.length url)%nat
    ∧ (if bool_decide (find_str url "://" ≠ npos)
       then szadd (find_str url "://") 3 else 0) = Z.of_nat h
    ∧ Spec.after_scheme url = str_drop h url.
Proof.
  intros Hs. unfold find_str, Spec.after_scheme, size in *.
  destruct (find_str_from "://" url) as [i|] eqn:Hi.
  - apply find_str_from_bound in Hi. simpl in Hi.
    exists (i + 3)%nat. split; [lia|].
    rewrite bool_decide_eq_true_2 by lia.
    rewrite szadd_small by lia. split; [lia|done].
  - exists 0%nat. split; [lia|]. rewrite bool_decide_eq_false_2 by auto.
    by rewrite str_drop_0.
Qed.

Lemma extractUrlComponents_spec (url : string) (this : Request.t) :
  size url ≤ npos →
  Request.extractUrlComponents url this
  = let base :=
      Request.set_host (Spec.host url)
        (Request.set_port (Spec.default_port url)
           (Request.set_protocol (Spec.default_protocol url) this)) in
    match Spec.port_text url with
    | None => Ok base
    | Some txt => p ← stoi txt; Ok (Request.set_port p base)
    end.
Proof.
  intros Hs. unfold Request.extractUrlComponents.
  rewrite find_str_at_0.
  destruct (hostStart_spec url Hs) as (h & Hh & -> & Hafter).
  rewrite !find_from by done.
  unfold Spec.host, Spec.port_text, Spec.default_port, Spec.default_protocol, Spec.https.
  rewrite Hafter. cbn zeta.
  set (this1 := if String.prefix "https://" url then _ else _).
  assert (Hthis1 : ∀ hst,
            Request.set_host hst this1
            = Request.set_host hst
                (Request.set_port (if String.prefix "https://" url then 443 else 80)
                   (Request.set_protocol
                      (if String.prefix "https://" url then "HTTPS" else "HTTP") this))).
  { intros hst. unfold this1. by destruct (String.prefix "https://" url). }
  pose proof (host_scan (str_drop h url)) as Hscan. cbn zeta in Hscan.
  pose proof (find_if_drop (is_char "/") (str_drop h url)) as Hslash.
  assert (Hlen : String.length (str_drop h url) = (String.length url - h)%nat)
    by apply length_str_drop.
  unfold size in Hs.
  destruct (find_if (is_char ":") (str_drop h url)) as [kc|] eqn:Hkc.
  - pose proof (find_if_lt _ _ _ Hkc) as Hkc_lt.
    destruct (find_if (is_char "/") (str_drop h url)) as [ks|] eqn:Hks.
    + pose proof (find_if_lt _ _ _ Hks) as Hks_lt.
      rewrite (bool_decide_eq_true_2 (Z.of_nat (h + kc) ≠ npos)) by lia.
      rewrite (bool_decide_eq_false_2 (Z.of_nat (h + ks) = npos)) by lia.
      cbn [andb orb].
      destruct (decide (kc < ks)%nat) as [Hlt|Hge].
      * destruct Hscan as [-> ->].
        rewrite bool_decide_eq_true_2 by lia.
        rewrite (szsub_small (Z.of_nat (h + kc)) (Z.of_nat h)) by lia.
        replace (Z.of_nat (h + kc) - Z.of_nat h) with (Z.of_nat kc) by lia.
        rewrite substr_mid by lia. rstep.
        rewrite szadd_small by lia.
        rewrite (szsub_small (Z.of_nat (h + ks))) by lia.
        rewrite szsub_small by lia.
        replace (Z.of_nat (h + kc) + 1) with (Z.of_nat (h + S kc)) by lia.
        replace (Z.of_nat (h + ks) - Z.of_nat (h + kc) - 1)
          with (Z.of_nat (ks - S kc)) by lia.
        rewrite substr_mid by lia. rstep.
        rewrite take_chars_not_char, str_drop_drop.
        specialize (Hslash (S kc)). rewrite str_drop_drop in Hslash.
        rewrite Hslash by lia.
        destruct (stoi _); rstep; [|done]. by rewrite Hthis1.
      * destruct Hscan as [-> ->].
        rewrite bool_decide_eq_false_2 by lia.
        rewrite bool_decide_eq_true_2 by lia.
        rewrite szsub_small by lia.
        replace (Z.of_nat (h + ks) - Z.of_nat h) with (Z.of_nat ks) by lia.
        rewrite substr_mid by lia. rstep. by rewrite Hthis1.
    + destruct Hscan as [-> ->].
      rewrite (bool_decide_eq_true_2 (Z.of_nat (h + kc) ≠ npos)) by lia.
      rewrite (bool_decide_eq_true_2 (npos = npos)) by done.
      cbn [andb orb].
      rewrite (szsub_small (Z.of_nat (h + kc)) (Z.of_nat h)) by lia.
      replace (Z.of_nat (h + kc) - Z.of_nat h) with (Z.of_nat kc) by lia.
      rewrite substr_mid by lia. rstep.
      rewrite szadd_small by lia.
      rewrite (szsub_small npos) by lia.
      rewrite szsub_small by lia.
      replace (Z.of_nat (h + kc) + 1) with (Z.of_nat (h + S kc)) by lia.
      unfold substr, size.
      destruct (Z.ltb_spec (Z.of_nat (String.length url)) (Z.of_nat (h + S kc))); [lia|].
      rewrite Nat2Z.id.
      rewrite (str_take_all _ (str_drop (h + S kc) url))
        by (rewrite length_str_drop; lia).
      rstep. rewrite take_chars_not_char, str_drop_drop.
      specialize (Hslash (S kc)). rewrite str_drop_drop in Hslash. rewrite Hslash.
      destruct (stoi _); rstep; [|done]. by rewrite Hthis1.
  - rewrite (bool_decide_eq_false_2 (npos ≠ npos)) by auto. cbn [andb].
    destruct (find_if (is_char "/") (str_drop h url)) as [ks|] eqn:Hks.
    + pose proof (find_if_lt _ _ _ Hks) as Hks_lt.
      destruct Hscan as [-> ->].
      rewrite bool_decide_eq_true_2 by lia.
      rewrite szsub_small by lia.
      replace (Z.of_nat (h + ks) - Z.of_nat h) with (Z.of_nat ks) by lia.
      rewrite substr_mid by lia. rstep. by rewrite Hthis1.
    + destruct Hscan as [-> ->].
      rewrite bool_decide_eq_false_2 by auto.
      rewrite substr_suffix by (unfold size; lia). rstep. by rewrite Hthis1.
Qed.

(** *** The whole of [parseRequest] *)

Lemma skipws_size (s : string) : size (skipws s) ≤ size s.
Proof.
  induction s as [|a s IH]; cbn [skipws]; [done|].
  destruct (isspace a); [|done]. rewrite size_String. lia.
Qed.

Lemma until_space_size (s : string) : size (until_space s).1 ≤ size s.
Proof.
  induction s as [|a s IH]; cbn [until_space]; [done|].
  destruct (isspace a); [cbn; rewrite size_String; pose proof (size_nonneg s);
                         change (size "") with 0; lia|].
  destruct (until_space s) as [w r]. cbn in *. rewrite !size_String. lia.
Qed.

Lemma until_space_rest_size (s : string) : size (until_space s).2 ≤ size s.
Proof.
  induction s as [|a s IH]; cbn [until_space]; [done|].
  destruct (isspace a); [done|].
  destruct (until_space s) as [w r]. cbn in *. rewrite !size_String. lia.
Qed.

Lemma read_word_size (s w r : string) :
  read_word s = Some (w, r) → size w ≤ size s ∧ size r ≤ size s.
Proof.
  unfold read_word. pose proof (skipws_size s) as Hs.
  pose proof (until_space_size (skipws s)) as Hw.
  pose proof (until_space_rest_size (skipws s)) as Hr.
  destruct (skipws s) as [|a t]; [done|]. intros H. apply (inj Some) in H.
  rewrite H in Hw, Hr. cbn [fst snd] in Hw, Hr. lia.
Qed.

Lemma readRequestLine_url_size (requestLine : string) (this : Request.t) :
  size requestLine ≤ npos → size (Request.url this) ≤ npos →
  size (Request.url (Request.readRequestLine requestLine this)) ≤ npos.
Proof.
  intros Hl Hu. unfold Request.readRequestLine.
  destruct (read_word requestLine) as [[m rest]|] eqn:Hm; [|done].
  destruct (read_word_size _ _ _ Hm) as [_ Hrest].
  destruct (read_word rest) as [[u rest']|] eqn:Hurl; [|done].
  destruct (read_word_size _ _ _ Hurl) as [Husz _]. cbn. lia.
Qed.

Lemma splitPathQuery_spec (this : Request.t) :
  size (Request.url this) ≤ npos →
  Request.splitPathQuery this
  = Ok (match Spec.split_first "?" (Request.url this) with
        | Some (p, qs) =>
            Request.set_query
              (Spec.collect "=" (Request.query this) (Spec.fields "&" qs))
              (Request.set_path p this)
        | None => Request.set_path (Request.url this) this
        end).
Proof.
  intros Hs. unfold Request.splitPathQuery.
  destruct (Spec.split_first "?" (Request.url this)) as [[p qs]|] eqn:Hsplit.
  - destruct (cut_Some _ _ _ _ Hs Hsplit) as (-> & Hne & -> & Hqs).
    destruct (split_first_size _ _ _ _ Hsplit).
    rewrite bool_decide_eq_true_2 by done. rstep.
    change (Request.url (Request.set_path p this)) with (Request.url this).
    rewrite Hqs. rstep. by rewrite parseQueryParams_spec by lia.
  - rewrite (cut_None _ _ Hs Hsplit). by rewrite bool_decide_eq_false_2 by auto.
Qed.

Lemma stripBody_bodyLoop (lines : list string) (this : Request.t) :
  Request.body this = "" →
  Request.stripBody (Request.bodyLoop lines this)
  = Request.set_body (Spec.join (String "010" "") lines) this.
Proof.
  intros Hb. rewrite bodyLoop_body, Hb, str_app_nil_l.
  unfold Request.stripBody, empty.
  change (Request.body (Request.set_body ?b _)) with b.
  destruct lines as [|l ls].
  - cbn. destruct this; cbn in *. by subst.
  - rewrite bool_decide_eq_false_2 by (cbn; by destruct l).
    cbn [negb]. rewrite pop_back_terminated. by destruct this.
Qed.

Lemma hd_bounded (ls : list string) :
  Forall (λ l, size l ≤ npos) ls → size (hd "" ls) ≤ npos.
Proof. intros [|l ls' Hl _]; [by compute|done]. Qed.

Lemma tail_bounded (ls : list string) :
  Forall (λ l, size l ≤ npos) ls → Forall (λ l, size l ≤ npos) (tail ls).
Proof. intros [|l ls' _ Hl]; [constructor|done]. Qed.

(** [parseRequest] in the specification's terms: the URL step is the only
    one that can throw. *)
Lemma parseRequest_spec (httpRequest : string) (port0 : Z) :
  size httpRequest ≤ npos →
  Request.parseRequest httpRequest (Request.fresh port0)
  = let ls := Spec.lines httpRequest in
    let r0 := Request.readRequestLine (hd "" ls) (Request.fresh port0) in
    r1 ← Request.extractUrlComponents (Request.url r0) r0;
    Ok (Request.mk (Request.method r0) (Request.url r0)
          (Request.protocol r1) (Request.host r1) (Request.port r1)
          (Spec.path_query (Request.url r0)).1
          (Spec.join (String "010" "") (Spec.body_lines ls))
          (Spec.collect ":" ∅ (Spec.header_lines ls))
          (Spec.path_query (Request.url r0)).2).
Proof.
  intros Hs. unfold Request.parseRequest. rewrite lines_getlines. cbn zeta.
  pose proof (getlines_bounded "010" _ Hs) as Hls.
  set (ls := getlines "010" httpRequest) in *.
  set (r0 := Request.readRequestLine (hd "" ls) (Request.fresh port0)).
  assert (Hu : size (Request.url r0) ≤ npos).
  { apply readRequestLine_url_size; [by apply hd_bounded|by compute]. }
  assert (Hr0 : Request.body r0 = "" ∧ Request.headers r0 = ∅ ∧ Request.query r0 = ∅).
  { unfold r0, Request.readRequestLine.
    destruct (read_word (hd "" ls)) as [[m rest]|]; [|done].
    by destruct (read_word rest) as [[u rest']|]. }
  destruct Hr0 as (Hbody & Hheaders & Hquery).
  rewrite extractUrlComponents_spec by done. cbn zeta.
  set (base := Request.set_host _ _).
  assert (Hfin : ∀ r1,
    Request.url r1 = Request.url r0 → Request.body r1 = "" →
    Request.headers r1 = ∅ → Request.query r1 = ∅ →
    Request.method r1 = Request.method r0 →
    (this ← Request.splitPathQuery r1;
     '(this, rest) ← Request.headerLoop (tail ls) this;
     Ok (Request.stripBody (Request.bodyLoop rest this)))
    = Ok (Request.mk (Request.method r0) (Request.url r0)
            (Request.protocol r1) (Request.host r1) (Request.port r1)
            (Spec.path_query (Request.url r0)).1
            (Spec.join (String "010" "") (Spec.body_lines ls))
            (Spec.collect ":" ∅ (Spec.header_lines ls))
            (Spec.path_query (Request.url r0)).2)).
  { intros r1 Hurl Hb Hh Hq Hm.
    rewrite splitPathQuery_spec by (by rewrite Hurl). rstep.
    rewrite headerLoop_spec by (by apply tail_bounded). rstep.
    rewrite stripBody_bodyLoop.
    2:{ by destruct (Spec.split_first "?" (Request.url r1)) as [[??]|]. }
    unfold Spec.path_query, Spec.header_lines, Spec.body_lines.
    rewrite <- Hurl.
    destruct r1 as [m u pr ho po pa bo he qu]; cbn in *. subst.
    by destruct (Spec.split_first "?" _) as [[??]|]. }
  destruct (Spec.port_text (Request.url r0)) as [txt|].
  - destruct (stoi txt) as [p|e]; rstep; [|done]. by rewrite Hfin.
  - rstep. by rewrite Hfin.
Qed.

(** The constructor leaves [port] uninitialised; the parsed request does not
    depend on what it held. *)
Lemma parseRequest_ignores_initial_port (httpRequest : string) (p q : Z) :
  size httpRequest ≤ npos →
  Request.parseRequest httpRequest (Request.fresh p)
  = Request.parseRequest httpRequest (Request.fresh q).
Proof.
  intros Hs. rewrite !parseRequest_spec by done. cbn zeta.
  pose proof (getlines_bounded "010" _ Hs) as Hls. rewrite <- lines_getlines in Hls.
  set (l := hd "" (Spec.lines httpRequest)).
  assert (Hl : size l ≤ npos) by (by apply hd_bounded).
  rewrite !extractUrlComponents_spec
    by (apply readRequestLine_url_size; [done|by compute]).
  assert (Hq : Request.readRequestLine l (Request.fresh q)
               = Request.set_port q (Request.readRequestLine l (Request.fresh p))).
  { unfold Request.readRequestLine.
    destruct (read_word l) as [[m rest]|]; [|done].
    by destruct (read_word rest) as [[u rest']|]. }
  rewrite Hq. cbn zeta.
  change (Request.url (Request.set_port q ?r)) with (Request.url r).
  change (Request.method (Request.set_port q ?r)) with (Request.method r).
  by destruct (Spec.port_text _) as [txt|]; [destruct (stoi txt)|].
Qed.

(** ** The worker pool *)

(** C1. The specification asks [enqueue] to fail with [PoolStopped] once
    shutdown has been initiated. [ThreadPool::enqueue] never consults the stop
    flag: on a pool whose flag is set it queues the task and notifies a worker
    like on a running pool. The pool of flog.h, on the same state, throws. *)
Theorem enqueue_after_stop_queues_the_task :
  ∀ (Task : Type) (f : Task) (queued : list Task) (n : nat),
    ThreadPool.enqueue f (ThreadPool.mk queued true n)
    = Ok (ThreadPool.mk (queued ++ [f]) true (S n))
    ∧ Flog.enqueue f (Flog.mk queued true n)
      = Throw (runtime_error "ThreadPool is stopped.").
Proof. intros Task f queued n. split; reflexivity. Qed.

(** [ThreadPool::enqueue] has no failing path at all. *)
Lemma enqueue_never_throws {Task : Type} (f : Task) (pool : ThreadPool.t Task) :
  ∃ pool', ThreadPool.enqueue f pool = Ok pool'
           ∧ ThreadPool.tasks pool' = ThreadPool.tasks pool ++ [f]
           ∧ ThreadPool.stop pool' = ThreadPool.stop pool.
Proof. eexists. split; [reflexivity|]. done. Qed.

(** ** Parsing *)

(** C2. The specification asks that constructing a [Request] never raises.
    A request line whose URL has a colon before its first slash followed by
    text that does not start with a number reaches [std::stoi], which
    throws; nothing catches the exception, so [handleRequest] does not
    produce a response either. The same happens when nothing follows the
    colon, and a number too large for an [int] makes [std::stoi] throw
    [out_of_range]. *)
Theorem parse_throws_on_non_numeric_port :
  Request.new bad_port_request = Throw (invalid_argument "stoi")
  ∧ Request.new "GET localhost: HTTP/1.1" = Throw (invalid_argument "stoi")
  ∧ Request.new "GET localhost:99999999999/ HTTP/1.1" = Throw (out_of_range "stoi")
  ∧ App.handleRequest App.new (Some bad_port_request)
    = App.Uncaught (invalid_argument "stoi").
Proof. repeat split; vm_compute; reflexivity. Qed.

(** Apart from that, parsing is total: when no colon comes before the first
    slash of the URL, the constructor returns a request. *)
Lemma parse_total_without_port (httpRequest : string) :
  size httpRequest ≤ npos →
  Spec.port_text
    (Request.url (Request.readRequestLine (hd "" (Spec.lines httpRequest))
                    (Request.fresh 0))) = None →
  ∃ r, Request.new httpRequest = Ok r.
Proof.
  intros Hs Hport. unfold Request.new. rewrite parseRequest_spec by done.
  cbn zeta. rewrite extractUrlComponents_spec.
  - rewrite Hport. rstep. eauto.
  - apply readRequestLine_url_size; [|by compute].
    apply hd_bounded. rewrite lines_getlines. by apply getlines_bounded.
Qed.

(** ** Accessors *)

(** C10. [getHeader] and [queryParam] return the empty string for a key
    that is absent from the header, respectively query, mapping. Both are
    [const] member functions that look the key up with [find]: they are total
    functions of the request and return nothing but the string. *)
Theorem accessors_default_to_empty (r : Request.t) (key : string) :
  (Request.headers r !! key = None → Request.getHeader r key = "")
  ∧ (Request.query r !! key = None → Request.queryParam r key = "")
  ∧ (∀ v, Request.headers r !! key = Some v → Request.getHeader r key = v)
  ∧ (∀ v, Request.query r !! key = Some v → Request.queryParam r key = v).
Proof.
  unfold Request.getHeader, Request.queryParam.
  repeat split; intros; by simplify_option_eq.
Qed.

Lemma accessors_default_to_empty_witness :
  Request.getHeader (Request.fresh 0) "Host" = ""
  ∧ Request.queryParam (Request.fresh 0) "q" = "".
Proof.
  destruct (accessors_default_to_empty (Request.fresh 0) "Host") as (Hh & _).
  destruct (accessors_default_to_empty (Request.fresh 0) "q") as (_ & Hq & _).
  split; [apply Hh|apply Hq]; reflexivity.
Defined.

(** ** Responses *)

(** C9. When the file cannot be opened, [sendFile] sets the body to
    "File not found", leaves the status code as it was, sets [Content-Type]
    to [text/html] and [Content-Length] to the length of that body, and
    leaves the other headers alone. *)
Theorem sendFile_missing_file (fs : Response.filesystem) (filePath : string)
    (r : Response.t) :
  fs filePath = None →
  let r' := Response.sendFile fs filePath r in
  Response.body r' = "File not found"
  ∧ Response.statusCode r' = Response.statusCode r
  ∧ Response.headers r' !! "Content-Type" = Some "text/html"
  ∧ Response.headers r' !! "Content-Length" = Some (to_string (size (Response.body r')))
  ∧ to_string (size (Response.body r')) = "14"
  ∧ (∀ k, k ≠ "Content-Type" → k ≠ "Content-Length" →
          Response.headers r' !! k = Response.headers r !! k).
Proof.
  intros Hfs. unfold Response.sendFile, Response.readFile. rewrite Hfs.
  cbn -[to_string size]. repeat split.
  - by rewrite lookup_insert_ne, lookup_insert_eq.
  - by rewrite lookup_insert_eq.
  - intros k H1 H2. by rewrite !lookup_insert_ne.
Qed.

Lemma sendFile_missing_file_witness :
  let r' := Response.sendFile (λ _, None) "index.html" (Response.status 500 Response.new) in
  Response.body r' = "File not found" ∧ Response.statusCode r' = 500.
Proof.
  destruct (sendFile_missing_file (λ _, None) "index.html"
              (Response.status 500 Response.new) eq_refl) as (Hb & Hs & _).
  split; [exact Hb|exact Hs].
Defined.

(** ** Serialization *)

Lemma foldl_headerLine (hs : list (string * string)) (init : string) :
  foldl (λ response header, response +:+ Response.headerLine header) init hs
  = init +:+ Spec.header_block hs.
Proof.
  revert init. induction hs as [|h hs IH]; intros init; simpl.
  - by rewrite str_app_nil_r.
  - rewrite IH. by rewrite str_app_assoc.
Qed.

Lemma toHttpResponse_spec (r : Response.t) :
  Response.toHttpResponse r
  = Spec.serialize (Response.statusCode r) (map_to_list (Response.headers r))
      (Response.body r).
Proof.
  unfold Response.toHttpResponse, Spec.serialize. rewrite foldl_headerLine.
  assert (Hreason : Response.getStatusMessage r = Spec.reason (Response.statusCode r)).
  { unfold Response.getStatusMessage, Spec.reason.
    generalize (Response.statusCode r). intros code.
    repeat case_decide; subst; try done.
    destruct code as [|p|p]; try done.
    repeat (destruct p as [p|p|]; try done). }
  rewrite Hreason. by rewrite !str_app_assoc.
Qed.

Lemma header_block_contains (hs : list (string * string)) (k v : string) :
  (k, v) ∈ hs →
  ∃ before after,
    Spec.header_block hs = before +:+ Response.headerLine (k, v) +:+ after
    ∧ (before = "" ∨ ∃ b, before = b +:+ Response.CRLF).
Proof.
  induction hs as [|h hs IH]; [by intros ?%elem_of_nil|].
  intros [->|Hin]%elem_of_cons; cbn [Spec.header_block].
  - exists "", (Spec.header_block hs). split; [reflexivity|by left].
  - destruct (IH Hin) as (b & a & -> & Hb).
    exists (Response.headerLine h +:+ b), a.
    split; [by rewrite (str_app_assoc (Response.headerLine h))|].
    right. destruct Hb as [->|[b' ->]].
    + exists (h.1 +:+ ": " +:+ h.2). unfold Response.headerLine.
      by rewrite str_app_nil_r, !str_app_assoc.
    + exists (Response.headerLine h +:+ b'). by rewrite str_app_assoc.
Qed.

(** C4. Serialization writes the status line [HTTP/1.1 <code> <reason>] with
    the reason phrases of the specification, then one [Key: Value] line per
    header, each ended by CRLF, then an empty line, then the body unchanged.
    Every header of the response is on a line of its own. The response built
    by [status(400).setHeader("X","y").send("hi")] starts with
    [HTTP/1.1 400 Bad Request] and has the header lines [X: y],
    [Content-Type: text/plain] and [Content-Length: 2]. *)
Theorem serialization_format :
  (∀ r : Response.t,
     ∃ hs : list (string * string),
       hs ≡ₚ map_to_list (Response.headers r)
       ∧ Response.toHttpResponse r
         = "HTTP/1.1 " +:+ to_string (Response.statusCode r) +:+ " "
           +:+ Spec.reason (Response.statusCode r) +:+ Response.CRLF
           +:+ Spec.header_block hs +:+ Response.CRLF +:+ Response.body r)
  ∧ (∀ (r : Response.t) (k v : string),
       Response.headers r !! k = Some v →
       Spec.contains (Response.toHttpResponse r)
         (Response.CRLF +:+ k +:+ ": " +:+ v +:+ Response.CRLF))
  ∧ (let r := Response.send "hi"
                (Response.setHeader "X" "y" (Response.status 400 Response.new)) in
     let wire := Response.toHttpResponse r in
     (∃ rest, wire = "HTTP/1.1 400 Bad Request" +:+ Response.CRLF +:+ rest)
     ∧ Spec.contains wire (Response.CRLF +:+ "X: y" +:+ Response.CRLF)
     ∧ Spec.contains wire (Response.CRLF +:+ "Content-Type: text/plain" +:+ Response.CRLF)
     ∧ Spec.contains wire (Response.CRLF +:+ "Content-Length: 2" +:+ Response.CRLF)).
Proof.
  assert (Hhdr : ∀ (r : Response.t) (k v : string),
            Response.headers r !! k = Some v →
            Spec.contains (Response.toHttpResponse r)
              (Response.CRLF +:+ k +:+ ": " +:+ v +:+ Response.CRLF)).
  { intros r k v Hkv. apply elem_of_map_to_list in Hkv.
    destruct (header_block_contains _ _ _ Hkv) as (b & a & Hblock & Hb).
    rewrite toHttpResponse_spec. unfold Spec.serialize, Spec.contains.
    rewrite Hblock. unfold Response.headerLine. cbn [fst snd].
    destruct Hb as [->|[b' ->]].
    - exists ("HTTP/1.1 " +:+ to_string (Response.statusCode r) +:+ " "
              +:+ Spec.reason (Response.statusCode r)),
             (a +:+ Response.CRLF +:+ Response.body r).
      by rewrite !str_app_assoc.
    - exists ("HTTP/1.1 " +:+ to_string (Response.statusCode r) +:+ " "
              +:+ Spec.reason (Response.statusCode r) +:+ Response.CRLF +:+ b'),
             (a +:+ Response.CRLF +:+ Response.body r).
      by rewrite !str_app_assoc. }
  split; [|split; [exact Hhdr|]].
  - intros r. exists (map_to_list (Response.headers r)). split; [done|].
    rewrite toHttpResponse_spec. unfold Spec.serialize. by rewrite !str_app_assoc.
  - cbn zeta. split; [|split; [|split]].
    + eexists. vm_compute. reflexivity.
    + apply (Hhdr _ "X" "y"). by vm_compute.
    + apply (Hhdr _ "Content-Type" "text/plain"). by vm_compute.
    + apply (Hhdr _ "Content-Length" "2"). by vm_compute.
Qed.

Lemma serialization_format_witness :
  Spec.contains
    (Response.toHttpResponse (Response.setHeader "X" "y" Response.new))
    (Response.CRLF +:+ "X" +:+ ": " +:+ "y" +:+ Response.CRLF).
Proof.
  destruct serialization_format as (_ & Hhdr & _).
  apply Hhdr. vm_compute. reflexivity.
Defined.

(** ** Routing and dispatch *)








(** ** Key/value items: the last one wins *)




(** ** The query string *)



(** Through the constructor the URL is the second white-space separated
    word of the request line, so it never holds a space and trimming finds
    nothing to remove: in a request line the text after the first space of
    the target is not part of the URL. *)
Remark constructor_cuts_url_at_space :
  ∃ r, Request.new "GET /search?q=test&x= y  HTTP/1.1" = Ok r
       ∧ Request.url r = "/search?q=test&x="
       ∧ Request.queryParam r "q" = "test"
       ∧ Request.queryParam r "x" = "".
Proof. eexists. split; [vm_compute; reflexivity|]. by vm_compute. Qed.

(** What the constructor stores as path and query, for any request. *)
Lemma parse_path_query (httpRequest : string) (r : Request.t) :
  size httpRequest ≤ npos →
  Request.new httpRequest = Ok r →
  Request.path r = (Spec.path_query (Request.url r)).1
  ∧ Request.query r = (Spec.path_query (Request.url r)).2.
Proof.
  intros Hs. unfold Request.new. rewrite parseRequest_spec by done. cbn zeta.
  destruct (Request.extractUrlComponents _ _); rstep; [|done].
  by intros [= <-].
Qed.

(** ** Headers and body *)



(** Lines end at a newline and a line is blank when it is empty: a carriage
    return is a character like any other. In a request with CRLF line ends
    a header value keeps its trailing carriage return, and the line that
    holds only a carriage return does not end the headers. *)
Remark carriage_return_is_kept :
  ∃ r, Request.new ("GET / HTTP/1.1" +:+ Response.CRLF +:+ "Host: a"
                    +:+ Response.CRLF +:+ Response.CRLF +:+ "k: v") = Ok r
       ∧ Request.getHeader r "Host" = String "a" (String "013" "")
       ∧ Request.getHeader r "k" = "v"
       ∧ Request.body r = "".
Proof. eexists. split; [vm_compute; reflexivity|]. by vm_compute. Qed.

(** ** Scheme, host and port *)

(** C8. A URL that starts with [https://] gets protocol HTTPS and default
    port 443, any other URL protocol HTTP and default port 80. The host is
    the text from the scheme separator (or from position 0) up to whichever
    of [':'] and ['/'] comes first (or to the end). When a colon comes
    before the first slash, the text after it up to that slash goes through
    [std::stoi], and the number its leading digits denote replaces the
    default port. *)
Theorem url_components (url : string) (this : Request.t) :
  size url ≤ npos →
  let base :=
    Request.set_host (Spec.host url)
      (Request.set_port (Spec.default_port url)
         (Request.set_protocol (Spec.default_protocol url) this)) in
  (Spec.port_text url = None → Request.extractUrlComponents url this = Ok base)
  ∧ (∀ txt, Spec.port_text url = Some txt →
        Request.extractUrlComponents url this
        = (p ← stoi txt; Ok (Request.set_port p base)))
  ∧ (∀ txt, Spec.port_text url = Some txt →
        Spec.leading_digits txt ≠ "" →
        Spec.decimal (Spec.leading_digits txt) ≤ INT_MAX →
        Request.extractUrlComponents url this
        = Ok (Request.set_port (Spec.decimal (Spec.leading_digits txt)) base)).
Proof.
  intros Hs base. rewrite extractUrlComponents_spec by done. cbn zeta. fold base.
  split; [|split].
  - by intros ->.
  - by intros txt ->.
  - intros txt -> Hne Hmax. by rewrite stoi_leading_digits.
Qed.

Lemma url_components_witness :
  ∃ r, Request.extractUrlComponents "https://example.com:8443/index"
         (Request.fresh 0) = Ok r
       ∧ Request.protocol r = "HTTPS" ∧ Request.host r = "example.com"
       ∧ Request.port r = 8443.
Proof.
  destruct (url_components "https://example.com:8443/index" (Request.fresh 0))
    as (_ & _ & H); [by vm_compute|].
  eexists. split.
  - apply (H "8443"); [reflexivity|by vm_compute|by vm_compute].
  - vm_compute. done.
Defined.

(** * Further properties of the code *)

(** ** Responses and the dispatcher *)

Lemma senders_keep_status :
  (∀ b r, Response.statusCode (Response.send b r) = Response.statusCode r)
  ∧ (∀ b r, Response.statusCode (Response.json b r) = Response.statusCode r)
  ∧ (∀ fs p r, Response.statusCode (Response.sendFile fs p r) = Response.statusCode r)
  ∧ (∀ k v r, Response.statusCode (Response.setHeader k v r) = Response.statusCode r).
Proof. done. Qed.

(** X1. [handleRequest] hands the handler a response whose status is 404, and
    [send], [json], [sendFile] and [setHeader] leave the status alone: a
    handler that does not call [status] itself is answered with status 404
    and reason "Not Found", whatever body it sent. The handlers of the
    sample application are of that kind. *)
Theorem handler_without_status_replies_404 (app : App.t) (req : Request.t)
    (h : App.RouteHandler) :
  App.routes app !! Request.path req = Some h →
  (∀ res, Response.statusCode (h req res) = Response.statusCode res) →
  Response.statusCode (App.respond app req) = 404
  ∧ Response.getStatusMessage (App.respond app req) = "Not Found"
  ∧ ∃ rest, Response.toHttpResponse (App.respond app req)
            = "HTTP/1.1 404 Not Found" +:+ Response.CRLF +:+ rest.
Proof.
  intros Hroute Hkeep.
  assert (Hst : Response.statusCode (App.respond app req) = 404).
  { unfold App.respond. rewrite Hroute.
    destruct (empty _); [done|]. by rewrite Hkeep. }
  split; [done|]. split.
  - unfold Response.getStatusMessage. by rewrite Hst.
  - rewrite toHttpResponse_spec. unfold Spec.serialize. rewrite Hst.
    eexists. rewrite !str_app_assoc. reflexivity.
Qed.

Lemma handler_without_status_replies_404_witness :
  Response.statusCode
    (App.respond (Tester.app (λ _, None))
       (Request.mk "GET" "/hello" "HTTP" "" 80 "/hello" "" ∅ ∅)) = 404
  ∧ Response.body
      (App.respond (Tester.app (λ _, None))
         (Request.mk "GET" "/hello" "HTTP" "" 80 "/hello" "" ∅ ∅)) = "Hello, World!".
Proof.
  split.
  - apply (handler_without_status_replies_404 (Tester.app (λ _, None))
             (Request.mk "GET" "/hello" "HTTP" "" 80 "/hello" "" ∅ ∅)
             Tester.hello_handler); [reflexivity|].
    intros res. reflexivity.
  - reflexivity.
Defined.

Ltac rsp :=
  unfold Response.send, Response.json, Response.sendFile, Response.setHeader,
    Response.set_body, Response.status;
  cbn [Response.headers Response.body Response.statusCode].

(** X2. [send], [json] and [sendFile] leave the response with a
    [Content-Length] header that states the length of the body; [status] and
    [setHeader] on another key keep it so; and the dispatcher's fallback
    keeps it so: when every handler's response has it, the response that is
    sent has it. *)
Theorem content_length_matches_body :
  (∀ b r, Props.content_length_ok (Response.send b r))
  ∧ (∀ b r, Props.content_length_ok (Response.json b r))
  ∧ (∀ fs p r, Props.content_length_ok (Response.sendFile fs p r))
  ∧ (∀ code r, Props.content_length_ok r →
               Props.content_length_ok (Response.status code r))
  ∧ (∀ k v r, k ≠ "Content-Length" → Props.content_length_ok r →
              Props.content_length_ok (Response.setHeader k v r))
  ∧ (∀ app req,
       (∀ h, App.routes app !! Request.path req = Some h →
             Props.content_length_ok (h req (Response.mk 404 "" ∅))) →
       Props.content_length_ok (App.respond app req)).
Proof.
  unfold Props.content_length_ok.
  split; [|split; [|split; [|split; [|split]]]].
  - intros b r. rsp. by rewrite lookup_insert_ne, lookup_insert_eq by done.
  - intros b r. rsp. by rewrite lookup_insert_ne, lookup_insert_eq by done.
  - intros fs p r. rsp. by rewrite lookup_insert_eq.
  - done.
  - intros k v r Hk Hr. rsp. by rewrite lookup_insert_ne by done.
  - intros app req Hh. unfold App.respond.
    change (Response.mk 404 (Response.body Response.new)
              (Response.headers Response.new)) with (Response.mk 404 "" ∅).
    destruct (App.routes app !! Request.path req) as [h|] eqn:Hroute.
    + destruct (empty _); [|by apply Hh].
      rsp. by rewrite lookup_insert_ne, lookup_insert_eq by done.
    + cbn [Response.body]. change (empty "") with true. cbv iota.
      rsp. by rewrite lookup_insert_ne, lookup_insert_eq by done.
Qed.

Lemma content_length_matches_body_witness :
  Props.content_length_ok
    (Response.setHeader "X" "y" (Response.status 201 (Response.send "hi" Response.new))).
Proof.
  destruct content_length_matches_body as (Hsend & _ & _ & Hstatus & Hset & _).
  apply Hset; [done|]. apply Hstatus. apply Hsend.
Defined.

(** X3. Header values are written as they are: a value that holds a CRLF
    followed by [k': v'] puts a header line [k': v'] of its own on the wire. *)
Theorem header_value_is_not_escaped (r : Response.t) (k v k' v' : string) :
  Spec.contains
    (Response.toHttpResponse
       (Response.setHeader k (v +:+ Response.CRLF +:+ k' +:+ ": " +:+ v') r))
    (Response.CRLF +:+ k' +:+ ": " +:+ v' +:+ Response.CRLF).
Proof.
  set (r' := Response.setHeader _ _ r).
  assert (Hin : (k, v +:+ Response.CRLF +:+ k' +:+ ": " +:+ v')
                ∈ map_to_list (Response.headers r')).
  { apply elem_of_map_to_list. apply lookup_insert_eq. }
  destruct (header_block_contains _ _ _ Hin) as (b & a & Hblock & _).
  rewrite toHttpResponse_spec. unfold Spec.serialize, Spec.contains.
  rewrite Hblock. unfold Response.headerLine. cbn [fst snd].
  exists (("HTTP/1.1 " +:+ to_string (Response.statusCode r') +:+ " "
           +:+ Spec.reason (Response.statusCode r') +:+ Response.CRLF)
          +:+ b +:+ k +:+ ": " +:+ v),
         (a +:+ Response.CRLF +:+ Response.body r').
  by rewrite !str_app_assoc.
Qed.

(** ** The bounded read *)





(** ** Characters a string is free of *)

Lemma free_of_app (P : ascii → bool) (s t : string) :
  Props.free_of P (s +:+ t) ↔ Props.free_of P s ∧ Props.free_of P t.
Proof.
  unfold Props.free_of. induction s as [|a s IH].
  - rewrite str_app_nil_l. split; [by intros H|by intros [_ H]].
  - rewrite str_app_String. cbn [find_if].
    destruct (P a); [split; [done|by intros [? _]]|].
    by rewrite !fmap_None.
Qed.

Lemma free_of_String (P : ascii → bool) (a : ascii) (s : string) :
  Props.free_of P (String a s) ↔ P a = false ∧ Props.free_of P s.
Proof.
  unfold Props.free_of. cbn [find_if].
  destruct (P a); [split; [done|by intros [? _]]|].
  rewrite fmap_None. split; [by intros H|by intros [_ H]].
Qed.

Lemma free_of_spaces (P : ascii → bool) (n : nat) :
  P " "%char = false → Props.free_of P (Props.spaces n).
Proof.
  intros HP. induction n as [|n IH]; [done|].
  cbn [Props.spaces]. by apply free_of_String.
Qed.

Lemma split_first_free (c : ascii) (s b r : string) :
  Spec.split_first c s = Some (b, r) → Props.free_of (is_char c) b.
Proof.
  revert b. induction s as [|a s IH]; intros b; cbn [Spec.split_first]; [done|].
  destruct (bool_decide (a = c)) eqn:Hac; [by intros [= <- <-]|].
  destruct (Spec.split_first c s) as [[b' r']|]; [|done]. intros [= <- <-].
  apply free_of_String. split; [done|]. by apply IH.
Qed.

Lemma split_first_parts_free (P : ascii → bool) (c : ascii) (s b r : string) :
  Spec.split_first c s = Some (b, r) → Props.free_of P s →
  Props.free_of P b ∧ Props.free_of P r.
Proof.
  intros Hsplit Hs. destruct (split_first_Some _ _ _ _ Hsplit) as [_ ->].
  apply free_of_app in Hs as [Hb Hr]. apply free_of_String in Hr as [_ Hr]. done.
Qed.

(** ** Trimming *)

Lemma lstrip_spec (s : string) :
  ∃ n, s = Props.spaces n +:+ Spec.lstrip s
       ∧ Props.first_char (Spec.lstrip s) ≠ Some " "%char.
Proof.
  induction s as [|a s (n & Hn & Hfirst)]; [by exists 0%nat|].
  cbn [Spec.lstrip]. destruct (bool_decide (a = " "%char)) eqn:Ha.
  - apply bool_decide_eq_true in Ha as ->. exists (S n). split; [|done].
    cbn [Props.spaces]. rewrite str_app_String. by f_equal.
  - apply bool_decide_eq_false in Ha. exists 0%nat. split; [done|].
    cbn. congruence.
Qed.

Lemma rstrip_spec (s : string) :
  ∃ m, s = Spec.rstrip s +:+ Props.spaces m
       ∧ Props.last_char (Spec.rstrip s) ≠ Some " "%char.
Proof.
  induction s as [|a s (m & Hm & Hlast)]; [by exists 0%nat|].
  cbn [Spec.rstrip]. destruct (Spec.rstrip s) as [|b t] eqn:Hr.
  - destruct (bool_decide (a = " "%char)) eqn:Ha.
    + apply bool_decide_eq_true in Ha as ->. exists (S m). split; [|done].
      rewrite Hm at 1. done.
    + apply bool_decide_eq_false in Ha. exists m. split.
      * rewrite Hm at 1. done.
      * cbn. congruence.
  - exists m. split.
    + rewrite Hm at 1. done.
    + done.
Qed.

Lemma rstrip_first_char (s : string) :
  Props.first_char s ≠ Some " "%char →
  Props.first_char (Spec.rstrip s) ≠ Some " "%char.
Proof.
  destruct s as [|a s]; [done|]. cbn [Spec.rstrip Props.first_char]. intros Ha.
  destruct (Spec.rstrip s); [|done].
  destruct (bool_decide (a = " "%char)); done.
Qed.

Lemma lstrip_id (s : string) :
  Props.first_char s ≠ Some " "%char → Spec.lstrip s = s.
Proof.
  destruct s as [|a s]; [done|]. cbn. intros Ha.
  rewrite bool_decide_eq_false_2; [done|]. congruence.
Qed.

Lemma rstrip_id (s : string) :
  Props.last_char s ≠ Some " "%char → Spec.rstrip s = s.
Proof.
  induction s as [|a s IH]; [done|]. cbn [Spec.rstrip Props.last_char].
  destruct s as [|b s].
  - intros Ha. cbn. rewrite bool_decide_eq_false_2; [done|]. congruence.
  - intros Hlast. rewrite IH by done. done.
Qed.

Lemma strip_spec (s : string) :
  ∃ n m, s = Props.spaces n +:+ Spec.strip s +:+ Props.spaces m
         ∧ Props.trimmed (Spec.strip s).
Proof.
  unfold Spec.strip. destruct (lstrip_spec s) as (n & Hn & Hfirst).
  destruct (rstrip_spec (Spec.lstrip s)) as (m & Hm & Hlast).
  exists n, m. split.
  - rewrite Hn at 1. by rewrite Hm at 1.
  - split; [by apply rstrip_first_char|done].
Qed.

Lemma strip_free (P : ascii → bool) (s : string) :
  Props.free_of P s → Props.free_of P (Spec.strip s).
Proof.
  intros Hs. destruct (strip_spec s) as (n & m & Hdec & _).
  rewrite Hdec in Hs. apply free_of_app in Hs as [_ Hs].
  by apply free_of_app in Hs as [Hs _].
Qed.

(** X5. [trim] never throws and removes exactly the spaces around its
    argument: the argument is the result between two runs of spaces, the
    result neither starts nor ends with a space, and trimming it again
    changes nothing. Other white space (tabs, carriage returns) stays. *)
Theorem trim_removes_surrounding_spaces (s : string) :
  size s ≤ npos →
  ∃ t n m, Request.trim s = Ok t
           ∧ s = Props.spaces n +:+ t +:+ Props.spaces m
           ∧ Props.trimmed t
           ∧ Request.trim t = Ok t.
Proof.
  intros Hs. destruct (strip_spec s) as (n & m & Hdec & Htrim).
  exists (Spec.strip s), n, m. split; [by apply trim_strip|].
  split; [done|]. split; [done|].
  rewrite trim_strip.
  - destruct Htrim as [Hfirst Hlast]. unfold Spec.strip at 1.
    by rewrite lstrip_id, rstrip_id.
  - rewrite Hdec in Hs. unfold size in *. rewrite !str_length_app in Hs. lia.
Qed.

Lemma trim_removes_surrounding_spaces_witness :
  ∃ t, Request.trim "  a b  " = Ok t ∧ Props.trimmed t ∧ Request.trim t = Ok t.
Proof.
  destruct (trim_removes_surrounding_spaces "  a b  ")
    as (t & n & m & Ht & _ & Htrimmed & Hagain); [by vm_compute|].
  exists t. split; [exact Ht|]. split; [exact Htrimmed|exact Hagain].
Defined.

(** ** What a parsed request holds *)

Lemma until_space_free (s : string) :
  Props.free_of isspace (until_space s).1.
Proof.
  induction s as [|a s IH]; [done|]. cbn [until_space].
  destruct (isspace a) eqn:Ha; [done|].
  destruct (until_space s) as [w r]. cbn [fst] in *.
  by apply free_of_String.
Qed.

Lemma read_word_free (s w r : string) :
  read_word s = Some (w, r) → Props.free_of isspace w.
Proof.
  unfold read_word. pose proof (until_space_free (skipws s)) as Hw.
  destruct (skipws s) as [|a t]; [done|]. intros H. apply (inj Some) in H.
  by rewrite H in Hw.
Qed.

Lemma readRequestLine_fresh (requestLine : string) (port0 : Z) :
  let r0 := Request.readRequestLine requestLine (Request.fresh port0) in
  Props.free_of isspace (Request.method r0)
  ∧ Props.free_of isspace (Request.url r0)
  ∧ Request.body r0 = "" ∧ Request.headers r0 = ∅ ∧ Request.query r0 = ∅.
Proof.
  cbn zeta. unfold Request.readRequestLine.
  destruct (read_word requestLine) as [[m rest]|] eqn:Hm; [|done].
  pose proof (read_word_free _ _ _ Hm).
  destruct (read_word rest) as [[u rest']|] eqn:Hu; [|done].
  pose proof (read_word_free _ _ _ Hu). done.
Qed.

Lemma path_query_path (url : string) :
  Props.free_of (is_char "?") (Spec.path_query url).1
  ∧ (url = (Spec.path_query url).1
     ∨ ∃ q, url = (Spec.path_query url).1 +:+ String "?" q).
Proof.
  unfold Spec.path_query.
  destruct (Spec.split_first "?" url) as [[p qs]|] eqn:Hsplit; cbn [fst].
  - split; [by eapply split_first_free|].
    right. exists qs. by destruct (split_first_Some _ _ _ _ Hsplit) as [_ ->].
  - split; [|by left]. by apply split_first_None.
Qed.

Lemma parsed_request_line (httpRequest : string) (r : Request.t) :
  size httpRequest ≤ npos →
  Request.new httpRequest = Ok r →
  let r0 := Request.readRequestLine (hd "" (Spec.lines httpRequest)) (Request.fresh 0) in
  Request.method r = Request.method r0
  ∧ Request.url r = Request.url r0
  ∧ Request.path r = (Spec.path_query (Request.url r0)).1
  ∧ Request.query r = (Spec.path_query (Request.url r0)).2.
Proof.
  intros Hs. unfold Request.new. rewrite parseRequest_spec by done. cbn zeta.
  destruct (Request.extractUrlComponents _ _); rstep; [|done].
  by intros [= <-].
Qed.

(** X6. In a parsed request the method and the URL are the first two
    white-space separated words of the request line, so neither holds white
    space; the path is the URL up to its first ['?'], so it holds neither
    white space nor a ['?'], and the URL is the path alone or the path, a
    ['?'] and the query string. *)
Theorem method_url_and_path_are_words (httpRequest : string) (r : Request.t) :
  size httpRequest ≤ npos →
  Request.new httpRequest = Ok r →
  Props.free_of isspace (Request.method r)
  ∧ Props.free_of isspace (Request.url r)
  ∧ Props.free_of isspace (Request.path r)
  ∧ Props.free_of (is_char "?") (Request.path r)
  ∧ (Request.url r = Request.path r
     ∨ ∃ q, Request.url r = Request.path r +:+ String "?" q).
Proof.
  intros Hs Hr. destruct (parsed_request_line _ _ Hs Hr) as (-> & Hu & -> & _).
  rewrite Hu.
  destruct (readRequestLine_fresh (hd "" (Spec.lines httpRequest)) 0)
    as (Hm & Hurl & _).
  destruct (path_query_path
              (Request.url (Request.readRequestLine
                              (hd "" (Spec.lines httpRequest)) (Request.fresh 0))))
    as [Hq Hor].
  split; [done|]. split; [done|]. split; [|split; [done|done]].
  destruct Hor as [Heq|[q Heq]].
  - by rewrite <- Heq.
  - rewrite Heq in Hurl. by apply free_of_app in Hurl as [? _].
Qed.

Lemma method_url_and_path_are_words_witness :
  Props.free_of (is_char "?")
    (Request.path (Request.mk "GET" "/a?b=c" "HTTP" "" 80 "/a" ""
                     ∅ (<["b" := "c"]> ∅))).
Proof.
  destruct (method_url_and_path_are_words "GET /a?b=c HTTP/1.1"
              (Request.mk "GET" "/a?b=c" "HTTP" "" 80 "/a" "" ∅ (<["b" := "c"]> ∅)))
    as (_ & _ & _ & H & _); [by vm_compute|by vm_compute|exact H].
Defined.

(** ** The URL step *)

Lemma take_chars_free (P Q : ascii → bool) (s : string) :
  (∀ a, P a = true → Q a = false) →
  Props.free_of Q (Spec.take_chars P s).
Proof.
  intros HPQ. induction s as [|a s IH]; [done|]. cbn [Spec.take_chars].
  destruct (P a) eqn:Ha; [|done]. apply free_of_String. auto.
Qed.

Lemma stoi_range (s : string) (v : Z) :
  stoi s = Ok v → INT_MIN ≤ v ≤ INT_MAX.
Proof.
  unfold stoi.
  destruct (match skipws s with
            | String "-" t => (true, t)
            | String "+" t => (false, t)
            | _ => (false, skipws s)
            end) as [neg s2].
  destruct (digits_go s2 0 false) as [d|]; [|done].
  destruct (Z.ltb_spec (if neg then - d else d) INT_MIN); [done|].
  destruct (Z.ltb_spec INT_MAX (if neg then - d else d)); [done|].
  cbn. intros [= <-]. lia.
Qed.

Lemma stoi_exceptions (s : string) (e : exn) :
  stoi s = Throw e → e = invalid_argument "stoi" ∨ e = out_of_range "stoi".
Proof.
  unfold stoi.
  destruct (match skipws s with
            | String "-" t => (true, t)
            | String "+" t => (false, t)
            | _ => (false, skipws s)
            end) as [neg s2].
  destruct (digits_go s2 0 false) as [d|]; [|intros [= <-]; by left].
  destruct (_ || _); [intros [= <-]; by right|done].
Qed.

(** X7. When [extractUrlComponents] returns, the protocol is "HTTP" or
    "HTTPS", the host holds neither [':'] nor ['/'], the port fits an [int]
    (it is not checked against the range of port numbers), and the members
    other than protocol, host and port are as they were. *)
Theorem url_step_result (url : string) (this r : Request.t) :
  size url ≤ npos →
  Request.extractUrlComponents url this = Ok r →
  (Request.protocol r = "HTTP" ∨ Request.protocol r = "HTTPS")
  ∧ Props.free_of (is_char ":") (Request.host r)
  ∧ Props.free_of (is_char "/") (Request.host r)
  ∧ INT_MIN ≤ Request.port r ≤ INT_MAX
  ∧ Request.method r = Request.method this
  ∧ Request.url r = Request.url this
  ∧ Request.path r = Request.path this
  ∧ Request.body r = Request.body this
  ∧ Request.headers r = Request.headers this
  ∧ Request.query r = Request.query this.
Proof.
  intros Hs. rewrite extractUrlComponents_spec by done. cbn zeta.
  assert (Hhost1 : Props.free_of (is_char ":") (Spec.host url)).
  { apply take_chars_free. intros a. unfold Spec.host_char, is_char.
    by destruct (bool_decide (a = ":"%char)). }
  assert (Hhost2 : Props.free_of (is_char "/") (Spec.host url)).
  { apply take_chars_free. intros a. unfold Spec.host_char, is_char.
    destruct (bool_decide (a = "/"%char)); [|done]. by rewrite andb_false_r. }
  assert (Hproto : Spec.default_protocol url = "HTTP"
                   ∨ Spec.default_protocol url = "HTTPS").
  { unfold Spec.default_protocol. destruct (Spec.https url); auto. }
  assert (Hport : INT_MIN ≤ Spec.default_port url ≤ INT_MAX).
  { unfold Spec.default_port. destruct (Spec.https url); by compute. }
  destruct (Spec.port_text url) as [txt|].
  - destruct (stoi txt) as [p|e] eqn:Hstoi; rstep; [|done].
    intros [= <-]. apply stoi_range in Hstoi. done.
  - intros [= <-]. done.
Qed.

Lemma url_step_result_witness :
  ∃ r, Request.extractUrlComponents "localhost:-7/x" (Request.fresh 0) = Ok r
       ∧ Request.port r = -7 ∧ INT_MIN ≤ Request.port r ≤ INT_MAX.
Proof.
  eexists. split; [vm_compute; reflexivity|]. split; [reflexivity|].
  destruct (url_step_result "localhost:-7/x" (Request.fresh 0)
              (Request.mk "" "" "HTTP" "localhost" (-7) "" "" ∅ ∅))
    as (_ & _ & _ & H & _); [by vm_compute|by vm_compute|exact H].
Defined.

(** X8. Constructing a [Request] throws exactly when a colon comes before
    the first slash of the URL and [std::stoi] rejects the text between them;
    the exception is then [invalid_argument] or [out_of_range] from [stoi].
    No [substr] call of the parser is ever out of range. *)
Theorem parsing_throws_only_in_stoi (httpRequest : string) (e : exn) :
  size httpRequest ≤ npos →
  let url := Request.url (Request.readRequestLine (hd "" (Spec.lines httpRequest))
                            (Request.fresh 0)) in
  (Request.new httpRequest = Throw e
   ↔ ∃ txt, Spec.port_text url = Some txt ∧ stoi txt = Throw e)
  ∧ (Request.new httpRequest = Throw e →
     e = invalid_argument "stoi" ∨ e = out_of_range "stoi").
Proof.
  intros Hs url. unfold Request.new. rewrite parseRequest_spec by done. cbn zeta.
  fold url.
  assert (Hu : size url ≤ npos).
  { apply readRequestLine_url_size; [|by compute].
    apply hd_bounded. rewrite lines_getlines. by apply getlines_bounded. }
  rewrite extractUrlComponents_spec by done. cbn zeta.
  destruct (Spec.port_text url) as [txt|].
  - destruct (stoi txt) as [p|e'] eqn:Hstoi; rstep.
    + split; [|done]. split; [done|]. intros (txt' & [= <-] & Hthrow). congruence.
    + split.
      * split; [intros [= <-]; eauto|]. intros (txt' & [= <-] & Hthrow). congruence.
      * intros [= <-]. by eapply stoi_exceptions.
  - rstep. split; [|done]. split; [done|]. by intros (txt & ? & _).
Qed.

Lemma parsing_throws_only_in_stoi_witness :
  Request.new "GET localhost:x/ HTTP/1.1" = Throw (invalid_argument "stoi").
Proof.
  destruct (parsing_throws_only_in_stoi "GET localhost:x/ HTTP/1.1"
              (invalid_argument "stoi")) as [[_ H] _]; [by vm_compute|].
  apply H. exists "x". split; vm_compute; reflexivity.
Defined.

(** X9. A request line with fewer than two words (an empty request, a blank
    first line, a method alone) is not an error: the request is built with an
    empty URL, path and host, protocol "HTTP", port 80 and no query, and the
    headers and the body are still read. *)
Theorem request_line_without_target (httpRequest : string) :
  size httpRequest ≤ npos →
  (∀ m rest, read_word (hd "" (Spec.lines httpRequest)) = Some (m, rest) →
             read_word rest = None) →
  ∃ r, Request.new httpRequest = Ok r
       ∧ Request.url r = "" ∧ Request.path r = "" ∧ Request.host r = ""
       ∧ Request.protocol r = "HTTP" ∧ Request.port r = 80
       ∧ Request.query r = ∅
       ∧ Request.headers r
         = Spec.collect ":" ∅ (Spec.header_lines (Spec.lines httpRequest))
       ∧ Request.body r
         = Spec.join (String "010" "") (Spec.body_lines (Spec.lines httpRequest)).
Proof.
  intros Hs Hline. unfold Request.new. rewrite parseRequest_spec by done. cbn zeta.
  set (l := hd "" (Spec.lines httpRequest)) in *.
  assert (Hurl : Request.url (Request.readRequestLine l (Request.fresh 0)) = "").
  { unfold Request.readRequestLine.
    destruct (read_word l) as [[m rest]|] eqn:Hm; [|done].
    by rewrite (Hline m rest eq_refl). }
  rewrite Hurl. eexists. split; [reflexivity|]. done.
Qed.

Lemma request_line_without_target_witness :
  ∃ r, Request.new ("GET" +:+ String "010" "Host: a") = Ok r
       ∧ Request.path r = "" ∧ Request.port r = 80.
Proof.
  destruct (request_line_without_target ("GET" +:+ String "010" "Host: a"))
    as (r & Hr & _ & Hp & _ & _ & Hport & _).
  - by vm_compute.
  - intros m rest H. vm_compute in H. by injection H as <- <-.
  - exists r. split; [exact Hr|]. split; [exact Hp|exact Hport].
Defined.

(** ** Keys and values of the header and query mappings *)

Lemma collect_forall (P : string → string → Prop) (c : ascii)
    (m : gmap string string) (items : list string) :
  (∀ k v, m !! k = Some v → P k v) →
  (∀ item k v, item ∈ items → Spec.key_value c item = Some (k, v) → P k v) →
  ∀ k v, Spec.collect c m items !! k = Some v → P k v.
Proof.
  unfold Spec.collect. revert m.
  induction items as [|item items IH]; intros m Hm Hitems k v; [by apply Hm|].
  cbn [foldl]. apply IH.
  - intros k' v'. unfold Spec.insert_item.
    destruct (Spec.key_value c item) as [[k0 v0]|] eqn:Hkv; [|by apply Hm].
    destruct (decide (k0 = k')) as [<-|Hne].
    + rewrite lookup_insert_eq. intros [= <-]. apply (Hitems item); [by left|done].
    + rewrite lookup_insert_ne by done. apply Hm.
  - intros item' k' v' Hin. apply Hitems. by right.
Qed.

Lemma key_value_clean (c : ascii) (item k v : string) :
  Spec.key_value c item = Some (k, v) →
  Props.free_of (is_char c) k ∧ Props.trimmed k ∧ Props.trimmed v
  ∧ ∀ P, Props.free_of P item → Props.free_of P k ∧ Props.free_of P v.
Proof.
  unfold Spec.key_value.
  destruct (Spec.split_first c item) as [[k0 v0]|] eqn:Hsplit; [|done].
  intros [= <- <-].
  destruct (strip_spec k0) as (? & ? & _ & Hk). destruct (strip_spec v0) as (? & ? & _ & Hv).
  split; [apply strip_free; by eapply split_first_free|].
  split; [done|]. split; [done|]. intros P HP.
  destruct (split_first_parts_free P _ _ _ _ Hsplit HP).
  split; by apply strip_free.
Qed.

Lemma getlines_free (d : ascii) (s : string) :
  Forall (Props.free_of (is_char d)) (getlines d s).
Proof.
  induction s as [|a s IH]; cbn [getlines]; [constructor|].
  destruct (bool_decide (a = d)) eqn:Had; [by constructor|].
  assert (Ha : is_char d a = false) by done.
  destruct (getlines d s) as [|l ls].
  - constructor; [|done]. by apply free_of_String.
  - inversion IH; subst. constructor; [|done]. by apply free_of_String.
Qed.

Lemma fields_free (d : ascii) (s : string) :
  Forall (Props.free_of (is_char d)) (Spec.fields d s).
Proof.
  destruct (fields_getlines d s) as [-> | ->]; [apply getlines_free|].
  apply Forall_app. split; [apply getlines_free|]. by constructor.
Qed.

Lemma fields_free_of (P : ascii → bool) (d : ascii) (s : string) :
  Props.free_of P s → Forall (Props.free_of P) (Spec.fields d s).
Proof.
  induction s as [|a s IH]; cbn [Spec.fields]; [by constructor|].
  intros [Ha Hs]%free_of_String. specialize (IH Hs).
  destruct (bool_decide (a = d)); [by constructor|].
  destruct (Spec.fields d s) as [|l ls].
  - constructor; [|done]. by apply free_of_String.
  - inversion IH; subst. constructor; [|done]. by apply free_of_String.
Qed.

Lemma upto_blank_subset (ls : list string) (x : string) :
  x ∈ Spec.upto_blank ls → x ∈ ls.
Proof.
  induction ls as [|l ls IH]; [done|]. cbn [Spec.upto_blank].
  destruct (bool_decide (l = "")); [by intros ?%elem_of_nil|].
  intros [->|Hin]%elem_of_cons; [by left|right; auto].
Qed.

Lemma tail_subset {A : Type} (ls : list A) (x : A) : x ∈ tail ls → x ∈ ls.
Proof. destruct ls; [done|]. cbn. by right. Qed.

(** X10. In a parsed request every header key is free of [':'] and of
    newlines, every header value is free of newlines, and neither starts or
    ends with a space; every query key is free of ['='], query keys and
    values are free of ['&'] and of white space. *)
Theorem parsed_keys_and_values (httpRequest : string) (r : Request.t) :
  size httpRequest ≤ npos →
  Request.new httpRequest = Ok r →
  (∀ k v, Request.headers r !! k = Some v →
          Props.free_of (is_char ":") k ∧ Props.free_of (is_char "010") k
          ∧ Props.free_of (is_char "010") v
          ∧ Props.trimmed k ∧ Props.trimmed v)
  ∧ (∀ k v, Request.query r !! k = Some v →
            Props.free_of (is_char "=") k ∧ Props.free_of (is_char "&") k
            ∧ Props.free_of (is_char "&") v
            ∧ Props.free_of isspace k ∧ Props.free_of isspace v).
Proof.
  intros Hs Hr. destruct (parsed_request_line _ _ Hs Hr) as (_ & _ & _ & Hq).
  assert (Hh : Request.headers r
               = Spec.collect ":" ∅ (Spec.header_lines (Spec.lines httpRequest))).
  { revert Hr. unfold Request.new. rewrite parseRequest_spec by done. cbn zeta.
    destruct (Request.extractUrlComponents _ _); rstep; [|done]. by intros [= <-]. }
  split.
  - rewrite Hh. apply collect_forall; [by intros k v ?%lookup_empty_Some|].
    intros item k v Hin Hkv.
    destruct (key_value_clean _ _ _ _ Hkv) as (Hc & Hk & Hv & Hfree).
    assert (Hitem : Props.free_of (is_char "010") item).
    { apply upto_blank_subset, tail_subset in Hin. rewrite lines_getlines in Hin.
      pose proof (getlines_free "010" httpRequest) as Hall.
      rewrite Forall_forall in Hall. by apply Hall. }
    destruct (Hfree _ Hitem). done.
  - rewrite Hq. unfold Spec.path_query.
    destruct (readRequestLine_fresh (hd "" (Spec.lines httpRequest)) 0)
      as (_ & Hurl & _).
    destruct (Spec.split_first "?" _) as [[p qs]|] eqn:Hsplit; cbn [snd];
      [|by intros k v ?%lookup_empty_Some].
    destruct (split_first_parts_free _ _ _ _ _ Hsplit Hurl) as [_ Hqs].
    apply collect_forall; [by intros k v ?%lookup_empty_Some|].
    intros item k v Hin Hkv.
    destruct (key_value_clean _ _ _ _ Hkv) as (Hc & _ & _ & Hfree).
    pose proof (fields_free "&" qs) as Hamp. rewrite Forall_forall in Hamp.
    pose proof (fields_free_of _ "&" _ Hqs) as Hws. rewrite Forall_forall in Hws.
    destruct (Hfree _ (Hamp _ Hin)). destruct (Hfree _ (Hws _ Hin)). done.
Qed.

Lemma parsed_keys_and_values_witness :
  Props.trimmed "b" ∧ Props.free_of (is_char ":") "Host".
Proof.
  destruct (parsed_keys_and_values sample_request
              (Request.mk "POST" "/submit" "HTTP" "" 80 "/submit"
                 ("line one" +:+ String "010" "line two")
                 (<["Host" := "b"]> ∅) ∅))
    as [H _]; [by vm_compute|by vm_compute|].
  destruct (H "Host" "b") as (Hc & _ & _ & _ & Hv); [by vm_compute|].
  split; [exact Hv|exact Hc].
Defined.

(** ** The body is taken as it is *)

Lemma terminated_app (l1 l2 : list string) :
  Spec.terminated (l1 ++ l2) = Spec.terminated l1 +:+ Spec.terminated l2.
Proof.
  induction l1 as [|l l1 IH]; [done|]. cbn [app Spec.terminated].
  rewrite IH. by rewrite str_app_assoc.
Qed.

Lemma terminated_getlines (s : string) :
  Spec.terminated (getlines "010" s) = s
  ∨ Spec.terminated (getlines "010" s) = s +:+ String "010" "".
Proof.
  induction s as [|a s IH]; [by left|]. cbn [getlines].
  destruct (bool_decide (a = "010"%char)) eqn:Ha.
  - apply bool_decide_eq_true in Ha as ->. cbn [Spec.terminated].
    rewrite str_app_nil_l. destruct IH as [-> | ->]; [by left|by right].
  - destruct (getlines "010" s) as [|l ls].
    + cbn in IH. destruct IH as [<-|IH]; [by right|]. by destruct s.
    + cbn [Spec.terminated] in *. rewrite str_app_String.
      destruct IH as [-> | ->]; [by left|by right].
Qed.

Lemma terminated_join (ls : list string) :
  ls ≠ [] →
  Spec.terminated ls = Spec.join (String "010" "") ls +:+ String "010" "".
Proof.
  induction ls as [|l ls IH]; [done|]. intros _. cbn [Spec.terminated Spec.join].
  destruct ls as [|l' ls]; [done|]. rewrite IH by done.
  by rewrite !str_app_assoc.
Qed.

Lemma after_blank_suffix (ls : list string) :
  ∃ pre, ls = pre ++ Spec.after_blank ls.
Proof.
  induction ls as [|l ls (pre & Hpre)]; [by exists []|]. cbn [Spec.after_blank].
  destruct (bool_decide (l = "")); [by exists [l]|].
  exists (l :: pre). cbn. by f_equal.
Qed.

Lemma str_app_cancel_r (s s' t : string) : s +:+ t = s' +:+ t → s = s'.
Proof.
  intros H. assert (Hlen : String.length s = String.length s').
  { apply (f_equal String.length) in H. rewrite !str_length_app in H. lia. }
  rewrite <- (str_take_app s t), H, Hlen. apply str_take_app.
Qed.

(** X11. The body of a parsed request is copied from the end of the request
    text: the text is some prefix followed by the body, or by the body and
    one newline. *)
Theorem body_is_the_end_of_the_request (httpRequest : string) (r : Request.t) :
  size httpRequest ≤ npos →
  Request.new httpRequest = Ok r →
  ∃ before,
    httpRequest = before +:+ Request.body r
    ∨ httpRequest = before +:+ Request.body r +:+ String "010" "".
Proof.
  intros Hs. unfold Request.new. rewrite parseRequest_spec by done. cbn zeta.
  destruct (Request.extractUrlComponents _ _); rstep; [|done].
  intros [= <-]. cbn [Request.body]. unfold Spec.body_lines.
  rewrite lines_getlines.
  set (ls := getlines "010" httpRequest).
  destruct (after_blank_suffix (tail ls)) as (pre & Hpre).
  assert (Hls : ∃ pre', ls = pre' ++ Spec.after_blank (tail ls)).
  { destruct ls as [|l ls']; [by exists []|]. exists (l :: pre). cbn in *. by f_equal. }
  destruct Hls as (pre' & Hls).
  destruct (Spec.after_blank (tail ls)) as [|b bs] eqn:Hbody.
  { exists httpRequest. left. by rewrite str_app_nil_r. }
  pose proof (terminated_getlines httpRequest) as Hterm. fold ls in Hterm.
  rewrite Hls, terminated_app, (terminated_join (b :: bs)) in Hterm by done.
  exists (Spec.terminated pre'). destruct Hterm as [Hterm|Hterm].
  - right. by rewrite <- Hterm.
  - left. apply (str_app_cancel_r _ _ (String "010" "")).
    by rewrite <- Hterm, !str_app_assoc.
Qed.

Lemma body_is_the_end_of_the_request_witness :
  ∃ before,
    sample_request = before +:+ ("line one" +:+ String "010" "line two")
    ∨ sample_request
      = before +:+ ("line one" +:+ String "010" "line two") +:+ String "010" "".
Proof.
  apply (body_is_the_end_of_the_request sample_request
           (Request.mk "POST" "/submit" "HTTP" "" 80 "/submit"
              ("line one" +:+ String "010" "line two")
              (<["Host" := "b"]> ∅) ∅)); by vm_compute.
Defined.

(** ** Parsing what was written down *)

Lemma free_of_weaken (P Q : ascii → bool) (s : string) :
  (∀ a, Q a = true → P a = true) → Props.free_of P s → Props.free_of Q s.
Proof.
  intros HQP. induction s as [|a s IH]; [done|].
  intros [Ha Hs]%free_of_String. apply free_of_String. split; [|by apply IH].
  destruct (Q a) eqn:HQ; [|done]. by rewrite (HQP a HQ) in Ha.
Qed.

Lemma getlines_line (d : ascii) (a rest : string) :
  Props.free_of (is_char d) a →
  getlines d (a +:+ String d rest) = a :: getlines d rest.
Proof.
  induction a as [|x a IH].
  - intros _. rewrite str_app_nil_l. cbn [getlines].
    by rewrite bool_decide_eq_true_2.
  - intros [Hx Ha]%free_of_String. rewrite str_app_String. cbn [getlines].
    unfold is_char in Hx. rewrite Hx. by rewrite IH.
Qed.

Lemma getlines_terminated (ls : list string) (rest : string) :
  Forall (Props.free_of (is_char "010")) ls →
  getlines "010" (Spec.terminated ls +:+ rest) = ls ++ getlines "010" rest.
Proof.
  induction 1 as [|l ls Hl _ IH]; [done|]. cbn [Spec.terminated].
  rewrite str_app_assoc. change (String "010" (Spec.terminated ls) +:+ rest)
    with (String "010" (Spec.terminated ls +:+ rest)).
  rewrite getlines_line by done. by rewrite IH.
Qed.

Lemma join_String (a : ascii) (l : string) (ls : list string) :
  Spec.join (String "010" "") (String a l :: ls)
  = String a (Spec.join (String "010" "") (l :: ls)).
Proof. by destruct ls. Qed.

Lemma join_getlines (b : string) :
  Props.last_char b ≠ Some "010"%char →
  Spec.join (String "010" "") (getlines "010" b) = b.
Proof.
  induction b as [|a b IH]; [done|]. intros Hlast. cbn [getlines].
  assert (Hb : b ≠ "" → Props.last_char b ≠ Some "010"%char).
  { intros Hne. by destruct b. }
  destruct (bool_decide (a = "010"%char)) eqn:Ha.
  - apply bool_decide_eq_true in Ha as ->.
    destruct b as [|c b]; [done|]. specialize (IH (Hb ltac:(done))).
    cbn [Spec.join].
    destruct (getlines "010" (String c b)) as [|l ls] eqn:Hg; [done|].
    by rewrite IH.
  - destruct b as [|c b]; [done|]. specialize (IH (Hb ltac:(done))).
    destruct (getlines "010" (String c b)) as [|l ls] eqn:Hg; [done|].
    by rewrite join_String, IH.
Qed.

Lemma until_space_word (w rest : string) :
  Props.free_of isspace w →
  until_space (w +:+ String " " rest) = (w, String " " rest).
Proof.
  induction w as [|a w IH]; [done|].
  intros [Ha Hw]%free_of_String. rewrite str_app_String. cbn [until_space].
  by rewrite Ha, IH.
Qed.

Lemma read_word_word (w rest : string) :
  Wire.word w →
  read_word (w +:+ String " " rest) = Some (w, String " " rest).
Proof.
  intros [Hne Hw]. unfold read_word.
  destruct w as [|a w]; [done|]. pose proof Hw as [Ha _]%free_of_String.
  rewrite str_app_String. cbn [skipws]. rewrite Ha.
  rewrite <- str_app_String. by rewrite until_space_word.
Qed.

Lemma readRequestLine_words (m u : string) (this : Request.t) :
  Wire.word m → Wire.word u →
  Request.readRequestLine (m +:+ " " +:+ u +:+ " HTTP/1.1") this
  = Request.set_url u (Request.set_method m this).
Proof.
  intros Hm Hu. unfold Request.readRequestLine.
  change (m +:+ " " +:+ u +:+ " HTTP/1.1")
    with (m +:+ String " " (u +:+ String " " "HTTP/1.1")).
  rewrite read_word_word by done.
  assert (Hskip : read_word (String " " (u +:+ String " " "HTTP/1.1"))
                  = read_word (u +:+ String " " "HTTP/1.1")) by done.
  by rewrite Hskip, read_word_word.
Qed.

Lemma split_first_app (c : ascii) (k rest : string) :
  Props.free_of (is_char c) k →
  Spec.split_first c (k +:+ String c rest) = Some (k, rest).
Proof.
  induction k as [|a k IH].
  - intros _. rewrite str_app_nil_l. cbn. by rewrite bool_decide_eq_true_2.
  - intros [Ha Hk]%free_of_String. rewrite str_app_String. cbn [Spec.split_first].
    unfold is_char in Ha. rewrite Ha. by rewrite IH.
Qed.

Lemma key_value_header_line (h : string * string) :
  Wire.clean_header h → Spec.key_value ":" (Wire.header_line h) = Some h.
Proof.
  destruct h as [k v]. intros (Hc & _ & _ & [Hk1 Hk2] & [Hv1 Hv2]). cbn [fst snd] in *.
  unfold Spec.key_value, Wire.header_line. cbn [fst snd].
  change (k +:+ ": " +:+ v) with (k +:+ String ":" (String " " v)).
  rewrite split_first_app by done. unfold Spec.strip.
  rewrite (lstrip_id k), (rstrip_id k) by done.
  change (Spec.lstrip (String " " v)) with (Spec.lstrip v).
  by rewrite (lstrip_id v), (rstrip_id v).
Qed.

Lemma collect_header_lines (hs : list (string * string)) :
  Forall Wire.clean_header hs →
  Spec.collect ":" ∅ (Wire.header_line <$> hs) = list_to_map (reverse hs).
Proof.
  induction hs as [|h hs IH] using rev_ind; [done|].
  intros [Hhs Hh]%Forall_app. rewrite Forall_singleton in Hh. specialize (IH Hhs).
  rewrite fmap_app, reverse_app. unfold Spec.collect in *.
  rewrite foldl_app, IH. change (reverse [h]) with [h].
  change (Wire.header_line <$> [h]) with [Wire.header_line h].
  cbn [foldl app list_to_map]. unfold Spec.insert_item.
  rewrite key_value_header_line by done. by destruct h.
Qed.

Lemma upto_blank_app (hl bl : list string) :
  Forall (λ l, l ≠ "") hl →
  Spec.upto_blank (hl ++ "" :: bl) = hl ∧ Spec.after_blank (hl ++ "" :: bl) = bl.
Proof.
  induction 1 as [|l hl Hl _ [IH1 IH2]]; [done|].
  cbn [app Spec.upto_blank Spec.after_blank].
  rewrite bool_decide_eq_false_2 by done. by rewrite IH1, IH2.
Qed.

(** X12. Round trip. The text made of a request line [method url HTTP/1.1],
    one [key: value] line per header, an empty line and a body, with newline
    line ends, parses back to its parts: the method, the URL, the headers
    (the last of several lines with one key) and the body, provided method
    and URL are words, the headers are clean and the body does not end in a
    newline. Only the URL step can make the constructor throw. *)
Theorem parse_of_written_request (m u : string) (hs : list (string * string))
    (b : string) :
  size (Wire.request m u hs b) ≤ npos →
  Wire.word m → Wire.word u →
  Forall Wire.clean_header hs →
  Props.last_char b ≠ Some "010"%char →
  Request.new (Wire.request m u hs b)
  = r1 ← Request.extractUrlComponents u
           (Request.set_url u (Request.set_method m (Request.fresh 0)));
    Ok (Request.mk m u (Request.protocol r1) (Request.host r1) (Request.port r1)
          (Spec.path_query u).1 b (list_to_map (reverse hs))
          (Spec.path_query u).2).
Proof.
  intros Hs Hm Hu Hhs Hb. unfold Request.new.
  rewrite parseRequest_spec by done. cbn zeta.
  assert (Hlf : ∀ w, Props.free_of isspace w → Props.free_of (is_char "010") w).
  { intros w. apply free_of_weaken. intros a Ha.
    apply bool_decide_eq_true in Ha as ->. done. }
  assert (Hlines : Spec.lines (Wire.request m u hs b)
                   = (m +:+ " " +:+ u +:+ " HTTP/1.1")
                     :: (Wire.header_line <$> hs) ++ "" :: getlines "010" b).
  { rewrite lines_getlines. unfold Wire.request.
    rewrite getlines_line.
    - f_equal. rewrite getlines_terminated.
      + done.
      + apply Forall_fmap. eapply Forall_impl; [exact Hhs|].
        intros [k v] (_ & Hk & Hv & _). unfold Wire.header_line. cbn [fst snd] in *.
        apply free_of_app. split; [done|]. apply free_of_app. split; [done|done].
    - destruct Hm as [_ Hm], Hu as [_ Hu].
      apply free_of_app. split; [by apply Hlf|].
      apply free_of_app. split; [done|].
      apply free_of_app. split; [by apply Hlf|done]. }
  rewrite Hlines. cbn [hd]. rewrite readRequestLine_words by done.
  unfold Spec.header_lines, Spec.body_lines. cbn [tail].
  destruct (upto_blank_app (Wire.header_line <$> hs) (getlines "010" b)) as [-> ->].
  { apply Forall_fmap. apply Forall_true. intros [k v].
    unfold Wire.header_line. cbn. by destruct k. }
  rewrite collect_header_lines by done. rewrite join_getlines by done. done.
Qed.

Lemma parse_of_written_request_witness :
  ∃ r, Request.new (Wire.request "POST" "/submit?id=7"
                      [("Host", "a"); ("Accept", "x: y"); ("Host", "b")] "one two")
       = Ok r
       ∧ Request.getHeader r "Host" = "b"
       ∧ Request.getHeader r "Accept" = "x: y"
       ∧ Request.body r = "one two" ∧ Request.path r = "/submit".
Proof.
  eexists. split.
  - rewrite parse_of_written_request.
    + vm_compute. reflexivity.
    + by vm_compute.
    + by vm_compute.
    + by vm_compute.
    + repeat constructor; by vm_compute.
    + by vm_compute.
  - vm_compute. done.
Defined.

(** ** The logger's pool as a state machine *)

Section FlogPoolFacts.
Context {Task : Type}.
Implicit Types (st : FlogPool.run Task) (ops : list (FlogPool.op Task)).

Lemma exec_snoc ops (o : FlogPool.op Task) st :
  FlogPool.exec (ops ++ [o]) st = FlogPool.step (FlogPool.exec ops st) o.
Proof. unfold FlogPool.exec. by rewrite foldl_app. Qed.

Lemma submitted_snoc_stopped ops (o : FlogPool.op Task) :
  FlogPool.Shutdown ∈ ops →
  FlogPool.submitted_before_shutdown (ops ++ [o])
  = FlogPool.submitted_before_shutdown ops.
Proof.
  induction ops as [|o' ops IH]; [by intros ?%elem_of_nil|].
  intros [Heq|Hin]%elem_of_cons.
  - by subst o'.
  - cbn [app FlogPool.submitted_before_shutdown].
    destruct o' as [f| |]; [by rewrite IH|by rewrite IH|done].
Qed.

Lemma submitted_snoc_running ops (o : FlogPool.op Task) :
  FlogPool.Shutdown ∉ ops →
  FlogPool.submitted_before_shutdown (ops ++ [o])
  = FlogPool.submitted_before_shutdown ops
    ++ match o with FlogPool.Enqueue f => [f] | _ => [] end.
Proof.
  induction ops as [|o' ops IH]; [by destruct o|].
  intros [Hne Hnin]%not_elem_of_cons.
  cbn [app FlogPool.submitted_before_shutdown].
  destruct o' as [f| |]; [by rewrite IH|by rewrite IH|done].
Qed.

(** X13. In every run of the logger's pool (any interleaving of [enqueue]
    calls, worker turns and the destructor) the tasks taken by workers
    followed by the tasks still queued are the accepted tasks in submission
    order: none is lost, duplicated or overtaken. The accepted tasks are
    those submitted before the destructor set [stop]; and a worker leaves its
    loop only after that, with every accepted task taken. *)
Theorem pool_hands_out_tasks_in_order ops :
  let st := FlogPool.exec ops FlogPool.start in
  FlogPool.taken st ++ Flog.tasks (FlogPool.pool st) = FlogPool.accepted st
  ∧ FlogPool.accepted st = FlogPool.submitted_before_shutdown ops
  ∧ (Flog.stop (FlogPool.pool st) = true ↔ FlogPool.Shutdown ∈ ops)
  ∧ (FlogPool.worker_turn (FlogPool.pool st) = FlogPool.Exits →
       FlogPool.taken st = FlogPool.accepted st ∧ FlogPool.Shutdown ∈ ops).
Proof.
  cbn zeta.
  assert (Hinv : FlogPool.taken (FlogPool.exec ops FlogPool.start)
                   ++ Flog.tasks (FlogPool.pool (FlogPool.exec ops FlogPool.start))
                 = FlogPool.accepted (FlogPool.exec ops FlogPool.start)
                 ∧ FlogPool.accepted (FlogPool.exec ops FlogPool.start)
                   = FlogPool.submitted_before_shutdown ops
                 ∧ (Flog.stop (FlogPool.pool (FlogPool.exec ops FlogPool.start)) = true
                    ↔ FlogPool.Shutdown ∈ ops)).
  { induction ops as [|o ops IH] using rev_ind.
    - split; [done|]. split; [done|]. split; [done|]. by intros ?%elem_of_nil.
    - rewrite exec_snoc. destruct IH as (Horder & Hacc & Hstop).
      destruct (FlogPool.exec ops FlogPool.start) as [[queue stop n] acc tk].
      cbn [FlogPool.pool FlogPool.accepted FlogPool.taken Flog.tasks Flog.stop] in *.
      rewrite elem_of_app, list_elem_of_singleton.
      destruct stop.
      + assert (Hin : FlogPool.Shutdown ∈ ops) by (by apply Hstop).
        rewrite submitted_snoc_stopped by done.
        destruct o as [f| |].
        { cbn. split; [done|]. split; [done|]. split; auto. }
        2:{ cbn. split; [done|]. split; [done|]. split; auto. }
        unfold FlogPool.step, FlogPool.worker_turn.
        cbn [FlogPool.pool Flog.stop Flog.tasks Flog.notified orb andb].
        destruct queue as [|t queue].
        * rewrite bool_decide_eq_true_2 by done. cbn.
          split; [done|]. split; [done|]. split; auto.
        * rewrite bool_decide_eq_false_2 by done.
          cbn [FlogPool.pool FlogPool.accepted FlogPool.taken Flog.tasks Flog.stop].
          split; [by rewrite <- app_assoc|]. split; [done|]. split; auto.
      + assert (Hnin : FlogPool.Shutdown ∉ ops) by (by intros ?%Hstop).
        rewrite submitted_snoc_running by done.
        destruct o as [f| |].
        * cbn. split; [by rewrite app_assoc, Horder|]. split; [by rewrite Hacc|].
          split; [done|]. by intros [?|?].
        * unfold FlogPool.step, FlogPool.worker_turn.
          cbn [FlogPool.pool Flog.stop Flog.tasks Flog.notified orb andb].
          rewrite app_nil_r. destruct queue as [|t queue].
          -- rewrite bool_decide_eq_true_2 by done. cbn.
             split; [done|]. split; [done|]. split; [done|]. by intros [?|?].
          -- rewrite bool_decide_eq_false_2 by done.
             cbn [negb orb andb FlogPool.pool FlogPool.accepted FlogPool.taken
                  Flog.tasks Flog.stop].
             split; [by rewrite <- app_assoc|]. split; [done|].
             split; [done|]. by intros [?|?].
        * cbn. rewrite app_nil_r. split; [done|]. split; [done|]. split; auto. }
  destruct Hinv as (Horder & Hacc & Hstop). split; [done|]. split; [done|].
  split; [done|]. intros Hexit. unfold FlogPool.worker_turn in Hexit.
  destruct (Flog.stop _) eqn:Hs, (Flog.tasks _) as [|t q] eqn:Hq;
    cbn in Hexit; try done.
  split; [|by apply Hstop]. by rewrite <- Horder, app_nil_r.
Qed.

(** X14. Once the destructor has set [stop], the workers empty the queue
    before any of them can leave: as many worker turns as there are queued
    tasks take them all, in order, and only the turn after that makes a worker
    return. *)
Theorem stopped_pool_is_drained st :
  Flog.stop (FlogPool.pool st) = true →
  let n := length (Flog.tasks (FlogPool.pool st)) in
  let st' := FlogPool.exec (replicate n FlogPool.Turn) st in
  Flog.tasks (FlogPool.pool st') = []
  ∧ FlogPool.taken st' = FlogPool.taken st ++ Flog.tasks (FlogPool.pool st)
  ∧ FlogPool.accepted st' = FlogPool.accepted st
  ∧ FlogPool.worker_turn (FlogPool.pool st') = FlogPool.Exits
  ∧ ∀ k, (k < n)%nat →
         FlogPool.worker_turn
           (FlogPool.pool (FlogPool.exec (replicate k FlogPool.Turn) st))
         ≠ FlogPool.Exits.
Proof.
  destruct st as [[queue stop n0] acc tk]. cbn [FlogPool.pool Flog.stop Flog.tasks].
  intros ->. cbn zeta. revert tk.
  induction queue as [|t queue IH]; intros tk.
  - cbn. rewrite app_nil_r. repeat split; try done. intros k Hk. lia.
  - cbn [length replicate FlogPool.exec foldl].
    assert (Hstep : FlogPool.step (FlogPool.mkRun (Flog.mk (t :: queue) true n0) acc tk)
                      FlogPool.Turn
                    = FlogPool.mkRun (Flog.mk queue true n0) acc (tk ++ [t])) by done.
    rewrite Hstep. fold (FlogPool.exec (replicate (length queue) FlogPool.Turn)
                           (FlogPool.mkRun (Flog.mk queue true n0) acc (tk ++ [t]))).
    destruct (IH (tk ++ [t])) as (H1 & H2 & H3 & H4 & H5).
    split; [done|]. split; [rewrite H2; cbn [Flog.tasks FlogPool.pool FlogPool.taken];
                            by rewrite <- app_assoc|]. split; [done|].
    split; [done|]. intros [|k] Hk; [done|].
    cbn [replicate FlogPool.exec foldl]. rewrite Hstep. apply H5. lia.
Qed.

End FlogPoolFacts.

Lemma stopped_pool_is_drained_witness :
  FlogPool.taken
    (FlogPool.exec [FlogPool.Turn; FlogPool.Turn]
       (FlogPool.mkRun (Flog.mk [1%nat; 2%nat] true 0) [1%nat; 2%nat] []))
  = [1%nat; 2%nat].
Proof.
  destruct (stopped_pool_is_drained
              (FlogPool.mkRun (Flog.mk [1%nat; 2%nat] true 0) [1%nat; 2%nat] []))
    as (_ & H & _); [reflexivity|exact H].
Defined.

Lemma pool_hands_out_tasks_in_order_witness :
  let st := FlogPool.exec
              [FlogPool.Enqueue 1%nat; FlogPool.Enqueue 2%nat; FlogPool.Turn;
               FlogPool.Shutdown; FlogPool.Enqueue 3%nat; FlogPool.Turn; FlogPool.Turn]
              FlogPool.start in
  FlogPool.taken st = FlogPool.accepted st ∧ FlogPool.accepted st = [1%nat; 2%nat].
Proof.
  destruct (pool_hands_out_tasks_in_order
              [FlogPool.Enqueue 1%nat; FlogPool.Enqueue 2%nat; FlogPool.Turn;
               FlogPool.Shutdown; FlogPool.Enqueue 3%nat; FlogPool.Turn; FlogPool.Turn])
    as (_ & Hacc & _ & Hexit).
  split; [apply Hexit; reflexivity|exact Hacc].
Defined.

(** ** Sockets *)

Ltac in_trace :=
  rewrite ?elem_of_app, ?elem_of_cons, ?elem_of_nil;
  intuition (try discriminate; try congruence).

(** X15. [listen] reaches its accept loop exactly when [socket],
    [setsockopt], [bind] and [listen] all succeed, and calls the start
    callback exactly then (when one was given). When the set-up fails after
    the socket was created, the socket is closed once; when [socket] itself
    fails nothing else is attempted and nothing is closed. *)
Theorem listen_setup_outcomes (o : Net.os) (port : Z) (onStart : bool) :
  let '(entered, serverSocket, trace) := Net.listen_setup o port onStart in
  serverSocket = Net.socket_ret o
  ∧ (entered = true
     ↔ 0 ≤ Net.socket_ret o ∧ 0 ≤ Net.setsockopt_ret o
       ∧ 0 ≤ Net.bind_ret o ∧ 0 ≤ Net.listen_ret o)
  ∧ (Net.EvOnStart ∈ trace ↔ entered = true ∧ onStart = true)
  ∧ (entered = true → Net.closes serverSocket trace = 0%nat)
  ∧ (entered = false → 0 ≤ Net.socket_ret o → Net.closes serverSocket trace = 1%nat)
  ∧ (Net.socket_ret o < 0 →
     trace = [Net.EvSocket; Net.EvStderr (Net.line "Could not create socket");
              Net.EvStderr (Net.line "Failed to initialize server socket")]).
Proof.
  destruct o as [s c b l]. unfold Net.listen_setup, Net.createServerSocket,
    Net.configureServerSocket, Net.bindServerSocket, Net.closes.
  cbn [Net.socket_ret Net.setsockopt_ret Net.bind_ret Net.listen_ret].
  destruct (Z.ltb_spec s 0); cbn [negb].
  { split; [done|]. split; [split; [done|lia]|]. split.
    - split; [|by intros [? _]].
      in_trace.
    - split; [done|]. split; [lia|done]. }
  destruct (Z.ltb_spec c 0); cbn [negb].
  { split; [done|]. split; [split; [done|lia]|]. split.
    - split; [|by intros [? _]].
      in_trace.
    - split; [done|]. split; [|lia]. intros _ _. cbn.
      rewrite !decide_False by done. by rewrite decide_True. }
  destruct (Z.ltb_spec b 0); cbn [negb].
  { split; [done|]. split; [split; [done|lia]|]. split.
    - split; [|by intros [? _]].
      in_trace.
    - split; [done|]. split; [|lia]. intros _ _. cbn.
      rewrite !decide_False by done. by rewrite decide_True. }
  destruct (Z.ltb_spec l 0).
  { split; [done|]. split; [split; [done|lia]|]. split.
    - split; [|by intros [? _]].
      in_trace.
    - split; [done|]. split; [|lia]. intros _ _. cbn.
      rewrite !decide_False by done. by rewrite decide_True. }
  split; [done|]. split; [split; [lia|done]|]. split.
  - destruct onStart; in_trace.
  - split; [|split; [done|lia]]. intros _.
    destruct onStart; cbn; by rewrite !decide_False by done.
Qed.

Lemma listen_setup_outcomes_witness :
  Net.closes 3 (Net.listen_setup (Net.mkOs 3 0 (-1) 0) 8080 true).2 = 1%nat.
Proof.
  pose proof (listen_setup_outcomes (Net.mkOs 3 0 (-1) 0) 8080 true) as H.
  destruct (Net.listen_setup (Net.mkOs 3 0 (-1) 0) 8080 true) as [[entered fd] trace]
    eqn:Hsetup.
  destruct H as (Hfd & Hent & _ & _ & Hclose & _).
  cbn [snd]. cbn in Hfd. subst fd. apply Hclose; [|by compute].
  destruct entered; [|done]. destruct Hent as [Hent _].
  destruct (Hent eq_refl) as (_ & _ & Hb & _). by compute in Hb.
Defined.

Lemma accept_loop_from (serverSocket : Z) (accepts : list Z)
    (pool : ThreadPool.t Z) (trace : list Net.event) :
  for_each (Net.accept_turn serverSocket) accepts (pool, trace)
  = Ok (ThreadPool.mk
          (ThreadPool.tasks pool ++ filter (λ s, 0 ≤ s) accepts)
          (ThreadPool.stop pool)
          (ThreadPool.notified pool + length (filter (λ s, 0 ≤ s) accepts)),
        trace ++ replicate (length accepts) (Net.EvAccept serverSocket)).
Proof.
  revert pool trace. induction accepts as [|s accepts IH]; intros pool trace.
  - cbn. rewrite !app_nil_r, Nat.add_0_r. by destruct pool.
  - cbn [for_each Net.accept_turn]. destruct (Z.leb_spec 0 s) as [Hs|Hs].
    + unfold ThreadPool.enqueue. rstep. rewrite IH.
      cbn [ThreadPool.tasks ThreadPool.stop ThreadPool.notified].
      rewrite filter_cons_True by done. cbn [length replicate].
      do 2 f_equal; [|by rewrite <- app_assoc].
      f_equal; [by rewrite <- app_assoc|lia].
    + rstep. rewrite IH. rewrite filter_cons_False by lia. cbn [length replicate].
      do 2 f_equal. by rewrite <- app_assoc.
Qed.

(** X16. The accept loop never stops on a failed [accept]: after any number
    of iterations the pool has been handed the accepted connections, and
    only those, in the order they came in, one notification each; each
    iteration made one [accept] call and nothing else. *)
Theorem accept_loop_queues_connections (serverSocket : Z) (accepts : list Z)
    (pool : ThreadPool.t Z) :
  Net.accept_loop serverSocket accepts pool
  = Ok (ThreadPool.mk
          (ThreadPool.tasks pool ++ filter (λ s, 0 ≤ s) accepts)
          (ThreadPool.stop pool)
          (ThreadPool.notified pool + length (filter (λ s, 0 ≤ s) accepts)),
        replicate (length accepts) (Net.EvAccept serverSocket)).
Proof. unfold Net.accept_loop. by rewrite accept_loop_from. Qed.



(** * The formatter of ff.h *)

(** ** [format_binary] *)

Lemma bitset_length (n : nat) (v : Z) : String.length (Ff.bitset_to_string n v) = n.
Proof. induction n as [|n IH]; simpl; [done|]. by rewrite IH. Qed.

Lemma binary_value_bitset (n : nat) (v : Z) :
  FfSpec.binary_value (Ff.bitset_to_string n v) = v mod 2 ^ Z.of_nat n.
Proof.
  induction n as [|n IH].
  - simpl. by rewrite Z.mod_1_r.
  - cbn [Ff.bitset_to_string FfSpec.binary_value]. rewrite bitset_length, IH.
    rewrite Nat2Z.inj_succ, Z.pow_succ_r by lia.
    rewrite (Z.mul_comm 2), Z.rem_mul_r by lia.
    rewrite <- (Z.testbit_spec' v (Z.of_nat n)) by lia.
    destruct (Z.testbit v (Z.of_nat n)); simpl; lia.
Qed.

Lemma bitset_digits (n : nat) (v : Z) :
  Props.free_of FfSpec.not_bit (Ff.bitset_to_string n v).
Proof.
  unfold Props.free_of. induction n as [|n IH]; simpl; [done|].
  rewrite IH. by destruct (Z.testbit v (Z.of_nat n)).
Qed.

Lemma free_of_str_drop (P : ascii → bool) (n : nat) (s : string) :
  Props.free_of P s → Props.free_of P (str_drop n s).
Proof.
  unfold Props.free_of. revert s. induction n as [|n IH]; intros [|a s]; simpl; try done.
  destruct (P a); [done|]. destruct (find_if P s) eqn:E; [done|]. intros _. by apply IH.
Qed.

Lemma binary_value_zeros (s : string) :
  find_if (is_char "1") s = None → FfSpec.binary_value s = 0.
Proof.
  induction s as [|a s IH]; simpl; [done|]. unfold is_char at 1.
  destruct (bool_decide (a = "1"%char)); [done|].
  destruct (find_if (is_char "1") s); [done|]. intros _. by rewrite IH.
Qed.

Lemma binary_value_leading_zeros (s : string) (i : nat) :
  find_if (is_char "1") s = Some i →
  FfSpec.binary_value (str_drop i s) = FfSpec.binary_value s
  ∧ Props.first_char (str_drop i s) = Some "1"%char.
Proof.
  revert i. induction s as [|a s IH]; intros i; simpl; [done|]. unfold is_char at 1.
  destruct (bool_decide (a = "1"%char)) eqn:Ha.
  - intros [= <-]. apply bool_decide_eq_true in Ha as ->. done.
  - destruct (find_if (is_char "1") s) as [j|]; [|done]. intros [= <-].
    destruct (IH j eq_refl) as [Hv Hf]. cbn [str_drop]. by rewrite Hv, Hf.
Qed.

(** X18. [format_binary] writes a value of an integral type of at most 64
    bits as its binary digits without leading zeros: the result denotes the
    value modulo 2^bits (a negative number gives its two's complement), it
    consists of the digits 0 and 1 only, and it is ["0"] or starts with
    ['1'].  The [substr] call cannot throw. *)
Theorem format_binary_value (bits : nat) (value : Z) :
  (bits ≤ 64)%nat →
  ∃ s, Ff.format_binary bits value = Ok s
       ∧ FfSpec.binary_value s = value mod 2 ^ Z.of_nat bits
       ∧ Props.free_of FfSpec.not_bit s
       ∧ (s = "0" ∨ Props.first_char s = Some "1"%char).
Proof.
  intros Hbits. unfold Ff.format_binary.
  pose proof (bitset_length bits value) as Hlen.
  pose proof (binary_value_bitset bits value) as Hval.
  pose proof (bitset_digits bits value) as Hdig.
  set (b := Ff.bitset_to_string bits value) in *.
  assert (size b ≤ npos) as Hsize by (unfold size; rewrite Hlen, npos_eq; lia).
  rewrite find_from_0 by done.
  destruct (find_if (is_char "1") b) as [i|] eqn:Hfind.
  - pose proof (find_if_lt _ _ _ Hfind) as Hi.
    rewrite bool_decide_eq_false_2 by (rewrite npos_eq; lia).
    rewrite substr_suffix by (done || lia).
    destruct (binary_value_leading_zeros _ _ Hfind) as [Hv Hf].
    exists (str_drop i b). split; [done|]. split; [congruence|].
    split; [by apply free_of_str_drop|by right].
  - rewrite bool_decide_eq_true_2 by done.
    exists "0". split; [done|]. rewrite <- Hval, (binary_value_zeros _ Hfind).
    split; [done|]. split; [done|by left].
Qed.

Lemma format_binary_value_witness :
  ∃ s, Ff.format_binary 32 (-6) = Ok s
       ∧ FfSpec.binary_value s = (-6) mod 2 ^ Z.of_nat 32
       ∧ Props.free_of FfSpec.not_bit s
       ∧ (s = "0" ∨ Props.first_char s = Some "1"%char).
Proof. apply (format_binary_value 32 (-6)). lia. Defined.

(** ** [count_placeholders] *)

Lemma size_app (s t : string) : size (s +:+ t) = size s + size t.
Proof. unfold size. rewrite str_length_app. lia. Qed.

Ltac sizes :=
  unfold size in *;
  repeat (rewrite str_length_app in * || cbn [String.length] in * );
  rewrite ?npos_eq in *; lia.

Lemma str_drop_app_length (pre t : string) :
  str_drop (String.length pre) (pre +:+ t) = t.
Proof. induction pre as [|a pre IH]; [apply str_drop_0|]. rewrite str_app_String. apply IH. Qed.

Lemma at_index_app (pre : string) (a : ascii) (t : string) :
  Ff.at_index (pre +:+ String a t) (size pre) = Some a.
Proof.
  unfold Ff.at_index, size. rewrite Nat2Z.id.
  induction pre as [|b pre IH]; [done|]. rewrite str_app_String. apply IH.
Qed.

Lemma find_if_split (c : ascii) (s : string) (j : nat) :
  find_if (is_char c) s = Some j →
  ∃ mid r, s = mid +:+ String c r ∧ String.length mid = j
           ∧ Props.free_of (is_char c) mid.
Proof.
  revert j. induction s as [|a s IH]; intros j; simpl; [done|].
  destruct (is_char c a) eqn:Ha.
  - intros [= <-]. apply bool_decide_eq_true in Ha as ->. by exists "", s.
  - destruct (find_if (is_char c) s) as [k|]; [|done]. intros [= <-].
    destruct (IH k eq_refl) as (mid & r & -> & <- & Hfree).
    exists (String a mid), r. split; [done|]. split; [done|].
    unfold Props.free_of in *. simpl. by rewrite Ha, Hfree.
Qed.

Lemma find_in_suffix (pre t : string) (c : ascii) :
  find (pre +:+ t) c (size pre)
  = match find_if (is_char c) t with
    | Some k => size pre + Z.of_nat k
    | None => npos
    end.
Proof.
  unfold size at 1. rewrite find_from by (rewrite str_length_app; lia).
  rewrite str_drop_app_length. destruct (find_if (is_char c) t); [|done].
  unfold size. lia.
Qed.


Lemma unmatched_closed (mid r : string) :
  FfSpec.unmatched (mid +:+ String "}" r) = FfSpec.unmatched r.
Proof.
  induction mid as [|a mid IH].
  - rewrite str_app_nil_l. done.
  - rewrite str_app_String. cbn [FfSpec.unmatched]. rewrite IH.
    destruct (find_if (is_char "}") (mid +:+ String "}" r)) as [k|] eqn:E.
    + by rewrite andb_false_r.
    + exfalso. clear -E. induction mid as [|b mid IH]; [done|].
      rewrite str_app_String in E. simpl in E. destruct (is_char "}" b); [done|].
      destruct (find_if (is_char "}") (mid +:+ String "}" r)); [done|]. by apply IH.
Qed.

Lemma placeholders_closed (mid r : string) :
  Props.free_of (is_char "}") mid →
  FfSpec.placeholders true (mid +:+ String "}" r) = FfSpec.placeholders false r.
Proof.
  unfold Props.free_of. induction mid as [|a mid IH]; [done|].
  rewrite str_app_String. simpl. destruct (is_char "}" a); [done|].
  destruct (find_if (is_char "}") mid); [done|]. intros _. by apply IH.
Qed.

Lemma placeholders_nonneg (inside : bool) (s : string) :
  0 ≤ FfSpec.placeholders inside s.
Proof.
  revert inside. induction s as [|a s IH]; intros inside; simpl; [done|].
  destruct inside; [apply IH|]. destruct (is_char "{" a); [|apply IH].
  specialize (IH true). lia.
Qed.

Lemma count_loop_spec (fuel : nat) (pre t : string) (c : Z) :
  (String.length t ≤ fuel)%nat → 0 ≤ c → c + size t ≤ npos →
  size (pre +:+ t) ≤ npos →
  Ff.count_loop fuel (pre +:+ t) (size pre) c
  = if FfSpec.unmatched t then None else Some (c + FfSpec.placeholders false t).
Proof.
  revert pre t c. induction fuel as [|fuel IH]; intros pre t c Hfuel Hc Hct Hsize.
  { destruct t; simpl in Hfuel; [|lia]. simpl. f_equal. lia. }
  cbn [Ff.count_loop]. destruct t as [|a t].
  { rewrite str_app_nil_r, bool_decide_eq_false_2 by lia. simpl. f_equal. lia. }
  rewrite size_app, size_String in Hsize. rewrite size_String in Hct.
  pose proof (size_nonneg pre). pose proof (size_nonneg t).
  rewrite bool_decide_eq_true_2 by (rewrite size_app, size_String; lia).
  rewrite at_index_app. cbn [FfSpec.unmatched FfSpec.placeholders].
  assert (bool_decide (find_if (is_char "}") t = None)
          = match find_if (is_char "}") t with Some _ => false | None => true end)
    as ->.
  { case_bool_decide as Hd; [by rewrite Hd|].
    by destruct (find_if (is_char "}") t). }
  destruct (decide (a = "{"%char)) as [->|Hne].
  - rewrite bool_decide_eq_true_2 by done. rewrite find_in_suffix.
    cbn [find_if]. change (is_char "}" "{") with false.
    change (is_char "{" "{") with true. cbv iota. cbn [andb].
    destruct (find_if (is_char "}") t) as [j|] eqn:Hfind; cbn [fmap option_fmap option_map].
    + destruct (find_if_split _ _ _ Hfind) as (mid & r & -> & <- & Hfree).
      rewrite size_app, size_String in Hct, Hsize.
      pose proof (size_nonneg mid). pose proof (size_nonneg r).
      rewrite bool_decide_eq_false_2 by (rewrite npos_eq in *; unfold size in *; lia).
      cbn [orb].
      rewrite unmatched_closed, placeholders_closed by done.
      replace (pre +:+ String "{" (mid +:+ String "}" r))
        with ((pre +:+ String "{" (mid +:+ String "}" "")) +:+ r)
        by (by rewrite !str_app_assoc, !str_app_String, !str_app_assoc).
      replace (szadd (size pre + Z.of_nat (S (String.length mid))) 1)
        with (size (pre +:+ String "{" (mid +:+ String "}" ""))).
      2:{ rewrite szadd_small by sizes. sizes. }
      rewrite szadd_small by lia.
      rewrite IH.
      * destruct (FfSpec.unmatched r); [done|]. f_equal. lia.
      * cbn [String.length] in Hfuel. rewrite str_length_app in Hfuel.
        cbn [String.length] in Hfuel. lia.
      * lia.
      * lia.
      * sizes.
    + by rewrite bool_decide_eq_true_2.
  - rewrite bool_decide_eq_false_2 by congruence.
    assert (is_char "{" a = false) as -> by (by apply bool_decide_eq_false_2).
    cbn [andb orb].
    replace (pre +:+ String a t) with ((pre +:+ String a "") +:+ t)
      by (by rewrite str_app_assoc, str_app_String).
    replace (szadd (size pre) 1) with (size (pre +:+ String a "")).
    2:{ rewrite szadd_small by lia. sizes. }
    rewrite IH; [done|simpl in Hfuel; lia|lia|lia|sizes].
Qed.

(** X19. [count_placeholders] fails its assertion exactly when some ['{']
    of the format string has no ['}'] after it; otherwise it returns the
    number of placeholders, a placeholder running from a ['{'] to the next
    ['}'] (braces inside a placeholder and a ['}'] outside one are not
    counted). *)
Theorem count_placeholders_result (formatStr : string) :
  size formatStr ≤ npos →
  Ff.count_placeholders formatStr
  = if FfSpec.unmatched formatStr then None
    else Some (FfSpec.placeholders false formatStr).
Proof.
  intros Hsize. unfold Ff.count_placeholders.
  pose proof (count_loop_spec (String.length formatStr) "" formatStr 0) as H.
  rewrite str_app_nil_l in H. change (size "") with 0 in H.
  rewrite H by (done || lia). by destruct (FfSpec.unmatched formatStr).
Qed.

Lemma count_placeholders_result_witness :
  Ff.count_placeholders "a}b{c{d}e{}"
  = if FfSpec.unmatched "a}b{c{d}e{}" then None
    else Some (FfSpec.placeholders false "a}b{c{d}e{}").
Proof. apply (count_placeholders_result "a}b{c{d}e{}"). vm_compute. discriminate. Defined.

(** ** [format] *)




Lemma unmatched_free (t r : string) :
  Props.free_of (is_char "{") t → FfSpec.unmatched (t +:+ r) = FfSpec.unmatched r.
Proof.
  unfold Props.free_of. induction t as [|a t IH]; [done|].
  rewrite str_app_String. simpl. destruct (is_char "{" a); [done|].
  destruct (find_if (is_char "{") t); [done|]. intros _. by apply IH.
Qed.
















Lemma format_assertion (bits : nat) (formatStr : string) (first : Z) (rest : list Z) :
  size formatStr ≤ npos →
  Ff.format bits formatStr first rest = None ↔ FfSpec.unmatched formatStr = true.
Proof.
  intros Hsize. unfold Ff.format, Ff.count_placeholders.
  pose proof (count_loop_spec (String.length formatStr) "" formatStr 0) as H.
  rewrite str_app_nil_l in H. change (size "") with 0 in H.
  rewrite H by (done || lia). by destruct (FfSpec.unmatched formatStr).
Qed.



(** * The logger of flog.h *)

Lemma text_of_app (to : Logger.stream) (evs evs' : list Logger.io) :
  LoggerSpec.text_of to (evs ++ evs')
  = LoggerSpec.text_of to evs +:+ LoggerSpec.text_of to evs'.
Proof.
  induction evs as [|ev evs IH]; [done|]. cbn [app LoggerSpec.text_of].
  destruct ev as [to' text| | |]; try done.
  destruct (Logger.same_stream to to'); [|done]. by rewrite IH, str_app_assoc.
Qed.

Lemma flushes_of_app (to : Logger.stream) (evs evs' : list Logger.io) :
  LoggerSpec.flushes_of to (evs ++ evs')
  = LoggerSpec.flushes_of to evs + LoggerSpec.flushes_of to evs'.
Proof.
  induction evs as [|ev evs IH]; [done|]. cbn [app LoggerSpec.flushes_of].
  destruct ev as [|to'| |]; try done.
  destruct (Logger.same_stream to to'); [|done]. rewrite IH. lia.
Qed.

(** One message on a synchronous logger. *)
Lemma logToStream_sync (now : Z) (level : Logger.Level) (formattedMessage : string)
    (w : Logger.world) :
  Logger.isAsync (Logger.this w) = false →
  0 ≤ Logger.messageCount (Logger.this w) < npos →
  let full := bool_decide (Logger.backtraceThreshold (Logger.this w)
                           ≤ Logger.messageCount (Logger.this w) + 1) in
  ∃ w' evs,
    Logger.logToStream now level formattedMessage w = (w', None)
    ∧ Logger.trace w' = Logger.trace w ++ evs
    ∧ LoggerSpec.text_of Logger.OutStream evs
      = Logger.getColorCode level +:+ formattedMessage
        +:+ Logger.getColorCode_of Logger.RESET +:+ String "010" ""
    ∧ LoggerSpec.flushes_of Logger.OutStream evs = (if full then 2 else 1)
    ∧ Logger.messageCount (Logger.this w')
      = (if full then 0 else Logger.messageCount (Logger.this w) + 1)
    ∧ Logger.isAsync (Logger.this w') = false
    ∧ Logger.backtraceThreshold (Logger.this w')
      = Logger.backtraceThreshold (Logger.this w)
    ∧ Logger.pool w' = Logger.pool w.
Proof.
  destruct w as [[nm async tp T c file cur rot per] pool tr].
  cbn [Logger.this Logger.isAsync Logger.messageCount Logger.backtraceThreshold
       Logger.trace Logger.pool].
  intros -> Hc.
  assert (szadd c 1 = c + 1) as Hinc by (apply szadd_small; lia).
  destruct file; [destruct (bool_decide (rot ≤ cur)) eqn:Hrot|];
    cbv [Logger.logToStream Logger.flush Logger.rotateLogFile Logger.update
         Logger.calls Logger.this Logger.isAsync Logger.messageCount
         Logger.backtraceThreshold Logger.trace Logger.pool Logger.isFileLogging
         Logger.currentFileSize Logger.fileFlushThreshold Logger.threadPool
         Logger.name Logger.periodicFlushInterval Logger.set_messageCount
         Logger.set_currentFileSize andb];
    rewrite ?Hrot; cbv iota; rewrite Hinc;
    destruct (bool_decide (T ≤ c + 1));
    rewrite <- ?(assoc_L (++));
    (eexists _, _; split; [reflexivity|]; split; [reflexivity|];
     rewrite ?text_of_app, ?flushes_of_app; repeat split; try reflexivity;
     cbn; by rewrite ?str_app_nil_r).
Qed.

(** X22. On a synchronous logger whose message counter is below its
    threshold [T], any number [n] of [log] calls without arguments return
    normally and write to the output stream exactly the lines of the
    messages, in order; the stream is flushed once by every line and once
    more after every [T]-th message, the counter ends at [(k + n) mod T]
    when it started at [k], and the pool is not touched. *)
Theorem sync_logger_cadence (bits : nat) (cs : list LoggerSpec.call)
    (w : Logger.world) :
  Logger.isAsync (Logger.this w) = false →
  Forall (λ c, LoggerSpec.args c = []) cs →
  0 < Logger.backtraceThreshold (Logger.this w) ≤ npos →
  0 ≤ Logger.messageCount (Logger.this w) < Logger.backtraceThreshold (Logger.this w) →
  ∃ w' evs,
    LoggerSpec.run bits cs w = Some (w', None)
    ∧ Logger.trace w' = Logger.trace w ++ evs
    ∧ LoggerSpec.text_of Logger.OutStream evs = LoggerSpec.lines cs
    ∧ LoggerSpec.flushes_of Logger.OutStream evs
      = Z.of_nat (length cs)
        + (Logger.messageCount (Logger.this w) + Z.of_nat (length cs))
          / Logger.backtraceThreshold (Logger.this w)
    ∧ Logger.messageCount (Logger.this w')
      = (Logger.messageCount (Logger.this w) + Z.of_nat (length cs))
        mod Logger.backtraceThreshold (Logger.this w)
    ∧ Logger.pool w' = Logger.pool w.
Proof.
  intros Hsync Hargs. revert w Hsync.
  induction Hargs as [|c cs Hc _ IH]; intros w Hsync HT Hcount.
  - exists w, []. cbn [LoggerSpec.run LoggerSpec.lines length].
    rewrite app_nil_r, Z.add_0_r, Z.div_small, Z.mod_small by lia. done.
  - cbn [LoggerSpec.run LoggerSpec.lines length]. unfold Logger.log.
    rewrite Hc, Hsync. cbn [andb].
    destruct (logToStream_sync (LoggerSpec.now c) (LoggerSpec.level c)
                (Logger.formatMessage (LoggerSpec.stamp c) (LoggerSpec.level c)
                   (LoggerSpec.message c)) w Hsync)
      as (w1 & evs1 & -> & Htr1 & Htext1 & Hfl1 & Hcount1 & Hsync1 & HT1 & Hpool1);
      [lia|].
    set (T := Logger.backtraceThreshold (Logger.this w)) in *.
    set (k := Logger.messageCount (Logger.this w)) in *.
    destruct (IH w1 Hsync1) as (w' & evs & -> & Htr & Htext & Hfl & Hcnt & Hpool).
    { by rewrite HT1. }
    { rewrite HT1, Hcount1. case_bool_decide; lia. }
    exists w', (evs1 ++ evs). split; [done|].
    split; [by rewrite Htr, Htr1, (assoc_L (++))|].
    split; [by rewrite text_of_app, Htext1, Htext|].
    rewrite flushes_of_app, Hfl1, Hfl, Hcnt, Hcount1, HT1, Hpool, Hpool1.
    rewrite Nat2Z.inj_succ.
    case_bool_decide as Hfull.
    + assert (k + 1 = T) as Hk by lia.
      replace (k + Z.succ (Z.of_nat (length cs))) with (Z.of_nat (length cs) + 1 * T)
        by lia.
      rewrite Z.div_add, Z.mod_add by lia. rewrite Z.add_0_l.
      split; [lia|done].
    + replace (k + Z.succ (Z.of_nat (length cs))) with (k + 1 + Z.of_nat (length cs))
        by lia.
      split; [lia|done].
Qed.

Lemma sync_logger_cadence_witness :
  let w := Logger.setBacktraceThreshold 2
             (Logger.mkWorld (Logger.new "defaultLogger") FlogPool.new []) in
  let cs := [LoggerSpec.mkCall "2024-05-01 10:00:00" 0 Logger.TRACE "Entering /hello endpoint" [];
             LoggerSpec.mkCall "2024-05-01 10:00:00" 0 Logger.INFO "Handling hello request" [];
             LoggerSpec.mkCall "2024-05-01 10:00:01" 1 Logger.WARN "This is a warning for /hello" []] in
  ∃ w' evs,
    LoggerSpec.run 32 cs w = Some (w', None)
    ∧ Logger.trace w' = Logger.trace w ++ evs
    ∧ LoggerSpec.text_of Logger.OutStream evs = LoggerSpec.lines cs
    ∧ LoggerSpec.flushes_of Logger.OutStream evs
      = Z.of_nat (length cs)
        + (Logger.messageCount (Logger.this w) + Z.of_nat (length cs))
          / Logger.backtraceThreshold (Logger.this w)
    ∧ Logger.messageCount (Logger.this w')
      = (Logger.messageCount (Logger.this w) + Z.of_nat (length cs))
        mod Logger.backtraceThreshold (Logger.this w)
    ∧ Logger.pool w' = Logger.pool w.
Proof.
  intros w cs. apply (sync_logger_cadence 32 cs w).
  - reflexivity.
  - repeat constructor.
  - split; vm_compute; congruence.
  - split; vm_compute; congruence.
Defined.

Lemma c_str_app_free (p s : string) :
  Props.free_of (is_char "000") p → c_str (p +:+ s) = p +:+ c_str s.
Proof.
  unfold Props.free_of. induction p as [|a p IH]; [done|].
  rewrite !str_app_String. cbn [find_if c_str]. unfold is_char at 1.
  destruct (bool_decide (a = "000"%char)); [done|].
  destruct (find_if (is_char "000") p); [done|]. intros _. by rewrite IH.
Qed.

Lemma c_str_size (s : string) : size (c_str s) ≤ size s.
Proof.
  induction s as [|a s IH]; [done|]. cbn [c_str].
  destruct (bool_decide (a = "000"%char)); rewrite ?size_String; unfold size in *;
    cbn [String.length]; lia.
Qed.

Lemma formatMessage_prefix (stamp : string) (level : Logger.Level) (message : string) :
  Logger.formatMessage stamp level message
  = ("[" +:+ stamp +:+ "]" +:+ "[" +:+ Logger.levelToString level +:+ "] ")
    +:+ message.
Proof. unfold Logger.formatMessage. by rewrite !str_app_assoc. Qed.

Lemma prefix_free (c : ascii) (stamp : string) (level : Logger.Level) :
  is_char c "[" = false → is_char c "]" = false → is_char c " " = false →
  Props.free_of (is_char c) (Logger.levelToString level) →
  Props.free_of (is_char c) stamp →
  Props.free_of (is_char c)
    ("[" +:+ stamp +:+ "]" +:+ "[" +:+ Logger.levelToString level +:+ "] ").
Proof.
  intros H1 H2 H3 Hl Hs. rewrite !str_app_String, !str_app_nil_l.
  rewrite free_of_String, free_of_app, !free_of_String, free_of_app, !free_of_String.
  repeat split; done.
Qed.

(** X23. A [log] call with at least one argument hands the whole line,
    message included, to [ff::format] as a format string: the call fails the
    assertion of [count_placeholders] exactly when the message, up to its
    first NUL character, has a ['{'] with no ['}'] after it.  The same
    message logged without arguments never fails it. *)
Theorem log_with_arguments_reads_braces (bits : nat) (stamp : string) (now : Z)
    (level : Logger.Level) (message : string) (first : Z) (rest : list Z)
    (w : Logger.world) :
  Props.free_of (is_char "{") stamp → Props.free_of (is_char "000") stamp →
  size (Logger.formatMessage stamp level message) ≤ npos →
  (Logger.log bits stamp now level message (first :: rest) w = None
   ↔ FfSpec.unmatched (c_str message) = true)
  ∧ Logger.log bits stamp now level message [] w ≠ None.
Proof.
  intros Hbrace Hnul Hsize. split; [|done].
  unfold Logger.log.
  pose proof (c_str_size (Logger.formatMessage stamp level message)) as Hc.
  pose proof (format_assertion bits (c_str (Logger.formatMessage stamp level message))
                first rest) as Hf.
  rewrite formatMessage_prefix in Hf at 3.
  rewrite c_str_app_free, unmatched_free in Hf.
  - rewrite <- Hf by lia.
    by destruct (Ff.format bits _ first rest) as [[s|e]|].
  - apply prefix_free; try done. by destruct level.
  - apply prefix_free; try done. by destruct level.
Qed.

Lemma log_with_arguments_reads_braces_witness :
  (Logger.log 32 "2024-05-01 10:00:00" 0 Logger.INFO "user {name logged in" [7]
     (Logger.mkWorld (Logger.new "defaultLogger") FlogPool.new []) = None
   ↔ FfSpec.unmatched (c_str "user {name logged in") = true)
  ∧ Logger.log 32 "2024-05-01 10:00:00" 0 Logger.INFO "user {name logged in" []
      (Logger.mkWorld (Logger.new "defaultLogger") FlogPool.new []) ≠ None.
Proof.
  apply (log_with_arguments_reads_braces 32 "2024-05-01 10:00:00" 0 Logger.INFO
           "user {name logged in" 7 []).
  - reflexivity.
  - reflexivity.
  - vm_compute. discriminate.
Defined.

(** One message run by the worker of an asynchronous logger whose pool is
    running. *)
Lemma logToStream_async (now : Z) (level : Logger.Level) (formattedMessage : string)
    (w : Logger.world) :
  Logger.isAsync (Logger.this w) = true → Logger.threadPool (Logger.this w) = true →
  Flog.stop (Logger.pool w) = false →
  0 ≤ Logger.messageCount (Logger.this w) < npos →
  ∃ w' evs,
    Logger.logToStream now level formattedMessage w = (w', None)
    ∧ Logger.trace w' = Logger.trace w ++ evs
    ∧ LoggerSpec.text_of Logger.OutStream evs
      = Logger.getColorCode level +:+ formattedMessage
        +:+ Logger.getColorCode_of Logger.RESET +:+ String "010" ""
    ∧ LoggerSpec.flushes_of Logger.OutStream evs = 1
    ∧ Logger.isAsync (Logger.this w') = true
    ∧ Logger.threadPool (Logger.this w') = true
    ∧ Logger.backtraceThreshold (Logger.this w')
      = Logger.backtraceThreshold (Logger.this w)
    ∧ Flog.stop (Logger.pool w') = false
    ∧ (if bool_decide (Logger.backtraceThreshold (Logger.this w)
                       ≤ Logger.messageCount (Logger.this w) + 1)
       then Logger.messageCount (Logger.this w') = 0
            ∧ Flog.tasks (Logger.pool w')
              = Flog.tasks (Logger.pool w) ++ [Logger.FlushJob]
       else Logger.messageCount (Logger.this w')
            = Logger.messageCount (Logger.this w) + 1
            ∧ Flog.tasks (Logger.pool w') = Flog.tasks (Logger.pool w)).
Proof.
  destruct w as [[nm async tp T c file cur rot per] [q stop ntf] tr].
  cbn [Logger.this Logger.isAsync Logger.messageCount Logger.backtraceThreshold
       Logger.trace Logger.pool Logger.threadPool Flog.stop Flog.tasks].
  intros -> -> -> Hc.
  assert (szadd c 1 = c + 1) as Hinc by (apply szadd_small; lia).
  destruct file; [destruct (bool_decide (rot ≤ cur)) eqn:Hrot|];
    cbv [Logger.logToStream Logger.flush Logger.rotateLogFile Logger.update
         Logger.calls Logger.this Logger.isAsync Logger.messageCount
         Logger.backtraceThreshold Logger.trace Logger.pool Logger.isFileLogging
         Logger.currentFileSize Logger.fileFlushThreshold Logger.threadPool
         Logger.name Logger.periodicFlushInterval Logger.set_messageCount
         Logger.set_currentFileSize Logger.submit Flog.enqueue Flog.stop
         Flog.tasks Flog.notified andb];
    rewrite ?Hrot; cbv iota; rewrite Hinc;
    destruct (bool_decide (T ≤ c + 1));
    rewrite <- ?(assoc_L (++));
    (eexists _, _; split; [reflexivity|]; split; [reflexivity|];
     rewrite ?text_of_app, ?flushes_of_app; repeat split; try reflexivity;
     cbn; by rewrite ?str_app_nil_r).
Qed.

Lemma queued_text_app (q q' : list Logger.job) :
  LoggerSpec.queued_text (q ++ q')
  = LoggerSpec.queued_text q +:+ LoggerSpec.queued_text q'.
Proof.
  induction q as [|[level fm| |] q IH]; cbn [app LoggerSpec.queued_text]; try done.
  by rewrite IH, !str_app_assoc.
Qed.

Lemma queued_logs_app (q q' : list Logger.job) :
  LoggerSpec.queued_logs (q ++ q')
  = LoggerSpec.queued_logs q + LoggerSpec.queued_logs q'.
Proof.
  induction q as [|[level fm| |] q IH]; cbn [app LoggerSpec.queued_logs]; lia.
Qed.

Lemma queued_flushes_app (q q' : list Logger.job) :
  LoggerSpec.queued_flushes (q ++ q')
  = LoggerSpec.queued_flushes q + LoggerSpec.queued_flushes q'.
Proof.
  induction q as [|[level fm| |] q IH]; cbn [app LoggerSpec.queued_flushes]; lia.
Qed.

Lemma exec_single_worker (bits : nat) (ops : list LoggerSpec.op) (w : Logger.world) :
  Logger.isAsync (Logger.this w) = true → Logger.threadPool (Logger.this w) = true →
  Flog.stop (Logger.pool w) = false →
  Forall LoggerSpec.not_periodic (Flog.tasks (Logger.pool w)) →
  Forall (λ c, LoggerSpec.args c = []) (LoggerSpec.calls_of ops) →
  0 < Logger.backtraceThreshold (Logger.this w) ≤ npos →
  0 ≤ Logger.messageCount (Logger.this w) < Logger.backtraceThreshold (Logger.this w) →
  ∃ w' evs,
    LoggerSpec.exec bits ops w = Some w'
    ∧ Logger.trace w' = Logger.trace w ++ evs
    ∧ LoggerSpec.text_of Logger.OutStream evs
      +:+ LoggerSpec.queued_text (Flog.tasks (Logger.pool w'))
      = LoggerSpec.queued_text (Flog.tasks (Logger.pool w))
        +:+ LoggerSpec.lines (LoggerSpec.calls_of ops)
    ∧ let written := LoggerSpec.queued_logs (Flog.tasks (Logger.pool w))
                     + Z.of_nat (length (LoggerSpec.calls_of ops))
                     - LoggerSpec.queued_logs (Flog.tasks (Logger.pool w')) in
      Logger.messageCount (Logger.this w')
      = (Logger.messageCount (Logger.this w) + written)
        mod Logger.backtraceThreshold (Logger.this w)
      ∧ LoggerSpec.flushes_of Logger.OutStream evs
        + LoggerSpec.queued_flushes (Flog.tasks (Logger.pool w'))
        = LoggerSpec.queued_flushes (Flog.tasks (Logger.pool w)) + written
          + (Logger.messageCount (Logger.this w) + written)
            / Logger.backtraceThreshold (Logger.this w).
Proof.
  revert w. induction ops as [|[c|now] ops IH];
    intros w Hasync Hptr Hstop Hq Hargs HT Hk; cbn [LoggerSpec.exec LoggerSpec.calls_of] in *.
  - exists w, []. rewrite app_nil_r. cbn [LoggerSpec.text_of LoggerSpec.flushes_of
      LoggerSpec.lines length]. rewrite str_app_nil_l, str_app_nil_r.
    split; [done|]. split; [done|]. split; [done|]. cbv zeta.
    replace (LoggerSpec.queued_logs (Flog.tasks (Logger.pool w)) + Z.of_nat 0
             - LoggerSpec.queued_logs (Flog.tasks (Logger.pool w))) with 0 by lia.
    rewrite Z.add_0_r, Z.mod_small, Z.div_small by lia. split; lia.
  - (* a [log] call *)
    apply Forall_cons in Hargs as [Hc Hargs].
    unfold Logger.log. rewrite Hc, Hasync, Hptr. cbn [andb].
    unfold Logger.submit, Flog.enqueue. rewrite Hstop.
    cbn [Flog.tasks Flog.stop Flog.notified].
    set (fm := Logger.formatMessage _ _ _).
    set (w1 := Logger.mkWorld _ _ _).
    destruct (IH w1) as (w' & evs & -> & Htr & Htext & Hcount & Hflush); try done.
    { apply Forall_app. split; [done|]. by repeat constructor. }
    exists w', evs. split; [done|]. split; [done|].
    subst w1. cbn [Logger.pool Logger.this Flog.tasks] in *. cbv zeta in *.
    rewrite queued_text_app, queued_logs_app, queued_flushes_app in *.
    cbn [LoggerSpec.queued_text LoggerSpec.queued_logs LoggerSpec.queued_flushes
         LoggerSpec.lines length] in *.
    rewrite Nat2Z.inj_succ.
    split.
    { rewrite Htext. unfold LoggerSpec.line. fold fm. by rewrite !str_app_assoc. }
    replace (LoggerSpec.queued_logs (Flog.tasks (Logger.pool w))
             + Z.succ (Z.of_nat (length (LoggerSpec.calls_of ops)))
             - LoggerSpec.queued_logs (Flog.tasks (Logger.pool w')))
      with (LoggerSpec.queued_logs (Flog.tasks (Logger.pool w)) + (1 + 0)
            + Z.of_nat (length (LoggerSpec.calls_of ops))
            - LoggerSpec.queued_logs (Flog.tasks (Logger.pool w'))) by lia.
    split; [done|]. rewrite Hflush. lia.
  - (* a turn of the worker *)
    unfold LoggerSpec.worker, FlogPool.worker_turn. rewrite Hstop. cbn [orb andb].
    destruct w as [l [q stop ntf] tr].
    cbn [Logger.pool Logger.this Logger.trace Flog.tasks Flog.stop Flog.notified] in *.
    subst stop.
    destruct q as [|task q].
    { rewrite bool_decide_eq_true_2 by done. cbn [negb].
      by apply (IH (Logger.mkWorld l (Flog.mk [] false ntf) tr)). }
    rewrite bool_decide_eq_false_2 by done. cbn [negb].
    apply Forall_cons in Hq as [Htask Hq].
    destruct task as [level fm| |]; [| |done]; cbn [Logger.run_job].
    + (* a queued message *)
      destruct (logToStream_async now level fm
                  (Logger.mkWorld l (Flog.mk q false ntf) tr))
        as (w1 & evs1 & -> & Htr1 & Htext1 & Hfl1 & Hasync1 & Hptr1 & HT1 & Hstop1 & Hfull);
        try done; [cbn; lia|].
      cbn [fst Logger.this Logger.pool Logger.trace Flog.tasks] in *.
      set (T := Logger.backtraceThreshold l) in *.
      set (k := Logger.messageCount l) in *.
      destruct (IH w1) as (w' & evs & -> & Htr & Htext & Hcount & Hflush); try done.
      { destruct (bool_decide (T ≤ k + 1)); destruct Hfull as [_ ->]; [|done].
        apply Forall_app. split; [done|]. by repeat constructor. }
      { by rewrite HT1. }
      { rewrite HT1. case_bool_decide; destruct Hfull as [-> _]; lia. }
      exists w', (evs1 ++ evs). split; [done|].
      split; [by rewrite Htr, Htr1, (assoc_L (++))|].
      cbv zeta in *. rewrite HT1 in *.
      rewrite text_of_app, flushes_of_app, Htext1, Hfl1.
      cbn [LoggerSpec.queued_text LoggerSpec.queued_logs LoggerSpec.queued_flushes].
      set (n := Z.of_nat (length (LoggerSpec.calls_of ops))) in *.
      set (m' := LoggerSpec.queued_logs (Flog.tasks (Logger.pool w'))) in *.
      set (f' := LoggerSpec.queued_flushes (Flog.tasks (Logger.pool w'))) in *.
      case_bool_decide as Hf; destruct Hfull as [Hk1 Hq1]; rewrite Hk1, Hq1 in *;
        rewrite ?queued_text_app, ?queued_logs_app, ?queued_flushes_app in *;
        cbn [LoggerSpec.queued_text LoggerSpec.queued_logs LoggerSpec.queued_flushes] in *;
        rewrite ?str_app_nil_r in *.
      * split; [by rewrite !str_app_assoc, Htext|].
        assert (k + 1 = T) as HkT by lia.
        replace (k + (1 + LoggerSpec.queued_logs q + n - m'))
          with (0 + (LoggerSpec.queued_logs q + 0 + n - m') + 1 * T) by lia.
        rewrite Z.mod_add, Z.div_add by lia. split; [done|]. lia.
      * split; [by rewrite !str_app_assoc, Htext|].
        replace (k + (1 + LoggerSpec.queued_logs q + n - m'))
          with (k + 1 + (LoggerSpec.queued_logs q + n - m')) by lia.
        split; [done|]. lia.
    + (* a queued flush *)
      unfold Logger.calls. cbn [fst Logger.this Logger.pool Logger.trace].
      set (w1 := Logger.mkWorld _ _ _).
      destruct (IH w1) as (w' & evs & -> & Htr & Htext & Hcount & Hflush); try done.
      exists w', ([Logger.Flush Logger.LogFile; Logger.Flush Logger.OutStream] ++ evs).
      subst w1. cbn [Logger.this Logger.pool Logger.trace Flog.tasks] in *.
      split; [done|]. split; [by rewrite Htr, <- (assoc_L (++))|].
      cbv zeta in *. rewrite text_of_app, flushes_of_app.
      cbn [LoggerSpec.text_of LoggerSpec.flushes_of Logger.same_stream
           LoggerSpec.queued_text LoggerSpec.queued_logs LoggerSpec.queued_flushes].
      rewrite str_app_nil_l. split; [done|]. split; [done|]. lia.
Qed.

(** X24. An asynchronous logger on a running pool with one worker thread,
    starting with an empty queue: in every interleaving of [log] calls
    without arguments and turns of the worker, the text written to the output
    stream followed by the lines of the queued messages is the lines of the
    messages logged so far, in the order of the calls, so no message is lost,
    written twice or overtaken.  When [written] messages have been written,
    the counter is [(k + written) mod T], and the flushes made plus the flush
    tasks still queued number [written + (k + written) / T], as for a
    synchronous logger. *)
Theorem async_logger_single_worker (bits : nat) (ops : list LoggerSpec.op)
    (w : Logger.world) :
  Logger.isAsync (Logger.this w) = true → Logger.threadPool (Logger.this w) = true →
  Flog.stop (Logger.pool w) = false → Flog.tasks (Logger.pool w) = [] →
  Forall (λ c, LoggerSpec.args c = []) (LoggerSpec.calls_of ops) →
  0 < Logger.backtraceThreshold (Logger.this w) ≤ npos →
  0 ≤ Logger.messageCount (Logger.this w) < Logger.backtraceThreshold (Logger.this w) →
  ∃ w' evs,
    LoggerSpec.exec bits ops w = Some w'
    ∧ Logger.trace w' = Logger.trace w ++ evs
    ∧ LoggerSpec.text_of Logger.OutStream evs
      +:+ LoggerSpec.queued_text (Flog.tasks (Logger.pool w'))
      = LoggerSpec.lines (LoggerSpec.calls_of ops)
    ∧ let written := Z.of_nat (length (LoggerSpec.calls_of ops))
                     - LoggerSpec.queued_logs (Flog.tasks (Logger.pool w')) in
      Logger.messageCount (Logger.this w')
      = (Logger.messageCount (Logger.this w) + written)
        mod Logger.backtraceThreshold (Logger.this w)
      ∧ LoggerSpec.flushes_of Logger.OutStream evs
        + LoggerSpec.queued_flushes (Flog.tasks (Logger.pool w'))
        = written
          + (Logger.messageCount (Logger.this w) + written)
            / Logger.backtraceThreshold (Logger.this w).
Proof.
  intros Hasync Hptr Hstop Hq Hargs HT Hk.
  destruct (exec_single_worker bits ops w)
    as (w' & evs & Hexec & Htr & Htext & Hcount & Hflush); try done.
  { rewrite Hq. constructor. }
  rewrite Hq in *. cbn [LoggerSpec.queued_text LoggerSpec.queued_logs
                        LoggerSpec.queued_flushes] in *.
  rewrite str_app_nil_l in Htext. rewrite !Z.add_0_l in *.
  by exists w', evs.
Qed.

Lemma async_logger_single_worker_witness :
  let w := Logger.enableAsync
             (Logger.setBacktraceThreshold 2
                (Logger.mkWorld (Logger.new "defaultLogger") FlogPool.new [])) in
  let c1 := LoggerSpec.mkCall "2024-05-01 10:00:00" 0 Logger.TRACE "Entering /hello endpoint" [] in
  let c2 := LoggerSpec.mkCall "2024-05-01 10:00:00" 0 Logger.INFO "Handling hello request" [] in
  let c3 := LoggerSpec.mkCall "2024-05-01 10:00:01" 1 Logger.WARN "This is a warning for /hello" [] in
  let ops := [LoggerSpec.Log c1; LoggerSpec.Log c2; LoggerSpec.Turn 1;
              LoggerSpec.Log c3; LoggerSpec.Turn 1; LoggerSpec.Turn 2;
              LoggerSpec.Turn 2] in
  ∃ w' evs,
    LoggerSpec.exec 32 ops w = Some w'
    ∧ Logger.trace w' = Logger.trace w ++ evs
    ∧ LoggerSpec.text_of Logger.OutStream evs
      +:+ LoggerSpec.queued_text (Flog.tasks (Logger.pool w'))
      = LoggerSpec.lines (LoggerSpec.calls_of ops)
    ∧ let written := Z.of_nat (length (LoggerSpec.calls_of ops))
                     - LoggerSpec.queued_logs (Flog.tasks (Logger.pool w')) in
      Logger.messageCount (Logger.this w')
      = (Logger.messageCount (Logger.this w) + written)
        mod Logger.backtraceThreshold (Logger.this w)
      ∧ LoggerSpec.flushes_of Logger.OutStream evs
        + LoggerSpec.queued_flushes (Flog.tasks (Logger.pool w'))
        = written
          + (Logger.messageCount (Logger.this w) + written)
            / Logger.backtraceThreshold (Logger.this w).
Proof.
  intros w c1 c2 c3 ops. apply (async_logger_single_worker 32 ops w).
  - reflexivity.
  - reflexivity.
  - reflexivity.
  - reflexivity.
  - repeat constructor.
  - split; vm_compute; congruence.
  - split; vm_compute; congruence.
Defined.
